(** * Semantic-Depth training driver (img_seg_edge.py): a shallow embedding

    The development follows the layout of the Python file:
    - [Scalar]: the values held by tensors and Python floats.  Rounding is
      idealised (finite values are exact rationals), but the IEEE special
      values that drive the control-relevant behaviour of the code
      (infinities, NaN, 0/0) are kept.
    - [Tensor]: 4-dimensional (batch, channel, height, width) tensors with the
      slicing, reduction and broadcasting operations used by the source.
    - [SmoothEdgeLoss]: the class of the same name.
    - [Files]: the save directory and [save_checkpoint].
    - [Trainer]: [validate] and [main] with its resume logic, pretrained
      loading and epoch loop; the network, the optimizer, the scheduler, the
      criteria and the data loaders are parameters. *)

From Stdlib Require Import QArith Qcanon Lqa DecimalString DecimalZ.
From stdpp Require Import base numbers option list gmap strings.

Local Open Scope Qc_scope.

(** ** Scalars *)

Module Scalar.

(** A float: a finite value, an infinity or NaN.  Signed zeros are not
    distinguished. *)
Inductive scalar : Type :=
  | Fin (q : Qc)
  | PInf
  | NInf
  | NaN.

Global Instance scalar_eq_dec : EqDecision scalar.
Proof. solve_decision. Defined.

Definition is_fin (x : scalar) : bool :=
  match x with Fin _ => true | _ => false end.

Definition is_nan (x : scalar) : bool :=
  match x with NaN => true | _ => false end.

Definition sneg (x : scalar) : scalar :=
  match x with
  | Fin q => Fin (- q)
  | PInf => NInf
  | NInf => PInf
  | NaN => NaN
  end.

Definition sadd (x y : scalar) : scalar :=
  match x, y with
  | NaN, _ | _, NaN => NaN
  | Fin a, Fin b => Fin (a + b)
  | PInf, NInf | NInf, PInf => NaN
  | PInf, _ | _, PInf => PInf
  | NInf, _ | _, NInf => NInf
  end.

Definition ssub (x y : scalar) : scalar := sadd x (sneg y).

(** The infinity whose sign is the sign of [a * s], [s] being the sign of
    the infinite operand ([true] for positive); [0 * inf] is NaN. *)
Definition inf_times (a : Qc) (s : bool) : scalar :=
  if decide (a = 0) then NaN
  else if decide (0 < a) then (if s then PInf else NInf)
  else (if s then NInf else PInf).

Definition smul (x y : scalar) : scalar :=
  match x, y with
  | NaN, _ | _, NaN => NaN
  | Fin a, Fin b => Fin (a * b)
  | Fin a, PInf | PInf, Fin a => inf_times a true
  | Fin a, NInf | NInf, Fin a => inf_times a false
  | PInf, PInf | NInf, NInf => PInf
  | PInf, NInf | NInf, PInf => NInf
  end.

Definition sdiv (x y : scalar) : scalar :=
  match x, y with
  | NaN, _ | _, NaN => NaN
  | Fin a, Fin b =>
      if decide (b = 0) then
        (if decide (a = 0) then NaN
         else if decide (0 < a) then PInf else NInf)
      else Fin (a / b)
  | Fin _, PInf | Fin _, NInf => Fin 0
  | PInf, Fin b => if decide (0 ≤ b) then PInf else NInf
  | NInf, Fin b => if decide (0 ≤ b) then NInf else PInf
  | PInf, PInf | PInf, NInf | NInf, PInf | NInf, NInf => NaN
  end.

Definition sabs (x : scalar) : scalar :=
  match x with
  | Fin q => Fin (if decide (0 ≤ q) then q else - q)
  | PInf | NInf => PInf
  | NaN => NaN
  end.

(** Elementwise [torch.max(a, b)] and the reductions [torch.max(t)],
    [torch.min(t)] propagate NaN. *)
Definition smax (x y : scalar) : scalar :=
  match x, y with
  | NaN, _ | _, NaN => NaN
  | PInf, _ | _, PInf => PInf
  | NInf, z | z, NInf => z
  | Fin a, Fin b => Fin (if decide (a ≤ b) then b else a)
  end.

Definition smin (x y : scalar) : scalar :=
  match x, y with
  | NaN, _ | _, NaN => NaN
  | NInf, _ | _, NInf => NInf
  | PInf, z | z, PInf => z
  | Fin a, Fin b => Fin (if decide (a ≤ b) then a else b)
  end.

(** [x < y] and [x == y] on floats: false as soon as NaN is involved. *)
Definition slt (x y : scalar) : bool :=
  match x, y with
  | NaN, _ | _, NaN => false
  | Fin a, Fin b => bool_decide (a < b)
  | NInf, NInf | PInf, PInf => false
  | NInf, _ | _, PInf => true
  | _, NInf | PInf, _ => false
  end.

Definition sle (x y : scalar) : bool :=
  match x, y with
  | NaN, _ | _, NaN => false
  | Fin a, Fin b => bool_decide (a ≤ b)
  | NInf, _ | _, PInf => true
  | _, NInf | PInf, _ => false
  end.

Definition seqb (x y : scalar) : bool :=
  match x, y with
  | NaN, _ | _, NaN => false
  | _, _ => bool_decide (x = y)
  end.

Definition of_Z (n : Z) : scalar := Fin (Qc_of_Z n).
Definition of_nat (n : nat) : scalar := of_Z (Z.of_nat n).

(** [sum] as a left-to-right accumulation from 0. *)
Definition ssum (l : list scalar) : scalar := foldl sadd (Fin 0) l.

(** [x.mean()] of the listed elements: sum / count, NaN on no element. *)
Definition smean (l : list scalar) : scalar :=
  sdiv (ssum l) (of_nat (length l)).

End Scalar.
Export Scalar.

(** ** Tensors *)

Module Tensor.

(** A 4-dimensional tensor: its shape (batch, channel, height, width) and its
    entries.  Entries outside the shape are never read. *)
Record tensor : Type := mkTensor {
  dimB : nat;
  dimC : nat;
  dimH : nat;
  dimW : nat;
  at_ : nat → nat → nat → nat → scalar
}.

Definition shape (t : tensor) : nat * nat * nat * nat :=
  (dimB t, dimC t, dimH t, dimW t).

Definition numel (t : tensor) : nat := (dimB t * dimC t * dimH t * dimW t)%nat.

(** All index tuples of a shape, in row-major order. *)
Definition indices (B C H W : nat) : list (nat * nat * nat * nat) :=
  b ← seq 0 B; c ← seq 0 C; h ← seq 0 H; w ← seq 0 W; [(b, c, h, w)].

Definition at_idx (t : tensor) (i : nat * nat * nat * nat) : scalar :=
  let '(b, c, h, w) := i in at_ t b c h w.

Definition tindices (t : tensor) : list (nat * nat * nat * nat) :=
  indices (dimB t) (dimC t) (dimH t) (dimW t).

(** The entries of a tensor, flattened. *)
Definition telems (t : tensor) : list scalar := at_idx t <$> tindices t.

(** Every entry satisfies the test. *)
Definition tall (p : scalar → bool) (t : tensor) : bool := forallb p (telems t).

(** A tensor literal: batch of channels of rows of entries (rectangular). *)
Definition of_lists (l : list (list (list (list scalar)))) : tensor :=
  let chans := default [] (head l) in
  let rows := default [] (head chans) in
  let row := default [] (head rows) in
  mkTensor (length l) (length chans) (length rows) (length row)
    (λ b c h w,
       default NaN (chan ← l !! b; rws ← chan !! c; rw ← rws !! h; rw !! w)).

Definition full (B C H W : nat) (v : scalar) : tensor :=
  mkTensor B C H W (λ _ _ _ _, v).

(** Pointwise operation with a Python number or a 0-dim tensor. *)
Definition tmap (f : scalar → scalar) (t : tensor) : tensor :=
  mkTensor (dimB t) (dimC t) (dimH t) (dimW t)
    (λ b c h w, f (at_ t b c h w)).

(** Broadcasting of one dimension: equal sizes, or one of them is 1. *)
Definition bdim (n m : nat) : option nat :=
  if decide (n = m) then Some n
  else if decide (n = 1%nat) then Some m
  else if decide (m = 1%nat) then Some n
  else None.

(** Index into an operand of size [n] along a dimension of the broadcast
    result of size [r]. *)
Definition bidx (n r i : nat) : nat := if decide (n = r) then i else 0%nat.

(** Pointwise binary operation with broadcasting; [None] is the
    RuntimeError of incompatible shapes. *)
Definition tzip (f : scalar → scalar → scalar) (x y : tensor) : option tensor :=
  B ← bdim (dimB x) (dimB y);
  C ← bdim (dimC x) (dimC y);
  H ← bdim (dimH x) (dimH y);
  W ← bdim (dimW x) (dimW y);
  Some (mkTensor B C H W
          (λ b c h w,
             f (at_ x (bidx (dimB x) B b) (bidx (dimC x) C c)
                       (bidx (dimH x) H h) (bidx (dimW x) W w))
               (at_ y (bidx (dimB y) B b) (bidx (dimC y) C c)
                       (bidx (dimH y) H h) (bidx (dimW y) W w)))).

(** Slices [t[:, :, :, :-1]], [t[:, :, :, 1:]], [t[:, :, :-1, :]],
    [t[:, :, 1:, :]] and [t[:, k:]]. *)
Definition w_init (t : tensor) : tensor :=
  mkTensor (dimB t) (dimC t) (dimH t) (pred (dimW t)) (at_ t).
Definition w_tail (t : tensor) : tensor :=
  mkTensor (dimB t) (dimC t) (dimH t) (pred (dimW t))
    (λ b c h w, at_ t b c h (S w)).
Definition h_init (t : tensor) : tensor :=
  mkTensor (dimB t) (dimC t) (pred (dimH t)) (dimW t) (at_ t).
Definition h_tail (t : tensor) : tensor :=
  mkTensor (dimB t) (dimC t) (pred (dimH t)) (dimW t)
    (λ b c h w, at_ t b c (S h) w).
Definition c_from (k : nat) (t : tensor) : tensor :=
  mkTensor (dimB t) (dimC t - k) (dimH t) (dimW t)
    (λ b c h w, at_ t b (c + k)%nat h w).

(** [t[:, k]], kept as a one-channel tensor; [None] is the IndexError of a
    missing channel.  [t[:, 0:k]]. *)
Definition select_c (k : nat) (t : tensor) : option tensor :=
  if decide (k < dimC t)%nat
  then Some (mkTensor (dimB t) 1 (dimH t) (dimW t) (λ b _ h w, at_ t b k h w))
  else None.
Definition c_take (k : nat) (t : tensor) : tensor :=
  mkTensor (dimB t) (Nat.min k (dimC t)) (dimH t) (dimW t) (at_ t).

(** [torch.mean(t, 1, keepdim=True)]. *)
Definition mean_c (t : tensor) : tensor :=
  mkTensor (dimB t) 1 (dimH t) (dimW t)
    (λ b _ h w, smean ((λ c, at_ t b c h w) <$> seq 0 (dimC t))).

(** [torch.min(t)], [torch.max(t)]: RuntimeError on an empty tensor. *)
Definition tmin (t : tensor) : option scalar :=
  match telems t with
  | [] => None
  | x :: l => Some (foldl smin x l)
  end.
Definition tmax (t : tensor) : option scalar :=
  match telems t with
  | [] => None
  | x :: l => Some (foldl smax x l)
  end.

(** [t.mean()]. *)
Definition tmean (t : tensor) : scalar := smean (telems t).

End Tensor.
Export Tensor.

(** ** SmoothEdgeLoss *)

Module SmoothEdgeLoss.

Definition alpha : scalar := Fin (Q2Qc (1 # 2)).
Definition beta : scalar := Fin (Q2Qc (1 # 2)).

(** [torch.where((segGt == 5) | (segGt == 7), segGt, 0)] on one entry. *)
Definition foreground (x : scalar) : scalar :=
  if seqb x (of_Z 5) || seqb x (of_Z 7) then x else Fin 0.

(** [torch.abs(t[..., :-1] - t[..., 1:])] along the width and the height. *)
Definition abs_grad_x (t : tensor) : option tensor :=
  tmap sabs <$> tzip ssub (w_init t) (w_tail t).
Definition abs_grad_y (t : tensor) : option tensor :=
  tmap sabs <$> tzip ssub (h_init t) (h_tail t).

(** [(g - torch.min(g)) / (torch.max(g) - torch.min(g))]. *)
Definition minmax (g : tensor) : option tensor :=
  mn ← tmin g;
  mx ← tmax g;
  Some (tmap (λ x, sdiv (ssub x mn) (ssub mx mn)) g).

(** [torch.mean(torch.abs(t[..., :-1] - t[..., 1:]), 1, keepdim=True)]: the
    gradient maps before normalisation. *)
Definition raw_grad_x (t : tensor) : option tensor := mean_c <$> abs_grad_x t.
Definition raw_grad_y (t : tensor) : option tensor := mean_c <$> abs_grad_y t.

(** The four normalised gradient maps of [forward]. *)
Definition grad_seg_x (segGt : tensor) : option tensor :=
  raw_grad_x (tmap foreground segGt) ≫= minmax.
Definition grad_seg_y (segGt : tensor) : option tensor :=
  raw_grad_y (tmap foreground segGt) ≫= minmax.
Definition grad_img_x (img : tensor) : option tensor :=
  raw_grad_x img ≫= minmax.
Definition grad_img_y (img : tensor) : option tensor :=
  raw_grad_y img ≫= minmax.

(** A gradient map is uniform when its maximum equals its minimum. *)
Definition uniform (g : tensor) : bool := bool_decide (tmin g = tmax g).

(** Membership of the interval [0, 1]. *)
Definition in_unit (x : scalar) : bool := sle (Fin 0) x && sle x (Fin 1).

(** A value that is a number other than zero. *)
Definition nonzero (x : scalar) : bool :=
  match x with
  | Fin q => bool_decide (q ≠ 0)
  | PInf | NInf => true
  | NaN => false
  end.

(** An entry of a constant tensor of value [c]. *)
Definition is_const (c : Qc) (x : scalar) : bool := bool_decide (x = Fin c).

(** The clamped factors [max(0, g - alpha)] and [max(0, beta - g)]. *)
Definition smooth_factor (g : scalar) : scalar := smax (Fin 0) (ssub g alpha).
Definition edge_factor (g : scalar) : scalar := smax (Fin 0) (ssub beta g).

(** [torch.max(zeros_like(g), g - alpha) * (1 - grad_img)] and
    [torch.max(zeros_like(g), beta - g) * grad_seg]. *)
Definition smooth_map (grad_depth grad_img : tensor) : option tensor :=
  f ← tzip smax (tmap (λ _, Fin 0) grad_depth) (tmap (λ g, ssub g alpha) grad_depth);
  tzip smul f (tmap (λ g, ssub (Fin 1) g) grad_img).
Definition edge_map (grad_depth grad_seg : tensor) : option tensor :=
  f ← tzip smax (tmap (λ _, Fin 0) grad_depth) (tmap (λ g, ssub beta g) grad_depth);
  tzip smul f grad_seg.

(** The maps [smoothX], [smoothY], [edgeX], [edgeY] of [forward]. *)
Record maps : Type := mkMaps {
  smoothX : tensor;
  smoothY : tensor;
  edgeX : tensor;
  edgeY : tensor
}.

Definition forward_maps (depthPred img segGt : tensor) : option maps :=
  grad_depth_x ← abs_grad_x depthPred;
  grad_depth_y ← abs_grad_y depthPred;
  gsx ← grad_seg_x segGt;
  gsy ← grad_seg_y segGt;
  gix ← grad_img_x img;
  giy ← grad_img_y img;
  sx ← smooth_map grad_depth_x gix;
  sy ← smooth_map grad_depth_y giy;
  ex ← edge_map grad_depth_x gsx;
  ey ← edge_map grad_depth_y gsy;
  Some (mkMaps sx sy ex ey).

(** [SmoothEdgeLoss.forward]; [None] is a raised RuntimeError. *)
Definition forward (depthPred img segGt : tensor) : option scalar :=
  m ← forward_maps depthPred img segGt;
  Some (sadd (sadd (sadd (tmean (smoothX m)) (tmean (smoothY m)))
                   (tmean (edgeX m)))
             (tmean (edgeY m))).

End SmoothEdgeLoss.

(** ** The save directory *)

Local Close Scope Qc_scope.

Module Files.

(** [str(n)] and [int(s)] on Python integers.  [int] reads an optional minus
    sign followed by decimal digits; every other string is a ValueError. *)
Definition str (z : Z) : string := NilZero.string_of_int (Z.to_int z).
Definition int (s : string) : option Z :=
  Z.of_int <$> NilZero.int_of_string s.

(** [s[n:]]. *)
Fixpoint drop_string (n : nat) (s : string) : string :=
  match n, s with
  | O, _ => s
  | S n', String _ s' => drop_string n' s'
  | S _, EmptyString => EmptyString
  end.

Definition checkpoint_name (epoch : Z) : string :=
  "checkpoint_model_epoch_" +:+ str epoch +:+ ".pth.tar".
Definition best_name (epoch : Z) : string :=
  "model_best_epoch_" +:+ str epoch +:+ ".pth.tar".
Definition marker_name : string := "first_run.txt".

(** File names matched by the patterns [model_best*] and
    [checkpoint_model_epoch_*]. *)
Definition is_best_file (n : string) : bool := String.prefix "model_best" n.
Definition is_checkpoint_file (n : string) : bool :=
  String.prefix "checkpoint_model_epoch_" n.

(** The dictionary handed to [torch.save] by [main]. *)
Record checkpoint (M Opt : Type) : Type := Checkpoint {
  ck_epoch : Z;
  ck_best_epoch : Z;
  ck_arch : string;
  ck_state_dict : M;
  ck_loss : scalar;
  ck_optimizer : Opt
}.
Global Arguments Checkpoint {_ _} _ _ _ _ _ _.
Global Arguments ck_epoch {_ _} _.
Global Arguments ck_best_epoch {_ _} _.
Global Arguments ck_arch {_ _} _.
Global Arguments ck_state_dict {_ _} _.
Global Arguments ck_loss {_ _} _.
Global Arguments ck_optimizer {_ _} _.

(** A file of the save directory: text (the resume marker) or a pickled
    checkpoint. *)
Inductive file (M Opt : Type) : Type :=
  | Text (s : string)
  | Pickle (c : checkpoint M Opt).
Global Arguments Text {_ _} _.
Global Arguments Pickle {_ _} _.

(** The order in which the operating system lists a directory is not fixed;
    it is only known to list each name once. *)
Class Listing : Type := {
  listdir : gset string → list string;
  listdir_perm : ∀ names, listdir names ≡ₚ elements names
}.

Section Disk.
Context {M Opt : Type} `{Listing}.

(** The directory [args.save_path]: file name to content. *)
Abbreviation disk := (gmap string (file M Opt)).

(** The directory now, and its earlier contents, most recent first. *)
Record fs : Type := Fs {
  cur : disk;
  past : list disk
}.

Definition fs_init (d : disk) : fs := Fs d [].

(** Every content the directory went through. *)
Definition history (s : fs) : list disk := cur s :: past s.

Definition fs_write (n : string) (f : file M Opt) (s : fs) : fs :=
  Fs (<[n := f]> (cur s)) (history s).

(** [os.remove] of a name known to exist. *)
Definition fs_remove (n : string) (s : fs) : fs :=
  Fs (delete n (cur s)) (history s).

(** [shutil.copyfile]; its source always exists where the code calls it. *)
Definition fs_copy (src dst : string) (s : fs) : fs :=
  match cur s !! src with
  | Some f => fs_write dst f s
  | None => s
  end.

(** [glob.glob(os.path.join(args.save_path, 'model_best*'))]. *)
Definition glob_best (d : disk) : list string :=
  filter (λ n, is_best_file n = true) (listdir (dom d)).

Definition exists_ (n : string) (d : disk) : bool :=
  bool_decide (is_Some (d !! n)).

Definition save_checkpoint (state : checkpoint M Opt) (to_copy : bool)
    (epoch : Z) (s : fs) : fs :=
  let filepath := checkpoint_name epoch in
  let s := fs_write filepath (Pickle state) s in
  let s :=
    if to_copy then
      let s :=
        if bool_decide (0 < epoch)%Z then
          match glob_best (cur s) with
          | f :: _ => fs_remove f s
          | [] => s
          end
        else s in
      fs_copy filepath (best_name epoch) s
    else s in
  if bool_decide (0 < epoch)%Z then
    let prev_checkpoint_filename := checkpoint_name (epoch - 1) in
    if exists_ prev_checkpoint_filename (cur s)
    then fs_remove prev_checkpoint_filename s
    else s
  else s.

(** Successive calls for the epochs [epoch], [epoch + 1], ... with the
    given [is_best] flags and checkpoint dictionaries. *)
Fixpoint save_all (calls : list (checkpoint M Opt * bool)) (epoch : Z)
    (s : fs) : fs :=
  match calls with
  | [] => s
  | (state, to_copy) :: rest =>
      save_all rest (epoch + 1) (save_checkpoint state to_copy epoch s)
  end.

(** The names of the directory that match a pattern. *)
Definition names_with (p : string → bool) (d : disk) : gset string :=
  filter (λ n, p n = true) (dom d).

(** At most one best file. *)
Definition one_best (d : disk) : Prop := size (names_with is_best_file d) ≤ 1.

(** The calls that pass [is_best = True]. *)
Definition best_calls (calls : list (checkpoint M Opt * bool))
    : list (checkpoint M Opt * bool) :=
  filter (λ c, c.2 = true) calls.

(** The directory after the saves of the epochs below [e], the last best one
    being [b], when no checkpoint or best file was there at the start. *)
Record inv (e : nat) (b : option nat) (s : fs) : Prop := Inv {
  inv_ck : names_with is_checkpoint_file (cur s)
           = match e with
             | 0%nat => ∅
             | S e' => {[checkpoint_name (Z.of_nat e')]}
             end;
  inv_best : names_with is_best_file (cur s)
             = match b with
               | Some k => {[best_name (Z.of_nat k)]}
               | None => ∅
               end;
  inv_hist : Forall one_best (history s);
  inv_first : e = 0%nat → b = None
}.

End Disk.

Global Arguments fs : clear implicits.

(** A listing in the order of [elements]. *)
Definition sorted_listing : Listing :=
  {| listdir := elements; listdir_perm := λ _, reflexivity _ |}.

End Files.
Export Files.

(** ** The training driver *)

Module Trainer.

(** *** Exceptions *)

Inductive exn : Type :=
  | NoGpu              (* Exception("No gpu available for usage") *)
  | RuntimeError
  | ValueError
  | IndexError
  | UnpicklingError
  | FileNotFoundError
  | NameError.

(** A computation that returns or raises. *)
Inductive result (A : Type) : Type :=
  | Raise (e : exn)
  | Return (x : A).
Global Arguments Raise {_} _.
Global Arguments Return {_} _.

Global Instance result_ret : MRet result := λ _ x, Return x.
Global Instance result_bind : MBind result := λ _ _ f m,
  match m with
  | Raise e => Raise e
  | Return x => f x
  end.

Definition of_option {A : Type} (e : exn) (o : option A) : result A :=
  match o with
  | Some x => Return x
  | None => Raise e
  end.

Definition returns {A : Type} (m : result A) : bool :=
  match m with Return _ => true | Raise _ => false end.

(** A loop whose body may raise. *)
Fixpoint foldM {A B : Type} (f : A → B → result A) (a : A) (l : list B)
    : result A :=
  match l with
  | [] => Return a
  | x :: l' => a' ← f a x; foldM f a' l'
  end.

(** *** Configuration, data and log *)

(** The parsed command line, as far as [main] and [validate] read it. *)
Record args : Type := Args {
  nepochs : Z;
  start_epoch : Z;
  evaluate : bool;
  test_mode : bool;
  pretrained : bool;
  load_external_mod : bool;
  multi : bool;
  no_cuda : bool;
  no_tb : bool;
  lr_policy : option string;
  wcoarse : scalar;
  wcls : scalar;
  wdepth : scalar;
  wseg : scalar;
  wedge : scalar;
  metric : string;
  metric_1 : string;
  mod_ : string
}.

(** What a loader yields. *)
Record batch : Type := Batch {
  input : tensor;
  lidarGt : tensor;
  segGt : tensor
}.

(** What the network returns (the fifth output is ignored). *)
Record outputs : Type := Outputs {
  coarse_depth : tensor;
  depth_cls : tensor;
  depth : tensor;
  segmap : tensor
}.

(** Printed lines of the resume and pretrained-loading phases, and the epoch
    banner.  Progress meters and timings are left out of the log. *)
Inductive line : Type :=
  | LoadingCheckpoint (resume : string)
  | LoadedCheckpoint (resume : string) (epoch : Z)
  | NoCheckpointFound (path : string)
  | LoadedPretrained
  | LoadedExternal (best : scalar)
  | StartEpoch (n : Z).

(** What happens during a run, in order. *)
Inductive event : Type :=
  | Printed (l : line)
  | SchedulerStep (score : option scalar)
  | TrainLoss (epoch : Z) (i : nat) (loss : scalar)
  | ValidLoss (epoch : Z) (i : nat) (loss : scalar).

Definition is_scheduler_step (e : event) : bool :=
  match e with SchedulerStep _ => true | _ => false end.
Definition is_train_loss (e : event) : bool :=
  match e with TrainLoss _ _ _ => true | _ => false end.
Definition is_valid_loss (e : event) : bool :=
  match e with ValidLoss _ _ _ => true | _ => false end.

(** Modelled from the spec: [AverageMeter] of Utils/utils.py, which is not
    among the sources.  [update(value, weight)] accumulates
    [sum += value * weight] and [count += weight]; [avg] is [sum / count],
    and 0 while [count] is 0. *)
Record AverageMeter : Type := Meter {
  am_val : scalar;
  am_sum : scalar;
  am_count : scalar;
  am_avg : scalar
}.
Definition new_meter : AverageMeter := Meter (Fin 0) (Fin 0) (Fin 0) (Fin 0).
Definition update (m : AverageMeter) (v n : scalar) : AverageMeter :=
  let sum := sadd (am_sum m) (smul v n) in
  let count := sadd (am_count m) n in
  Meter v sum count (if seqb count (Fin 0) then Fin 0 else sdiv sum count).

(** [args.wcoarse * loss_coarse + args.wcls * loss_cls
     + args.wdepth * loss_depth + args.wseg * loss_seg
     + args.wedge * loss_smoothedge] of the training loop. *)
Definition train_loss (a : args)
    (loss_coarse loss_cls loss_depth loss_seg loss_smoothedge : scalar)
    : scalar :=
  sadd (sadd (sadd (sadd (smul (wcoarse a) loss_coarse)
                         (smul (wcls a) loss_cls))
                   (smul (wdepth a) loss_depth))
             (smul (wseg a) loss_seg))
       (smul (wedge a) loss_smoothedge).

(** [args.wcoarse * loss_coarse + args.wcls * loss_cls
     + args.wdepth * loss_depth + args.wseg * loss_seg] of [validate]. *)
Definition valid_loss (a : args)
    (loss_coarse loss_cls loss_depth loss_seg : scalar) : scalar :=
  sadd (sadd (sadd (smul (wcoarse a) loss_coarse)
                   (smul (wcls a) loss_cls))
             (smul (wdepth a) loss_depth))
       (smul (wseg a) loss_seg).

Section Trainer.
Context {Par Opt Sch : Type} `{Listing}.

(** [model.state_dict()]: parameter name to tensor. *)
Abbreviation state_dict := (gmap string Par).
Abbreviation disk := (gmap string (file state_dict Opt)).

(** The collaborators of the driver: the network, the optimizer, the
    scheduler, the criteria, the metrics and the loaders, all deterministic
    (same data order, same seed). *)
Record world : Type := World {
  cuda_available : bool;
  (* Models.define_model, define_init_weights and the move to the GPU *)
  define_model : state_dict;
  define_optim : state_dict → Opt;
  (* define_scheduler, which may touch the optimizer it wraps *)
  define_scheduler : Opt → Sch * Opt;
  (* model(input, epoch) *)
  net : state_dict → tensor → Z → outputs;
  (* define_loss(args.loss_criterion), called with or without an epoch *)
  criterion : tensor → tensor → option Z → scalar;
  (* NLLLoss2d(log_softmax(outputs, dim=1), targets.long()) *)
  nll_log_softmax : tensor → tensor → scalar;
  (* clip_grad_norm, optimizer.zero_grad(), loss.backward(), optimizer.step() *)
  optimize : args → state_dict → Opt → batch → Z → state_dict * Opt;
  (* Metrics.calculate: the metrics by name, and the number of valid pixels *)
  calculate : tensor → tensor → (string → scalar) * scalar;
  (* scheduler.step() and scheduler.step(score): new scheduler and optimizer *)
  scheduler_step : Sch → Opt → option scalar → Sch * Opt;
  train_loader : list batch;
  valid_loader : list batch;
  (* target.copy_(source): the new target, or RuntimeError *)
  copy_ : Par → Par → option Par;
  (* torch.load('./pretrained_models/erfnet_encoder_pretrained.pth.tar') *)
  pretrained_encoder : option (list (string * Par));
  (* torch.load('external_mod.pth.tar'): its 'loss' and 'state_dict' *)
  external_mod : option (scalar * list (string * Par))
}.

(** The state carried by [main] from one epoch to the next. *)
Record run : Type := Run {
  model : state_dict;
  optimizer : Opt;
  scheduler : Sch;
  best_epoch : Z;
  lowest_loss : scalar;
  files : fs state_dict Opt;
  log : list event
}.

(** Modelled from the spec: [first_run] of Utils/utils.py, which is not among
    the sources.  It reads the resume marker, a single line holding the last
    completed epoch; without a marker nothing is to be resumed. *)
Definition first_run (d : disk) : string :=
  match d !! marker_name with
  | Some (Text s) => s
  | _ => EmptyString
  end.

(** [torch.load(path)] of a file known to exist. *)
Definition torch_load (path : string) (d : disk)
    : result (checkpoint state_dict Opt) :=
  match d !! path with
  | Some (Pickle c) => Return c
  | Some (Text _) => Raise UnpicklingError
  | None => Raise FileNotFoundError
  end.

(** *** [CrossEntropyLoss2d.forward] *)
Definition CrossEntropyLoss2d (w : world) (outputs targets : tensor) : scalar :=
  nll_log_softmax w outputs targets.

(** *** [validate] *)

Record valid_state : Type := ValidState {
  v_losses : AverageMeter;
  v_score : AverageMeter;
  v_score_1 : AverageMeter;
  v_log : list event
}.

Definition validate_batch (a : args) (w : world) (m : state_dict) (epoch : Z)
    (v : valid_state) (ib : nat * batch) : result valid_state :=
  let '(i, b) := ib in
  let out := net w m (input b) epoch in
  let loss_coarse := criterion w (coarse_depth out) (lidarGt b) (Some epoch) in
  let loss_cls := criterion w (depth_cls out) (lidarGt b) (Some epoch) in
  let loss_depth := criterion w (depth out) (lidarGt b) (Some epoch) in
  seg0 ← of_option IndexError (select_c 0 (segGt b));
  let loss_seg := CrossEntropyLoss2d w (segmap out) seg0 in
  let loss := valid_loss a loss_coarse loss_cls loss_depth loss_seg in
  let '(get_metric, num) := calculate w (c_take 1 (depth out)) (lidarGt b) in
  Return (ValidState
            (update (v_losses v) loss (of_nat (dimB (input b))))
            (update (v_score v) (get_metric (metric a)) num)
            (update (v_score_1 v) (get_metric (metric_1 a)) num)
            (v_log v ++ [ValidLoss epoch i loss])).

(** Returns [(score.avg, score_1.avg, losses.avg)] and what was logged. *)
Definition validate (a : args) (w : world) (loader : list batch)
    (m : state_dict) (epoch : Z)
    : result (scalar * scalar * scalar * list event) :=
  v ← foldM (validate_batch a w m epoch)
        (ValidState new_meter new_meter new_meter [])
        (imap (λ i b, (i, b)) loader);
  Return (am_avg (v_score v), am_avg (v_score_1 v), am_avg (v_losses v),
          v_log v).

(** *** The training loop of one epoch *)

Definition train_batch (a : args) (w : world) (epoch : Z)
    (st : state_dict * Opt * list event) (ib : nat * batch)
    : result (state_dict * Opt * list event) :=
  let '(m, o, evs) := st in
  let '(i, b) := ib in
  let out := net w m (input b) epoch in
  let loss_coarse := criterion w (coarse_depth out) (lidarGt b) None in
  let loss_cls := criterion w (depth_cls out) (lidarGt b) None in
  let loss_depth := criterion w (depth out) (lidarGt b) None in
  seg0 ← of_option IndexError (select_c 0 (segGt b));
  let loss_seg := CrossEntropyLoss2d w (segmap out) seg0 in
  loss_smoothedge ←
    of_option RuntimeError
      (SmoothEdgeLoss.forward (depth out)
         (tmap (λ x, smul x (of_Z 255)) (c_from 2 (input b))) (segGt b));
  let loss :=
    train_loss a loss_coarse loss_cls loss_depth loss_seg loss_smoothedge in
  let '(m', o') := optimize w a m o b epoch in
  Return (m', o', evs ++ [TrainLoss epoch i loss]).

(** *** [save_checkpoint] as [main] calls it *)
Definition save_state (a : args) (epoch : Z) (r : run)
    : checkpoint state_dict Opt :=
  Checkpoint (epoch + 1) (best_epoch r) (mod_ a) (model r) (lowest_loss r)
    (optimizer r).

(** *** One iteration of [for epoch in range(args.start_epoch, args.nepochs)] *)
Definition epoch_body (a : args) (w : world) (r : run) (epoch : Z)
    : result run :=
  let evs := [Printed (StartEpoch (epoch + 1))] in
  (* Adjust learning rate *)
  let '(sch, o, evs) :=
    match lr_policy a with
    | Some p =>
        if bool_decide (p ≠ "plateau") then
          let '(sch, o) := scheduler_step w (scheduler r) (optimizer r) None in
          (sch, o, evs ++ [SchedulerStep None])
        else (scheduler r, optimizer r, evs)
    | None => (scheduler r, optimizer r, evs)
    end in
  (* Train model *)
  '(m, o, evs) ← foldM (train_batch a w epoch) (model r, o, evs)
                   (imap (λ i b, (i, b)) (train_loader w));
  (* Evaluate model on validation set *)
  '(score_valid, score_valid_1, losses_valid, vevs)
    ← validate a w (valid_loader w) m epoch;
  let evs := evs ++ vevs in
  let total_score := score_valid in
  (* Adjust lr if loss plateaued *)
  let '(sch, o, evs) :=
    if bool_decide (lr_policy a = Some "plateau") then
      let '(sch, o) := scheduler_step w sch o (Some total_score) in
      (sch, o, evs ++ [SchedulerStep (Some total_score)])
    else (sch, o, evs) in
  (* File to keep latest epoch *)
  let fls := fs_write marker_name (Text (str epoch)) (files r) in
  (* Save model *)
  let to_save := slt total_score (lowest_loss r) in
  let best := if to_save then (epoch + 1)%Z else best_epoch r in
  let lowest := if to_save then total_score else lowest_loss r in
  let r' := Run m o sch best lowest fls (log r ++ evs) in
  Return (Run m o sch best lowest
            (save_checkpoint (save_state a epoch r') to_save epoch fls)
            (log r ++ evs)).

(** *** Resume training *)

(** What the resume block of [main] settles. *)
Record resumed : Type := Resumed {
  r_start_epoch : Z;
  r_lowest_loss : scalar;
  r_best_epoch : Z;
  r_model : state_dict;
  r_optimizer : Opt;
  r_log : list event;
  (* whether the checkpoint was loaded *)
  r_loaded : bool
}.

Definition resume_block (a : args) (resume : string) (d : disk)
    (m : state_dict) (o : Opt) : result resumed :=
  let best_epoch := 0%Z in
  let lowest_loss := PInf in
  if bool_decide (resume ≠ EmptyString) && negb (test_mode a) && negb (evaluate a) then
    n ← of_option ValueError (int resume);
    let path := checkpoint_name n in
    if exists_ path d then
      checkpoint ← torch_load path d;
      Return (Resumed (ck_epoch checkpoint) (ck_loss checkpoint)
                (ck_best_epoch checkpoint) (ck_state_dict checkpoint)
                (ck_optimizer checkpoint)
                [Printed (LoadingCheckpoint resume);
                 Printed (LoadedCheckpoint resume (ck_epoch checkpoint))]
                true)
    else
      Return (Resumed (start_epoch a) lowest_loss best_epoch m o
                [Printed (NoCheckpointFound path)] false)
  else
    Return (Resumed (start_epoch a) lowest_loss best_epoch m o [] false).

(** *** Load pretrained state *)

(** One iteration of the transplant loops, [key] being the name in
    [model.state_dict()] of the tensor that [target_state] holds under the
    name looked up. *)
Definition transplant_entry (w : world) (m : state_dict) (key : string)
    (val : Par) : state_dict :=
  match m !! key with
  | None => m                              (* not in target_state: continue *)
  | Some target =>
      match copy_ w target val with
      | Some target' => <[key := target']> m
      | None => m                          (* except RuntimeError: continue *)
      end
  end.

(** [for name, val in check.items(): ...]. *)
Definition transplant (w : world) (key_of : string → string)
    (m : state_dict) (check : list (string * Par)) : state_dict :=
  foldl (λ m '(name, val), transplant_entry w m (key_of name) val) m check.

(** An entry that the loop passes over: its name is absent from the target,
    or the copy raises. *)
Definition skipped (w : world) (m : state_dict) (key : string) (val : Par)
    : Prop :=
  m !! key = None ∨ ∃ target, m !! key = Some target ∧ copy_ w target val = None.

(** Names of [model.backbone.state_dict()], or of
    [model.module.backbone.state_dict()], inside [model.state_dict()]. *)
Definition backbone_view (a : args) (name : string) : string :=
  (if multi a then "module.backbone." else "backbone.") +:+ name.

(** The encoder loop looks [name[7:]] up in the backbone (the multi GPU
    prefix is excluded); the external loop looks [name] up in the model. *)
Definition encoder_key (a : args) (name : string) : string :=
  let mono_name := drop_string 7 name in
  backbone_view a mono_name.

Definition load_pretrained (a : args) (w : world) (resume : string)
    (m : state_dict) : result (state_dict * list event) :=
  if pretrained a && bool_decide (resume = EmptyString) then
    if negb (load_external_mod a) then
      check ← of_option FileNotFoundError (pretrained_encoder w);
      Return (transplant w (encoder_key a) m check, [Printed LoadedPretrained])
    else
      '(lowest_loss_load, sd) ← of_option FileNotFoundError (external_mod w);
      Return (transplant w id m sd, [Printed (LoadedExternal lowest_loss_load)])
  else Return (m, []).

(** *** [main] *)

(** The epochs of [range(start, stop)]. *)
Definition range (start stop : Z) : list Z := seqZ start (stop - start).

(** From the start of [main] to the first epoch: the state the loop starts
    in, and the epoch it starts at. *)
Definition startup (a : args) (w : world) (d : disk) : result (run * Z) :=
  if negb (no_cuda a) && negb (cuda_available w) then Raise NoGpu
  else
    let m := define_model w in
    let o := define_optim w m in
    let '(sch, o) := define_scheduler w o in
    let resume := first_run d in
    rs ← resume_block a resume d m o;
    '(m, evs) ← load_pretrained a w resume (r_model rs);
    Return (Run m (r_optimizer rs) sch (r_best_epoch rs) (r_lowest_loss rs)
              (fs_init d) (r_log rs ++ evs),
            r_start_epoch rs).

Definition main (a : args) (w : world) (d : disk) : result run :=
  '(r, start) ← startup a w d;
  r ← foldM (epoch_body a w) r (range start (nepochs a));
  if negb (no_tb a) then Raise NameError   (* writer is never defined *)
  else Return r.

(** Two states of [main] that train alike: they may differ in the scheduler,
    in the log and in the past of the directory. *)
Definition same_training (r1 r2 : run) : Prop :=
  model r1 = model r2 ∧ optimizer r1 = optimizer r2 ∧
  best_epoch r1 = best_epoch r2 ∧ lowest_loss r1 = lowest_loss r2 ∧
  cur (files r1) = cur (files r2).

(** What the scheduler does to the optimizer does not depend on what the
    scheduler remembers. *)
Definition memoryless_scheduler (w : world) : Prop :=
  ∀ s s' o x, (scheduler_step w s o x).2 = (scheduler_step w s' o x).2.

End Trainer.

Global Arguments world : clear implicits.
Global Arguments run : clear implicits.
Global Arguments resumed : clear implicits.

End Trainer.
Export Trainer.

(** ** Small concrete inputs *)

Module Toy.

Definition depth_flat : tensor := full 1 1 2 3 (of_Z 4).
Definition seg_edges : tensor :=
  of_lists [[[[of_Z 5; of_Z 5; of_Z 0]; [of_Z 0; of_Z 7; of_Z 7]]]].
Definition img_ramp : tensor :=
  of_lists [[[[of_Z 1; of_Z 2; of_Z 4]; [of_Z 1; of_Z 1; of_Z 9]]]].
Definition img_flat : tensor := full 1 3 2 3 (of_Z 4).

Definition depth_step : tensor :=
  of_lists [[[[of_Z 0; of_Z 1; of_Z 3]; [of_Z 0; of_Z 0; of_Z 0]]]].

(** The tensor of a map that is present, an empty tensor otherwise. *)
Definition the (o : option tensor) : tensor := default (full 0 0 0 0 NaN) o.
Definition the_maps (o : option SmoothEdgeLoss.maps) : SmoothEdgeLoss.maps :=
  default (SmoothEdgeLoss.mkMaps (the None) (the None) (the None) (the None)) o.

(** A five-channel input whose last three channels are an image. *)
Definition toy_input : tensor :=
  mkTensor 1 5 2 3
    (λ _ c h w, if (c <? 2)%nat then of_Z 0 else of_nat (h * h + w * w * h + w)).
Definition toy_batch : batch :=
  Batch toy_input (full 1 1 2 3 (of_Z 0)) seg_edges.

(** A network with one weight, which it returns as every output; an optimizer
    that is its learning rate and moves the weight by it; a plateau scheduler
    without patience that remembers the best score it has seen and halves the
    learning rate when a score does not improve on it. *)
Definition weight (m : gmap string scalar) : scalar := default NaN (m !! "w").
Definition toy_net (m : gmap string scalar) (x : tensor) (e : Z) : outputs :=
  let t := full 1 1 2 3 (weight m) in Outputs t t t t.
Definition toy_plateau (s : option scalar) (o : scalar) (x : option scalar)
    : option scalar * scalar :=
  match x, s with
  | None, _ => (s, o)
  | Some score, None => (Some score, o)
  | Some score, Some best =>
      if slt score best then (Some score, o)
      else (s, sdiv o (of_Z 2))
  end.
Definition toy_world : world scalar scalar (option scalar) :=
  World true {["w" := of_Z 8]} (λ _, of_Z 1) (λ o, (None, o))
    toy_net (λ p _ _, tmean p) (λ p _, tmean p)
    (λ _ m o _ _, (<["w" := ssub (weight m) o]> m, o))
    (λ _ _, (λ _, of_Z 0, of_Z 1))
    toy_plateau
    [toy_batch; toy_batch] [] (λ _ v, Some v)
    (Some [("module.w", of_Z 3); ("module.zz", of_Z 4)]) None.

(** The same world with a scheduler that remembers nothing. *)
Definition toy_world_memoryless : world scalar scalar unit :=
  World true {["w" := of_Z 8]} (λ _, of_Z 1) (λ o, (tt, o))
    toy_net (λ p _ _, tmean p) (λ p _, tmean p)
    (λ _ m o _ _, (<["w" := ssub (weight m) o]> m, o))
    (λ _ _, (λ _, of_Z 0, of_Z 1))
    (λ s o x, (s, match x with Some _ => sdiv o (of_Z 2) | None => o end))
    [toy_batch; toy_batch] [] (λ _ v, Some v)
    (Some [("module.w", of_Z 3); ("module.zz", of_Z 4)]) None.

(** The default command line, but for the epoch bounds and for the weights,
    of which only the coarse one is kept. *)
Definition toy_args (start stop : Z) : args :=
  Args stop start false false true false false true true (Some "plateau")
       (of_Z 1) (of_Z 0) (of_Z 0) (of_Z 0) (of_Z 0) "rmse" "mae" "sdn".

(** The default loss weights. *)
Definition default_weights : args :=
  Args 150 0 false false true false false true true (Some "plateau")
       (Fin (Q2Qc (7 # 100))) (Fin (Q2Qc (7 # 100))) (Fin (Q2Qc (1 # 10)))
       (of_Z 5) (of_Z 5) "rmse" "mae" "sdn".

Section Runs.
Context {Par Opt Sch : Type}.

(** The state a run ends in, and its directory, when it returns. *)
Definition run_of (dflt : run Par Opt Sch) (m : result (run Par Opt Sch))
    : run Par Opt Sch :=
  match m with Return r => r | Raise _ => dflt end.
Definition dir_of (m : result (run Par Opt Sch))
    : gmap string (file (gmap string Par) Opt) :=
  match m with Return r => cur (files r) | Raise _ => ∅ end.
Definition log_of (m : result (run Par Opt Sch)) : list event :=
  match m with Return r => log r | Raise _ => [] end.
Definition start_of (m : result (run Par Opt Sch * Z)) : option Z :=
  match m with Return (_, start) => Some start | Raise _ => None end.

End Runs.

(** The loss logged for a batch of the training loop. *)
Definition loss_of (epoch : Z) (i : nat) (evs : list event) : option scalar :=
  head (omap (λ e, match e with
                   | TrainLoss e' i' l =>
                       if bool_decide (e' = epoch ∧ i' = i) then Some l else None
                   | _ => None
                   end) evs).

(** A state to start epochs from. *)
Definition toy_start : run scalar scalar (option scalar) :=
  Run {["w" := of_Z 8]} (of_Z 1) None 0 PInf (fs_init ∅) [].
Definition toy_start_memoryless : run scalar scalar unit :=
  Run {["w" := of_Z 8]} (of_Z 1) tt 0 PInf (fs_init ∅) [].

(** A save directory whose marker names epoch 5, without any checkpoint. *)
Definition stale_dir : gmap string (file (gmap string scalar) scalar) :=
  {[marker_name := Text "5"]}.

(** Three successive saves, the second one being the best. *)
Definition three_saves : list (checkpoint unit unit * bool) :=
  [(Checkpoint 1 0 "sdn" () PInf (), false);
   (Checkpoint 2 2 "sdn" () (of_Z 3) (), true);
   (Checkpoint 3 2 "sdn" () (of_Z 3) (), false)].

Local Existing Instance sorted_listing.

(** The directory left by a run that stops after epoch 0, and the checkpoint
    it holds for that epoch. *)
Definition dir_after_epoch_0 : gmap string (file (gmap string scalar) scalar) :=
  dir_of (main (toy_args 0 1) toy_world ∅).
Definition checkpoint_0 : checkpoint (gmap string scalar) scalar :=
  match dir_after_epoch_0 !! checkpoint_name 0 with
  | Some (Pickle c) => c
  | _ => Checkpoint 0 0 EmptyString ∅ NaN NaN
  end.

(** The state after epoch 0, with each of the two schedulers. *)
Definition after_epoch_0 : run scalar scalar unit :=
  run_of toy_start_memoryless
    (epoch_body (toy_args 0 3) toy_world_memoryless toy_start_memoryless 0).
Definition plateau_epoch_0 : run scalar scalar (option scalar) :=
  run_of toy_start (epoch_body (toy_args 0 3) toy_world toy_start 0).

(** The state after the epochs 1 and 2 that follow, without interruption. *)
Definition after_epoch_2 : run scalar scalar unit :=
  run_of after_epoch_0
    (foldM (epoch_body (toy_args 0 3) toy_world_memoryless) after_epoch_0
       [1; 2]%Z).

End Toy.

(** ** What the properties of the loss are stated with *)

Module LossOps.
Import SmoothEdgeLoss.
Local Open Scope Qc_scope.

(** Two tensors of the same shape that agree inside it. *)
Definition teq (t t' : tensor) : Prop :=
  shape t = shape t' ∧
  ∀ b c h w, (b < dimB t)%nat → (c < dimC t)%nat → (h < dimH t)%nat →
             (w < dimW t)%nat → at_ t b c h w = at_ t' b c h w.

Definition oteq : option tensor → option tensor → Prop := option_Forall2 teq.

(** [t * k] and [t + c] on one entry. *)
Definition scale (k : Qc) (x : scalar) : scalar := smul x (Fin k).
Definition shift (c : Qc) (x : scalar) : scalar := sadd x (Fin c).

(** An entry outside the mask [(segGt == 5) | (segGt == 7)]. *)
Definition is_background (x : scalar) : bool :=
  negb (seqb x (of_Z 5) || seqb x (of_Z 7)).

(** [t] has a batch entry and at least one horizontal and one vertical pair
    of neighbours: its gradient maps are not empty. *)
Definition has_grads (t : tensor) : Prop :=
  (0 < dimB t ∧ 1 < dimH t ∧ 1 < dimW t)%nat.

(** The gradient maps of [t] broadcast against those of [d]: batch, then
    height and width of the horizontal maps, then of the vertical ones. *)
Definition broadcastable (d t : tensor) : Prop :=
  is_Some (bdim (dimB d) (dimB t)) ∧
  is_Some (bdim (dimH d) (dimH t)) ∧
  is_Some (bdim (pred (dimW d)) (pred (dimW t))) ∧
  is_Some (bdim (pred (dimH d)) (pred (dimH t))) ∧
  is_Some (bdim (dimW d) (dimW t)).

(** A non-negative number. *)
Definition nonneg (x : scalar) : bool := sle (Fin 0) x && is_fin x.

(** NaN or a non-negative number; NaN or a positive number. *)
Definition nan_or_nonneg (x : scalar) : Prop :=
  x = NaN ∨ ∃ q, x = Fin q ∧ 0 ≤ q.
Definition nan_or_pos (x : scalar) : Prop :=
  x = NaN ∨ ∃ q, x = Fin q ∧ 0 < q.

End LossOps.

(** ** Models/__init__.py *)

Module Models.

(** [KeyError(message)]. *)
Inductive error : Type := KeyError (msg : string).

Section Models.
(** The networks and the keyword arguments of their constructors; the three
    constructors that the package imports. *)
Context {Net Kwargs : Type}.
Variables (model semantic_depth_net mono_depth_net : Kwargs → Net).

Definition model_dict : gmap string (Kwargs → Net) :=
  <["mod" := model]> (<["sdn" := semantic_depth_net]>
    (<["monod" := mono_depth_net]> ∅)).

(** [model_dict.keys()], as far as membership goes. *)
Definition allowed_models : gset string := dom model_dict.

(** The second [KeyError] is the one of the dictionary lookup. *)
Definition define_model (mod_ : string) (kwargs : Kwargs) : error + Net :=
  if bool_decide (mod_ ∉ allowed_models) then
    inl (KeyError ("The requested model: " +:+ mod_ +:+ " is not implemented"))
  else
    match model_dict !! mod_ with
    | Some ctor => inr (ctor kwargs)
    | None => inl (KeyError mod_)
    end.

End Models.
End Models.

(** ** More small inputs *)

Module ToyMore.
Import Toy.

(** [seg_edges] with its background relabelled, and a segmentation without
    any pixel of the classes 5 and 7. *)
Definition seg_relabelled : tensor :=
  of_lists [[[[of_Z 5; of_Z 5; of_Z 3]; [of_Z 2; of_Z 7; of_Z 7]]]].
Definition seg_background : tensor :=
  of_lists [[[[of_Z 1; of_Z 2; of_Z 0]; [of_Z 0; of_Z 3; of_Z 4]]]].

(** A depth prediction with one NaN. *)
Definition depth_nan : tensor :=
  of_lists [[[[of_Z 0; of_Z 1; NaN]; [of_Z 0; of_Z 0; of_Z 0]]]].

(** A batch without foreground, and a batch whose segmentation has no
    channel. *)
Definition background_batch : batch :=
  Batch toy_input (full 1 1 2 3 (of_Z 0)) seg_background.
Definition no_channel_batch : batch :=
  Batch toy_input (full 1 1 2 3 (of_Z 0)) (full 1 0 2 3 (of_Z 0)).

(** [toy_args] in test mode, and with [--no_tb false]. *)
Definition toy_args_test (start stop : Z) : args :=
  Args stop start false true true false false true true (Some "plateau")
       (of_Z 1) (of_Z 0) (of_Z 0) (of_Z 0) (of_Z 0) "rmse" "mae" "sdn".
Definition toy_args_tb (start stop : Z) : args :=
  Args stop start false false true false false true false (Some "plateau")
       (of_Z 1) (of_Z 0) (of_Z 0) (of_Z 0) (of_Z 0) "rmse" "mae" "sdn".

(** What the training step on [background_batch] returns. *)
Definition background_step : gmap string scalar * scalar * list event :=
  match train_batch default_weights toy_world 0
          ({["w" := of_Z 8]}, of_Z 1, []) (0%nat, background_batch) with
  | Return st => st
  | Raise _ => (∅, NaN, [])
  end.

Local Existing Instance sorted_listing.

(** The state in which a run of one epoch ends, and the state before the
    second epoch of a run of two. *)
Definition after_one_epoch : run scalar scalar (option scalar) :=
  run_of toy_start (main (toy_args 0 1) toy_world ∅).
Definition started : run scalar scalar (option scalar) :=
  match startup (toy_args 0 1) toy_world ∅ with
  | Return (r, _) => r
  | Raise _ => toy_start
  end.

(** A directory with a best file left by an earlier run. *)
Definition dirty_dir : gmap string (file unit unit) :=
  {["model_best_epoch_7.pth.tar" := Pickle (Checkpoint 8 8 "sdn" () (of_Z 2) ())]}.

End ToyMore.

(** * Properties *)

(** ** Scalars *)

Module ScalarFacts.
Import SmoothEdgeLoss.
Local Open Scope Qc_scope.

Lemma Qc_eq_Qeq (a b : Qc) : a = b ↔ (this a == this b)%Q.
Proof. split; [by intros -> | apply Qc_is_canon]. Qed.

Ltac qc_lra :=
  repeat match goal with
         | H : @eq Qc _ _ |- _ => apply Qc_eq_Qeq in H
         | H : ¬ @eq Qc _ _ |- _ => rewrite Qc_eq_Qeq in H
         | |- @eq Qc _ _ => apply Qc_eq_Qeq
         | |- ¬ @eq Qc _ _ => rewrite Qc_eq_Qeq
         end;
  unfold Qclt, Qcle, Qcminus, Qcplus, Qcopp, Q2Qc in *; simpl in *;
  rewrite ?Qred_correct in *; lra.

Lemma Qc_div_unit (x m M : Qc) :
  m ≤ x → x ≤ M → m < M → 0 ≤ (x - m) / (M - m) ∧ (x - m) / (M - m) ≤ 1.
Proof.
  intros Hmx HxM HmM.
  assert (Hpos : 0 < M - m) by qc_lra.
  assert (Hinv : 0 < / (M - m)) by by apply Qcinv_pos.
  unfold Qcdiv. split.
  - apply Qcmult_nonneg_nonneg; [qc_lra | by apply Qclt_le_weak].
  - rewrite <- (Qcmult_inv_r (M - m)) by (intros Hz; qc_lra).
    apply Qcmult_le_compat_r; [qc_lra | by apply Qclt_le_weak].
Qed.

Lemma Qc_of_nat_ne_0 n : (0 < n)%nat → Qc_of_Z (Z.of_nat n) ≠ 0.
Proof.
  intros Hn Heq. apply Qc_eq_Qeq in Heq. simpl in Heq.
  unfold Qeq in Heq. simpl in Heq. lia.
Qed.

(** Sums and means of finite values are finite. *)
Lemma foldl_sadd_fin l a :
  Forall (λ x, is_fin x = true) l → ∃ s, foldl sadd (Fin a) l = Fin s.
Proof.
  intros Hl. revert a. induction Hl as [|x l Hx _ IH]; intros a; [by eexists|].
  destruct x; try done. simpl. apply IH.
Qed.

Lemma smean_fin l :
  l ≠ [] → Forall (λ x, is_fin x = true) l → is_fin (smean l) = true.
Proof.
  intros Hne Hl. unfold smean, ssum.
  destruct (foldl_sadd_fin l 0 Hl) as [s ->]. unfold of_nat, of_Z. simpl.
  rewrite decide_False; [done|]. apply Qc_of_nat_ne_0.
  destruct l; [done | simpl; lia].
Qed.

(** The running minimum and maximum of finite values. *)
Lemma foldl_smin_fin l a :
  Forall (λ x, is_fin x = true) l →
  ∃ m, foldl smin (Fin a) l = Fin m ∧ m ≤ a ∧
       (∀ q, Fin q ∈ l → m ≤ q) ∧ (m = a ∨ Fin m ∈ l).
Proof.
  intros Hl. revert a. induction Hl as [|x l Hx _ IH]; intros a.
  - exists a. split_and!; [done | apply Qcle_refl | by intros q ?%elem_of_nil | by left].
  - destruct x as [q| | |]; try done. simpl.
    destruct (IH (if decide (a ≤ q) then a else q)) as (m & -> & Hle & Hlb & Hin).
    exists m. split_and!; [done | | |].
    + case_decide; [done|]. qc_lra.
    + intros q' [Hq|Hq]%elem_of_cons; [|by apply Hlb].
      simplify_eq. case_decide; qc_lra.
    + destruct Hin as [-> | Hin]; [|right; by right].
      case_decide; [by left | right; by left].
Qed.

Lemma foldl_smax_fin l a :
  Forall (λ x, is_fin x = true) l →
  ∃ m, foldl smax (Fin a) l = Fin m ∧ a ≤ m ∧
       (∀ q, Fin q ∈ l → q ≤ m) ∧ (m = a ∨ Fin m ∈ l).
Proof.
  intros Hl. revert a. induction Hl as [|x l Hx _ IH]; intros a.
  - exists a. split_and!; [done | apply Qcle_refl | by intros q ?%elem_of_nil | by left].
  - destruct x as [q| | |]; try done. simpl.
    destruct (IH (if decide (a ≤ q) then q else a)) as (m & -> & Hle & Hlb & Hin).
    exists m. split_and!; [done | | |].
    + case_decide; [|done]. qc_lra.
    + intros q' [Hq|Hq]%elem_of_cons; [|by apply Hlb].
      simplify_eq. case_decide; qc_lra.
    + destruct Hin as [-> | Hin]; [|right; by right].
      case_decide; [right; by left | by left].
Qed.

(** With [alpha = beta], the two clamped factors are never both positive. *)
Lemma factors_exclusive g :
  slt (Fin 0) (smooth_factor g) && slt (Fin 0) (edge_factor g) = false.
Proof.
  destruct g as [q| | |]; try reflexivity.
  unfold smooth_factor, edge_factor, alpha, beta. simpl.
  apply andb_false_iff.
  destruct (decide (0 < q + - Q2Qc (1 # 2))) as [Hs|Hs].
  - right. case_decide; apply bool_decide_eq_false; intros Hp; qc_lra.
  - left. case_decide; apply bool_decide_eq_false; intros Hp; qc_lra.
Qed.

(** One of the two factors is exactly zero (or both are NaN). *)
Lemma factors_zero g :
  smooth_factor g = Fin 0 ∨ edge_factor g = Fin 0 ∨ g = NaN.
Proof.
  destruct g as [q| | |]; [|right; by left|by left|by right; right].
  unfold smooth_factor, edge_factor, alpha, beta. simpl.
  destruct (decide (0 ≤ q + - Q2Qc (1 # 2))) as [Hs|Hs].
  - right; left. f_equal. case_decide; [|done]. qc_lra.
  - left. done.
Qed.

End ScalarFacts.

(** ** Tensors *)

Module TensorFacts.
Local Open Scope Qc_scope.

Lemma elem_of_indices B C H W b c h w :
  (b, c, h, w) ∈ indices B C H W ↔ (b < B ∧ c < C ∧ h < H ∧ w < W)%nat.
Proof.
  unfold indices. split.
  - intros Hin.
    apply list_elem_of_bind in Hin as (b' & Hin & Hb%elem_of_seq).
    apply list_elem_of_bind in Hin as (c' & Hin & Hc%elem_of_seq).
    apply list_elem_of_bind in Hin as (h' & Hin & Hh%elem_of_seq).
    apply list_elem_of_bind in Hin as (w' & Hin & Hw%elem_of_seq).
    apply list_elem_of_singleton in Hin. simplify_eq. lia.
  - intros (Hb & Hc & Hh & Hw).
    apply list_elem_of_bind. exists b. split; [|apply elem_of_seq; lia].
    apply list_elem_of_bind. exists c. split; [|apply elem_of_seq; lia].
    apply list_elem_of_bind. exists h. split; [|apply elem_of_seq; lia].
    apply list_elem_of_bind. exists w. split; [|apply elem_of_seq; lia].
    apply list_elem_of_singleton. done.
Qed.

Lemma elem_of_telems t x :
  x ∈ telems t ↔
  ∃ b c h w, (b < dimB t ∧ c < dimC t ∧ h < dimH t ∧ w < dimW t)%nat
             ∧ x = at_ t b c h w.
Proof.
  unfold telems, tindices. rewrite list_elem_of_fmap. split.
  - intros ([[[b c] h] w] & -> & Hin%elem_of_indices). by exists b, c, h, w.
  - intros (b & c & h & w & Hr & ->). exists (b, c, h, w).
    split; [done|]. by apply elem_of_indices.
Qed.

Lemma tall_spec p t :
  tall p t = true ↔
  ∀ b c h w, (b < dimB t)%nat → (c < dimC t)%nat → (h < dimH t)%nat →
             (w < dimW t)%nat → p (at_ t b c h w) = true.
Proof.
  unfold tall. rewrite forallb_forall. split.
  - intros Hall b c h w Hb Hc Hh Hw. apply Hall, list_elem_of_In, elem_of_telems.
    by exists b, c, h, w.
  - intros Hall x Hin. apply list_elem_of_In, elem_of_telems in Hin.
    destruct Hin as (b & c & h & w & (Hb & Hc & Hh & Hw) & ->). by apply Hall.
Qed.

Lemma length_indices B C H W : length (indices B C H W) = (B * C * H * W)%nat.
Proof.
  unfold indices.
  assert (Hbind : ∀ (A : Type) (f : nat → list A) n k s,
             (∀ i, length (f i) = k) → length (seq s n ≫= f) = (n * k)%nat).
  { intros A f n k s Hf. revert s. induction n as [|n IH]; intros s; [done|].
    simpl. rewrite length_app, Hf, IH. done. }
  rewrite (Hbind _ _ B (C * H * W)%nat); [lia|]. intros b.
  rewrite (Hbind _ _ C (H * W)%nat); [lia|]. intros c.
  rewrite (Hbind _ _ H W); [lia|]. intros h.
  rewrite (Hbind _ _ W 1%nat); [lia|]. done.
Qed.

Lemma length_telems t : length (telems t) = numel t.
Proof. unfold telems, tindices, numel. by rewrite length_fmap, length_indices. Qed.

(** Broadcasting. *)
Lemma bdim_idx n m r i :
  bdim n m = Some r → (i < r)%nat → (bidx n r i < n ∧ bidx m r i < m)%nat.
Proof.
  unfold bdim, bidx. intros Hb Hi.
  repeat case_decide; simplify_eq; lia.
Qed.

Lemma bdim_pos n m r : bdim n m = Some r → (0 < n → 0 < m → 0 < r)%nat.
Proof. unfold bdim. intros Hb. repeat case_decide; simplify_eq; lia. Qed.

Lemma bdim_same n : bdim n n = Some n.
Proof. unfold bdim. by rewrite decide_True. Qed.

Lemma tzip_Some f x y t :
  tzip f x y = Some t →
  bdim (dimB x) (dimB y) = Some (dimB t) ∧
  bdim (dimC x) (dimC y) = Some (dimC t) ∧
  bdim (dimH x) (dimH y) = Some (dimH t) ∧
  bdim (dimW x) (dimW y) = Some (dimW t) ∧
  ∀ b c h w,
    at_ t b c h w =
    f (at_ x (bidx (dimB x) (dimB t) b) (bidx (dimC x) (dimC t) c)
              (bidx (dimH x) (dimH t) h) (bidx (dimW x) (dimW t) w))
      (at_ y (bidx (dimB y) (dimB t) b) (bidx (dimC y) (dimC t) c)
              (bidx (dimH y) (dimH t) h) (bidx (dimW y) (dimW t) w)).
Proof.
  unfold tzip. intros Hz.
  destruct (bdim (dimB x) (dimB y)) as [B|]; [|done].
  destruct (bdim (dimC x) (dimC y)) as [C|]; [|done].
  destruct (bdim (dimH x) (dimH y)) as [H|]; [|done].
  destruct (bdim (dimW x) (dimW y)) as [W|]; [|done].
  simpl in Hz. injection Hz as <-. done.
Qed.

Lemma bidx_same n i : bidx n n i = i.
Proof. unfold bidx. by rewrite decide_True. Qed.

End TensorFacts.

(** ** SmoothEdgeLoss *)

Module LossFacts.
Import SmoothEdgeLoss TensorFacts ScalarFacts.
Local Open Scope Qc_scope.

Lemma abs_grad_x_spec t :
  ∃ g, abs_grad_x t = Some g ∧
       dimB g = dimB t ∧ dimC g = dimC t ∧ dimH g = dimH t ∧
       dimW g = pred (dimW t) ∧
       ∀ b c h w, at_ g b c h w = sabs (ssub (at_ t b c h w) (at_ t b c h (S w))).
Proof.
  unfold abs_grad_x, tzip. simpl. rewrite !bdim_same. simpl.
  eexists. split; [done|]. simpl. split_and!; try done.
  intros b c h w. by rewrite !bidx_same.
Qed.

Lemma abs_grad_y_spec t :
  ∃ g, abs_grad_y t = Some g ∧
       dimB g = dimB t ∧ dimC g = dimC t ∧ dimH g = pred (dimH t) ∧
       dimW g = dimW t ∧
       ∀ b c h w, at_ g b c h w = sabs (ssub (at_ t b c h w) (at_ t b c (S h) w)).
Proof.
  unfold abs_grad_y, tzip. simpl. rewrite !bdim_same. simpl.
  eexists. split; [done|]. simpl. split_and!; try done.
  intros b c h w. by rewrite !bidx_same.
Qed.

Lemma sabs_ssub_fin x y :
  is_fin x = true → is_fin y = true → is_fin (sabs (ssub x y)) = true.
Proof. by destruct x, y. Qed.

Lemma mean_c_fin t :
  (0 < dimC t)%nat → tall is_fin t = true → tall is_fin (mean_c t) = true.
Proof.
  intros HC Ht. rewrite tall_spec in Ht. apply tall_spec.
  intros b c h w Hb Hc Hh Hw. simpl in *.
  apply smean_fin.
  - destruct (dimC t); [lia | done].
  - apply Forall_fmap, Forall_forall. intros c' Hc'%elem_of_seq. simpl.
    apply Ht; lia.
Qed.

(** The raw gradient maps of a finite tensor are finite. *)
Lemma raw_grad_x_fin t g :
  (0 < dimC t)%nat → tall is_fin t = true → raw_grad_x t = Some g →
  tall is_fin g = true.
Proof.
  intros HC Ht. unfold raw_grad_x.
  destruct (abs_grad_x_spec t) as (a & -> & HB & HC' & HH & HW & Hat).
  simpl. intros [= <-]. apply mean_c_fin; [lia|].
  rewrite tall_spec in Ht. apply tall_spec. intros b c h w Hb Hc Hh Hw.
  rewrite Hat. apply sabs_ssub_fin; apply Ht; lia.
Qed.

Lemma raw_grad_y_fin t g :
  (0 < dimC t)%nat → tall is_fin t = true → raw_grad_y t = Some g →
  tall is_fin g = true.
Proof.
  intros HC Ht. unfold raw_grad_y.
  destruct (abs_grad_y_spec t) as (a & -> & HB & HC' & HH & HW & Hat).
  simpl. intros [= <-]. apply mean_c_fin; [lia|].
  rewrite tall_spec in Ht. apply tall_spec. intros b c h w Hb Hc Hh Hw.
  rewrite Hat. apply sabs_ssub_fin; apply Ht; lia.
Qed.

Lemma foreground_fin s : tall is_fin (tmap foreground s) = true.
Proof.
  apply tall_spec. intros b c h w _ _ _ _. simpl. unfold foreground.
  destruct (at_ s b c h w) as [q| | |]; simpl; try done.
  by destruct (_ || _).
Qed.

(** Minimum and maximum of a finite, non-empty map. *)
Lemma tmin_tmax_fin g :
  tall is_fin g = true → telems g ≠ [] →
  ∃ m M, tmin g = Some (Fin m) ∧ tmax g = Some (Fin M) ∧
         Fin m ∈ telems g ∧ Fin M ∈ telems g ∧
         ∀ q, Fin q ∈ telems g → m ≤ q ∧ q ≤ M.
Proof.
  unfold tall, tmin, tmax. intros Hall Hne.
  destruct (telems g) as [|x l]; [done|]. simpl in Hall.
  apply andb_true_iff in Hall as [Hx Hl].
  destruct x as [a| | |]; try done.
  assert (Hl' : Forall (λ x, is_fin x = true) l).
  { apply Forall_forall. intros y Hy. rewrite forallb_forall in Hl.
    by apply Hl, list_elem_of_In. }
  destruct (foldl_smin_fin l a Hl') as (m & -> & Hma & Hmlb & Hmin).
  destruct (foldl_smax_fin l a Hl') as (M & -> & HMa & HMub & HMin).
  exists m, M. split_and!; try done.
  - destruct Hmin as [-> | ?]; [by left | by right].
  - destruct HMin as [-> | ?]; [by left | by right].
  - intros q [Hq|Hq]%elem_of_cons; [by simplify_eq | split; auto].
Qed.

(** What min-max normalisation does to a finite map: no guard protects the
    division, so a uniform map becomes all NaN; otherwise the result lies in
    the unit interval (and is finite). *)
Lemma minmax_fin g n :
  tall is_fin g = true → minmax g = Some n →
  if uniform g then tall is_nan n = true
  else tall in_unit n = true ∧ tall is_fin n = true.
Proof.
  intros Hfin Hn. unfold minmax in Hn.
  assert (Hne : telems g ≠ []).
  { intros Hnil. unfold tmin in Hn. by rewrite Hnil in Hn. }
  destruct (tmin_tmax_fin g Hfin Hne) as (m & M & Hm & HM & Hmin & HMin & Hb).
  rewrite Hm, HM in Hn. simpl in Hn. injection Hn as <-.
  unfold uniform. rewrite Hm, HM.
  assert (Hent : ∀ b c h w, (b < dimB g)%nat → (c < dimC g)%nat →
            (h < dimH g)%nat → (w < dimW g)%nat →
            ∃ q, at_ g b c h w = Fin q ∧ m ≤ q ∧ q ≤ M).
  { intros b c h w ? ? ? ?. rewrite tall_spec in Hfin.
    specialize (Hfin b c h w). destruct (at_ g b c h w) as [q| | |] eqn:Hq;
      try (by discriminate Hfin).
    exists q. split; [done|]. apply Hb. rewrite <- Hq. apply elem_of_telems.
    by exists b, c, h, w. }
  case_bool_decide as HmM.
  - injection HmM as ->. apply tall_spec. intros b c h w Hb' Hc Hh Hw. simpl.
    destruct (Hent b c h w) as (q & -> & Hq1 & Hq2); [done..|]. simpl.
    rewrite !decide_True; [done| |]; qc_lra.
  - assert (HmltM : m < M).
    { destruct (Hb m Hmin) as [_ HmM']. apply Qcle_lt_or_eq in HmM' as [? | ->]; done. }
    split; apply tall_spec; intros b c h w Hb' Hc Hh Hw; simpl;
      destruct (Hent b c h w) as (q & -> & Hq1 & Hq2); try done; simpl;
      (rewrite decide_False by (intros ?; qc_lra)); [|done].
    destruct (Qc_div_unit q m M Hq1 Hq2 HmltM) as [H0 H1].
    unfold in_unit. simpl. apply andb_true_iff.
    split; apply bool_decide_eq_true; done.
Qed.


Lemma smooth_map_spec gd gi s :
  smooth_map gd gi = Some s →
  bdim (dimB gd) (dimB gi) = Some (dimB s) ∧
  bdim (dimC gd) (dimC gi) = Some (dimC s) ∧
  bdim (dimH gd) (dimH gi) = Some (dimH s) ∧
  bdim (dimW gd) (dimW gi) = Some (dimW s) ∧
  ∀ b c h w,
    at_ s b c h w =
    smul (smooth_factor
            (at_ gd (bidx (dimB gd) (dimB s) b) (bidx (dimC gd) (dimC s) c)
                    (bidx (dimH gd) (dimH s) h) (bidx (dimW gd) (dimW s) w)))
         (ssub (Fin 1)
            (at_ gi (bidx (dimB gi) (dimB s) b) (bidx (dimC gi) (dimC s) c)
                    (bidx (dimH gi) (dimH s) h) (bidx (dimW gi) (dimW s) w))).
Proof.
  unfold smooth_map. intros Hs.
  destruct (tzip smax _ _) as [f|] eqn:Hf; [|done]. simpl in Hs.
  apply tzip_Some in Hf as (HB & HC & HH & HW & Hfat).
  apply tzip_Some in Hs as (HB' & HC' & HH' & HW' & Hsat).
  simpl in *. rewrite bdim_same in HB, HC, HH, HW. simplify_eq.
  rewrite <- HB, <- HC, <- HH, <- HW in *.
  split_and!; try done. intros b c h w. rewrite Hsat, Hfat.
  simpl. by rewrite !bidx_same.
Qed.

Lemma edge_map_spec gd gs s :
  edge_map gd gs = Some s →
  bdim (dimB gd) (dimB gs) = Some (dimB s) ∧
  bdim (dimC gd) (dimC gs) = Some (dimC s) ∧
  bdim (dimH gd) (dimH gs) = Some (dimH s) ∧
  bdim (dimW gd) (dimW gs) = Some (dimW s) ∧
  ∀ b c h w,
    at_ s b c h w =
    smul (edge_factor
            (at_ gd (bidx (dimB gd) (dimB s) b) (bidx (dimC gd) (dimC s) c)
                    (bidx (dimH gd) (dimH s) h) (bidx (dimW gd) (dimW s) w)))
         (at_ gs (bidx (dimB gs) (dimB s) b) (bidx (dimC gs) (dimC s) c)
                 (bidx (dimH gs) (dimH s) h) (bidx (dimW gs) (dimW s) w)).
Proof.
  unfold edge_map. intros Hs.
  destruct (tzip smax _ _) as [f|] eqn:Hf; [|done]. simpl in Hs.
  apply tzip_Some in Hf as (HB & HC & HH & HW & Hfat).
  apply tzip_Some in Hs as (HB' & HC' & HH' & HW' & Hsat).
  simpl in *. rewrite bdim_same in HB, HC, HH, HW. simplify_eq.
  rewrite <- HB, <- HC, <- HH, <- HW in *.
  split_and!; try done. intros b c h w. rewrite Hsat, Hfat.
  simpl. by rewrite !bidx_same.
Qed.

Lemma bidx_agree n m1 m2 r1 r2 i :
  bdim n m1 = Some r1 → bdim n m2 = Some r2 → (i < r1)%nat → (i < r2)%nat →
  bidx n r1 i = bidx n r2 i.
Proof.
  unfold bdim, bidx. intros H1 H2 Hi1 Hi2.
  repeat case_decide; simplify_eq; lia.
Qed.

Lemma penalties_exclusive g mi ms :
  nonzero (smul (smooth_factor g) mi) && nonzero (smul (edge_factor g) ms) = false.
Proof.
  apply andb_false_iff.
  destruct (factors_zero g) as [-> | [-> | ->]].
  - left. by destruct mi.
  - right. by destruct ms.
  - left. done.
Qed.

Lemma forward_maps_inv d img seg m :
  forward_maps d img seg = Some m →
  ∃ gdx gdy gsx gsy gix giy,
    abs_grad_x d = Some gdx ∧ abs_grad_y d = Some gdy ∧
    grad_seg_x seg = Some gsx ∧ grad_seg_y seg = Some gsy ∧
    grad_img_x img = Some gix ∧ grad_img_y img = Some giy ∧
    smooth_map gdx gix = Some (smoothX m) ∧
    smooth_map gdy giy = Some (smoothY m) ∧
    edge_map gdx gsx = Some (edgeX m) ∧
    edge_map gdy gsy = Some (edgeY m).
Proof.
  unfold forward_maps. intros H.
  destruct (abs_grad_x d) as [gdx|]; [|done].
  destruct (abs_grad_y d) as [gdy|]; [|done].
  destruct (grad_seg_x seg) as [gsx|]; [|done].
  destruct (grad_seg_y seg) as [gsy|]; [|done].
  destruct (grad_img_x img) as [gix|]; [|done].
  destruct (grad_img_y img) as [giy|]; [|done]. simpl in H.
  destruct (smooth_map gdx gix) as [sx|] eqn:Hsx; [|done].
  destruct (smooth_map gdy giy) as [sy|] eqn:Hsy; [|done].
  destruct (edge_map gdx gsx) as [ex|] eqn:Hex; [|done].
  destruct (edge_map gdy gsy) as [ey|] eqn:Hey; [|done]. simpl in H.
  injection H as <-. simpl. exists gdx, gdy, gsx, gsy, gix, giy.
  by split_and!.
Qed.

Lemma maps_exclusive gd gi gs s e b c h w :
  smooth_map gd gi = Some s → edge_map gd gs = Some e →
  (b < dimB s)%nat → (c < dimC s)%nat → (h < dimH s)%nat → (w < dimW s)%nat →
  (b < dimB e)%nat → (c < dimC e)%nat → (h < dimH e)%nat → (w < dimW e)%nat →
  nonzero (at_ s b c h w) && nonzero (at_ e b c h w) = false.
Proof.
  intros (HB & HC & HH & HW & Hs)%smooth_map_spec
         (HB' & HC' & HH' & HW' & He)%edge_map_spec ? ? ? ? ? ? ? ?.
  rewrite Hs, He.
  rewrite (bidx_agree _ _ _ _ _ b HB HB'), (bidx_agree _ _ _ _ _ c HC HC'),
    (bidx_agree _ _ _ _ _ h HH HH'), (bidx_agree _ _ _ _ _ w HW HW') by done.
  apply penalties_exclusive.
Qed.

(** C10.  Smoothness and edge penalties exclude each other: as
    [alpha = beta], the factors [max(0, g - alpha)] and [max(0, beta - g)]
    are never both positive, whatever the depth gradient [g]; so at every
    pixel of the maps of [forward], horizontal and vertical, the smoothness
    penalty and the edge penalty are never both a number other than
    zero. *)
Theorem smooth_edge_exclusive :
  (∀ g, slt (Fin 0) (smooth_factor g) && slt (Fin 0) (edge_factor g) = false) ∧
  ∀ depthPred img segGt m,
    forward_maps depthPred img segGt = Some m →
    (∀ b c h w,
       (b < dimB (smoothX m))%nat → (c < dimC (smoothX m))%nat →
       (h < dimH (smoothX m))%nat → (w < dimW (smoothX m))%nat →
       (b < dimB (edgeX m))%nat → (c < dimC (edgeX m))%nat →
       (h < dimH (edgeX m))%nat → (w < dimW (edgeX m))%nat →
       nonzero (at_ (smoothX m) b c h w) && nonzero (at_ (edgeX m) b c h w)
       = false) ∧
    (∀ b c h w,
       (b < dimB (smoothY m))%nat → (c < dimC (smoothY m))%nat →
       (h < dimH (smoothY m))%nat → (w < dimW (smoothY m))%nat →
       (b < dimB (edgeY m))%nat → (c < dimC (edgeY m))%nat →
       (h < dimH (edgeY m))%nat → (w < dimW (edgeY m))%nat →
       nonzero (at_ (smoothY m) b c h w) && nonzero (at_ (edgeY m) b c h w)
       = false).
Proof.
  split; [apply factors_exclusive|].
  intros d img seg m Hm.
  apply forward_maps_inv in Hm
    as (gdx & gdy & gsx & gsy & gix & giy & _ & _ & _ & _ & _ & _ &
        Hsx & Hsy & Hex & Hey).
  split; intros b c h w ? ? ? ? ? ? ? ?.
  - by apply (maps_exclusive gdx gix gsx).
  - by apply (maps_exclusive gdy giy gsy).
Qed.


(** C8, amended.  Min-max normalisation: for a finite image and a
    segmentation with at least one channel each, each of the four gradient
    maps normalised in [forward] has all its entries in the interval [0, 1]
    when the map is not uniform; no guard protects the division by
    [max - min]: when the map is uniform the division is 0 / 0 and every
    entry of the normalised map is NaN. *)
Theorem minmax_unguarded img segGt raw n :
  tall is_fin img = true → (0 < dimC img)%nat → (0 < dimC segGt)%nat →
  raw_grad_x (tmap foreground segGt) = Some raw ∨
  raw_grad_y (tmap foreground segGt) = Some raw ∨
  raw_grad_x img = Some raw ∨
  raw_grad_y img = Some raw →
  minmax raw = Some n →
  if uniform raw then tall is_nan n = true else tall in_unit n = true.
Proof.
  intros Himg HCi HCs Hraw Hn.
  assert (Hfin : tall is_fin raw = true).
  { destruct Hraw as [H | [H | [H | H]]].
    - by apply (raw_grad_x_fin (tmap foreground segGt)); [| apply foreground_fin |].
    - by apply (raw_grad_y_fin (tmap foreground segGt)); [| apply foreground_fin |].
    - by apply (raw_grad_x_fin img).
    - by apply (raw_grad_y_fin img). }
  pose proof (minmax_fin raw n Hfin Hn) as H.
  destruct (uniform raw); [done | by destruct H].
Qed.

Lemma telems_nonempty t : telems t ≠ [] ↔ (0 < numel t)%nat.
Proof.
  rewrite <- length_telems. destruct (telems t); simpl; split; try done; lia.
Qed.

Lemma numel_pos t :
  (0 < numel t)%nat ↔
  (0 < dimB t ∧ 0 < dimC t ∧ 0 < dimH t ∧ 0 < dimW t)%nat.
Proof. unfold numel. nia. Qed.

Lemma minmax_dims g n :
  minmax g = Some n →
  dimB n = dimB g ∧ dimC n = dimC g ∧ dimH n = dimH g ∧ dimW n = dimW g ∧
  (0 < numel g)%nat.
Proof.
  unfold minmax. intros H.
  destruct (tmin g) as [mn|] eqn:Hmn; [|done].
  destruct (tmax g) as [mx|]; [|done]. simpl in H. injection H as <-.
  split_and!; try done. apply telems_nonempty. intros Hnil.
  unfold tmin in Hmn. by rewrite Hnil in Hmn.
Qed.

Lemma ssum_zeros l : Forall (λ x, x = Fin 0) l → ssum l = Fin 0.
Proof.
  unfold ssum. induction 1 as [|x l -> _ IH]; [done|]. simpl.
  by rewrite Qcplus_0_l.
Qed.

Lemma tmean_zero t :
  (0 < numel t)%nat →
  (∀ b c h w, (b < dimB t)%nat → (c < dimC t)%nat → (h < dimH t)%nat →
              (w < dimW t)%nat → at_ t b c h w = Fin 0) →
  tmean t = Fin 0.
Proof.
  intros Hn Hz. unfold tmean, smean. rewrite ssum_zeros.
  - rewrite length_telems. unfold of_nat, of_Z. simpl.
    rewrite decide_False by by apply Qc_of_nat_ne_0.
    f_equal. unfold Qcdiv. apply Qcmult_0_l.
  - apply Forall_forall. intros x (b & c & h & w & (? & ? & ? & ?) & ->)%elem_of_telems.
    by apply Hz.
Qed.

Lemma sabs_self c : sabs (ssub (Fin c) (Fin c)) = Fin 0.
Proof. simpl. rewrite Qcplus_opp_r. by rewrite decide_True. Qed.

Lemma smooth_factor_0 : smooth_factor (Fin 0) = Fin 0.
Proof. reflexivity. Qed.

Lemma edge_factor_0 : edge_factor (Fin 0) = beta.
Proof. unfold edge_factor, beta. simpl. f_equal. Qed.

Lemma sadd_0_l x : sadd (Fin 0) x = x.
Proof. destruct x; simpl; try done. by rewrite Qcplus_0_l. Qed.

(** C4, amended.  Edge-aware loss on a constant depth: when every entry of
    the depth prediction is the same finite value, the two smoothness terms
    are 0 for every image whose normalised gradient maps are finite, but the
    edge terms are not: every entry of the two edge maps is [beta] = 0.5
    times an entry of the normalised segmentation gradient, and the loss
    returned is the sum of the means of the two edge maps. *)
Theorem constant_depth_loss depthPred img segGt c m gix giy gsx gsy :
  tall (is_const c) depthPred = true →
  (0 < dimB depthPred)%nat → (0 < dimC depthPred)%nat →
  (1 < dimH depthPred)%nat → (1 < dimW depthPred)%nat →
  forward_maps depthPred img segGt = Some m →
  grad_img_x img = Some gix → grad_img_y img = Some giy →
  grad_seg_x segGt = Some gsx → grad_seg_y segGt = Some gsy →
  tall is_fin gix = true → tall is_fin giy = true →
  tmean (smoothX m) = Fin 0 ∧ tmean (smoothY m) = Fin 0 ∧
  Forall (λ e, ∃ s, s ∈ telems gsx ∧ e = smul beta s) (telems (edgeX m)) ∧
  Forall (λ e, ∃ s, s ∈ telems gsy ∧ e = smul beta s) (telems (edgeY m)) ∧
  forward depthPred img segGt
  = Some (sadd (tmean (edgeX m)) (tmean (edgeY m))).
Proof.
  intros Hconst HB HC HH HW Hm Hgix Hgiy Hgsx Hgsy Hfx Hfy.
  pose proof Hm as Hinv. apply forward_maps_inv in Hinv
    as (gdx & gdy & gsx' & gsy' & gix' & giy' & Hgdx & Hgdy & Hgsx' & Hgsy' &
        Hgix' & Hgiy' & Hsx & Hsy & Hex & Hey).
  simplify_eq.
  rewrite tall_spec in Hconst.
  assert (Hd : ∀ b c0 h w, (b < dimB depthPred)%nat → (c0 < dimC depthPred)%nat →
            (h < dimH depthPred)%nat → (w < dimW depthPred)%nat →
            at_ depthPred b c0 h w = Fin c).
  { intros b c0 h w ? ? ? ?.
    by eapply bool_decide_eq_true_1, Hconst. }
  destruct (abs_grad_x_spec depthPred)
    as (gdx0 & Hgdx0 & HxB & HxC & HxH & HxW & Hxat).
  destruct (abs_grad_y_spec depthPred)
    as (gdy0 & Hgdy0 & HyB & HyC & HyH & HyW & Hyat).
  simplify_eq.
  assert (Hgx : ∀ b c0 h w, (b < dimB gdx)%nat → (c0 < dimC gdx)%nat →
            (h < dimH gdx)%nat → (w < dimW gdx)%nat → at_ gdx b c0 h w = Fin 0).
  { intros b c0 h w ? ? ? ?. rewrite Hxat, !Hd by lia. apply sabs_self. }
  assert (Hgy : ∀ b c0 h w, (b < dimB gdy)%nat → (c0 < dimC gdy)%nat →
            (h < dimH gdy)%nat → (w < dimW gdy)%nat → at_ gdy b c0 h w = Fin 0).
  { intros b c0 h w ? ? ? ?. rewrite Hyat, !Hd by lia. apply sabs_self. }
  unfold grad_img_x, grad_img_y, grad_seg_x, grad_seg_y in *.
  destruct (raw_grad_x img) as [rix|]; [|done].
  destruct (raw_grad_y img) as [riy|]; [|done].
  destruct (raw_grad_x (tmap foreground segGt)) as [rsx|]; [|done].
  destruct (raw_grad_y (tmap foreground segGt)) as [rsy|]; [|done].
  simpl in *.
  apply minmax_dims in Hgix as (HixB & HixC & HixH & HixW & Hixn%numel_pos).
  apply minmax_dims in Hgiy as (HiyB & HiyC & HiyH & HiyW & Hiyn%numel_pos).
  apply smooth_map_spec in Hsx as (HsxB & HsxC & HsxH & HsxW & Hsxat).
  apply smooth_map_spec in Hsy as (HsyB & HsyC & HsyH & HsyW & Hsyat).
  apply edge_map_spec in Hex as (HexB & HexC & HexH & HexW & Hexat).
  apply edge_map_spec in Hey as (HeyB & HeyC & HeyH & HeyW & Heyat).
  rewrite tall_spec in Hfx, Hfy.
  assert (Hmx : tmean (smoothX m) = Fin 0).
  { apply tmean_zero.
    - apply numel_pos. split_and!; eapply bdim_pos; (done || lia).
    - intros b c0 h w Hb Hc' Hh Hw. rewrite Hsxat.
      destruct (bdim_idx _ _ _ b HsxB Hb), (bdim_idx _ _ _ c0 HsxC Hc'),
        (bdim_idx _ _ _ h HsxH Hh), (bdim_idx _ _ _ w HsxW Hw).
      rewrite Hgx by done. rewrite smooth_factor_0.
      specialize (Hfx _ _ _ _ ltac:(done) ltac:(done) ltac:(done) ltac:(done)).
      destruct (at_ gix _ _ _ _); try done. simpl. by rewrite Qcmult_0_l. }
  assert (Hmy : tmean (smoothY m) = Fin 0).
  { apply tmean_zero.
    - apply numel_pos. split_and!; eapply bdim_pos; (done || lia).
    - intros b c0 h w Hb Hc' Hh Hw. rewrite Hsyat.
      destruct (bdim_idx _ _ _ b HsyB Hb), (bdim_idx _ _ _ c0 HsyC Hc'),
        (bdim_idx _ _ _ h HsyH Hh), (bdim_idx _ _ _ w HsyW Hw).
      rewrite Hgy by done. rewrite smooth_factor_0.
      specialize (Hfy _ _ _ _ ltac:(done) ltac:(done) ltac:(done) ltac:(done)).
      destruct (at_ giy _ _ _ _); try done. simpl. by rewrite Qcmult_0_l. }
  split_and!; try done.
  - apply Forall_forall.
    intros e (b & c0 & h & w & (Hb & Hc' & Hh & Hw) & ->)%elem_of_telems.
    rewrite Hexat.
    destruct (bdim_idx _ _ _ b HexB Hb), (bdim_idx _ _ _ c0 HexC Hc'),
      (bdim_idx _ _ _ h HexH Hh), (bdim_idx _ _ _ w HexW Hw).
    rewrite Hgx by done. rewrite edge_factor_0.
    eexists. split; [|done]. apply elem_of_telems. by repeat eexists.
  - apply Forall_forall.
    intros e (b & c0 & h & w & (Hb & Hc' & Hh & Hw) & ->)%elem_of_telems.
    rewrite Heyat.
    destruct (bdim_idx _ _ _ b HeyB Hb), (bdim_idx _ _ _ c0 HeyC Hc'),
      (bdim_idx _ _ _ h HeyH Hh), (bdim_idx _ _ _ w HeyW Hw).
    rewrite Hgy by done. rewrite edge_factor_0.
    eexists. split; [|done]. apply elem_of_telems. by repeat eexists.
  - unfold forward. rewrite Hm. simpl. by rewrite Hmx, Hmy, !sadd_0_l.
Qed.

End LossFacts.

(** ** The save directory *)

Module FilesFacts.

Lemma int_str z : int (str z) = Some z.
Proof.
  unfold int, str. rewrite NilZero.isi.
  - simpl. f_equal. apply DecimalZ.of_to.
  - destruct z; simpl; try done.
    intros [= Hp]. by apply DecimalPos.Unsigned.to_uint_nonnil in Hp.
  - destruct z; simpl; try done.
    intros [= Hp]. by apply DecimalPos.Unsigned.to_uint_nonnil in Hp.
Qed.

Global Instance str_inj : Inj (=) (=) str.
Proof.
  intros x y Hxy. apply (f_equal int) in Hxy. rewrite !int_str in Hxy.
  by injection Hxy.
Qed.

Lemma length_append (s t : string) :
  String.length (s +:+ t) = (String.length s + String.length t)%nat.
Proof. induction s as [|a s IH]; simpl; [done | by rewrite IH]. Qed.

Lemma append_inj_r (s1 s2 t : string) : s1 +:+ t = s2 +:+ t → s1 = s2.
Proof.
  revert s2. induction s1 as [|a s1 IH]; intros [|b s2] Heq; simpl in *.
  - done.
  - apply (f_equal String.length) in Heq. simpl in Heq.
    rewrite !length_append in Heq. simpl in Heq. lia.
  - apply (f_equal String.length) in Heq. simpl in Heq.
    rewrite !length_append in Heq. simpl in Heq. lia.
  - injection Heq as -> Heq. f_equal. by apply IH.
Qed.

Global Instance checkpoint_name_inj : Inj (=) (=) checkpoint_name.
Proof.
  intros x y Hxy. unfold checkpoint_name in Hxy.
  apply (inj (String.app _)) in Hxy. by apply append_inj_r, (inj str) in Hxy.
Qed.

Global Instance best_name_inj : Inj (=) (=) best_name.
Proof.
  intros x y Hxy. unfold best_name in Hxy.
  apply (inj (String.app _)) in Hxy. by apply append_inj_r, (inj str) in Hxy.
Qed.

Lemma prefix_nil s : String.prefix EmptyString s = true.
Proof. by destruct s. Qed.

Lemma checkpoint_name_is_checkpoint e : is_checkpoint_file (checkpoint_name e) = true.
Proof. unfold is_checkpoint_file, checkpoint_name. simpl. by rewrite ?prefix_nil. Qed.
Lemma checkpoint_name_not_best e : is_best_file (checkpoint_name e) = false.
Proof. reflexivity. Qed.
Lemma best_name_is_best e : is_best_file (best_name e) = true.
Proof. unfold is_best_file, best_name. simpl. by rewrite ?prefix_nil. Qed.
Lemma best_name_not_checkpoint e : is_checkpoint_file (best_name e) = false.
Proof. reflexivity. Qed.
Lemma marker_not_checkpoint : is_checkpoint_file marker_name = false.
Proof. reflexivity. Qed.
Lemma marker_not_best : is_best_file marker_name = false.
Proof. reflexivity. Qed.

Section Disk.
Context {M Opt : Type} `{Listing}.
Implicit Types d : gmap string (file M Opt).

Lemma elem_of_names_with p d n :
  n ∈ names_with p d ↔ p n = true ∧ is_Some (d !! n).
Proof. unfold names_with. rewrite elem_of_filter, elem_of_dom. done. Qed.

Lemma names_with_insert p n f d :
  names_with p (<[n:=f]> d)
  = (if p n then {[n]} else ∅) ∪ names_with p d.
Proof.
  apply set_eq. intros x.
  rewrite elem_of_union, !elem_of_names_with, lookup_insert_is_Some.
  destruct (p n) eqn:Hp;
    rewrite ?elem_of_singleton, ?elem_of_empty;
    destruct (decide (n = x)); intuition congruence.
Qed.

Lemma names_with_delete p n d :
  names_with p (delete n d) = names_with p d ∖ {[n]}.
Proof.
  apply set_eq. intros x.
  rewrite elem_of_difference, !elem_of_names_with, lookup_delete_is_Some.
  rewrite elem_of_singleton. intuition congruence.
Qed.

Lemma glob_best_perm d : glob_best d ≡ₚ elements (names_with is_best_file d).
Proof.
  unfold glob_best, names_with.
  apply NoDup_Permutation.
  - apply NoDup_filter. rewrite listdir_perm. apply NoDup_elements.
  - apply NoDup_elements.
  - intros x. rewrite list_elem_of_filter, elem_of_elements, elem_of_filter.
    by rewrite listdir_perm, elem_of_elements.
Qed.

Lemma glob_best_singleton d n :
  names_with is_best_file d = {[n]} → glob_best d = [n].
Proof.
  intros Hn. apply Permutation_singleton_r.
  by rewrite glob_best_perm, Hn, elements_singleton.
Qed.

Lemma glob_best_empty d :
  names_with is_best_file d = ∅ → glob_best d = [].
Proof.
  intros Hn. apply Permutation_nil_r.
  by rewrite glob_best_perm, Hn, elements_empty.
Qed.
End Disk.


Section Disk.
Context {M Opt : Type} `{Listing}.
Implicit Types d : gmap string (file M Opt).
Implicit Types s : fs M Opt.

Lemma names_with_insert_other p n f d :
  p n = false → names_with p (<[n:=f]> d) = names_with p d.
Proof. intros Hp. rewrite names_with_insert, Hp. apply (left_id_L ∅ (∪)). Qed.

Lemma names_with_insert_match p n f d :
  p n = true → names_with p (<[n:=f]> d) = {[n]} ∪ names_with p d.
Proof. intros Hp. by rewrite names_with_insert, Hp. Qed.

Lemma names_with_delete_other p n d :
  p n = false → names_with p (delete n d) = names_with p d.
Proof.
  intros Hp. rewrite names_with_delete. apply set_eq. intros x.
  rewrite elem_of_difference, elem_of_singleton, elem_of_names_with.
  intuition congruence.
Qed.

Lemma one_best_of_eq d (X : gset string) :
  names_with is_best_file d = X → size X ≤ 1 → one_best d.
Proof. unfold one_best. by intros ->. Qed.

Lemma size_opt_best (b : option nat) :
  size (match b with Some k => {[best_name (Z.of_nat k)]} | None => ∅ end
        : gset string) ≤ 1.
Proof. destruct b; [rewrite size_singleton | rewrite size_empty]; lia. Qed.

Lemma save_checkpoint_inv e b s st (f : bool) :
  inv e b s →
  inv (S e) (if f then Some e else b) (save_checkpoint st f (Z.of_nat e) s).
Proof.
  intros [Hck Hbest Hhist Hfirst]. unfold save_checkpoint.
  set (s1 := fs_write (checkpoint_name (Z.of_nat e)) (Pickle st) s).
  assert (Hck1 : names_with is_checkpoint_file (cur s1)
                 = {[checkpoint_name (Z.of_nat e)]}
                   ∪ names_with is_checkpoint_file (cur s)).
  { apply names_with_insert_match, checkpoint_name_is_checkpoint. }
  assert (Hbest1 : names_with is_best_file (cur s1)
                   = names_with is_best_file (cur s)).
  { apply names_with_insert_other, checkpoint_name_not_best. }
  assert (Hhist1 : Forall one_best (history s1)).
  { constructor; [|done]. unfold one_best. rewrite Hbest1, Hbest.
    apply size_opt_best. }
  assert (Hlook1 : cur s1 !! checkpoint_name (Z.of_nat e) = Some (Pickle st)).
  { apply lookup_insert_eq. }
  clearbody s1.
  (* the optional copy to the best file *)
  set (s3 := if f then _ else s1).
  assert (H3 : names_with is_checkpoint_file (cur s3)
               = names_with is_checkpoint_file (cur s1) ∧
               names_with is_best_file (cur s3)
               = match (if f then Some e else b) with
                 | Some k => {[best_name (Z.of_nat k)]} | None => ∅ end ∧
               Forall one_best (history s3)).
  { subst s3. destruct f; [|by rewrite Hbest1, Hbest].
    set (s2 := if bool_decide (0 < Z.of_nat e)%Z then _ else s1).
    assert (H2 : names_with is_checkpoint_file (cur s2)
                 = names_with is_checkpoint_file (cur s1) ∧
                 names_with is_best_file (cur s2) = ∅ ∧
                 Forall one_best (history s2) ∧
                 cur s2 !! checkpoint_name (Z.of_nat e) = Some (Pickle st)).
    { subst s2. case_bool_decide as He.
      - destruct b as [k|].
        + rewrite (glob_best_singleton _ (best_name (Z.of_nat k)))
            by by rewrite Hbest1, Hbest.
          simpl. split_and!.
          * apply names_with_delete_other, best_name_not_checkpoint.
          * rewrite names_with_delete, Hbest1, Hbest.
            apply set_eq. intros x.
            rewrite elem_of_difference, elem_of_empty. tauto.
          * constructor; [|done]. unfold one_best; simpl.
            rewrite names_with_delete, Hbest1, Hbest.
            rewrite difference_diag_L, size_empty. lia.
          * rewrite lookup_delete_ne; [done|].
            intros Heq. apply (f_equal is_best_file) in Heq.
            by rewrite best_name_is_best, checkpoint_name_not_best in Heq.
        + rewrite glob_best_empty by by rewrite Hbest1, Hbest.
          split_and!; try done. by rewrite Hbest1, Hbest.
      - assert (e = 0%nat) as -> by lia. rewrite Hfirst in Hbest by done.
        split_and!; try done. by rewrite Hbest1, Hbest. }
    clearbody s2. destruct H2 as (Hck2 & Hbest2 & Hhist2 & Hlook2).
    unfold fs_copy. rewrite Hlook2. simpl. split_and!.
    - rewrite <- Hck2. apply names_with_insert_other, best_name_not_checkpoint.
    - rewrite names_with_insert_match by apply best_name_is_best.
      rewrite Hbest2. apply (right_id_L ∅ (∪)).
    - constructor; [|done]. unfold one_best; simpl.
      rewrite names_with_insert_match by apply best_name_is_best.
      rewrite Hbest2, (right_id_L ∅ (∪)), size_singleton. lia. }
  clearbody s3. destruct H3 as (Hck3 & Hbest3 & Hhist3).
  (* removal of the previous checkpoint *)
  case_bool_decide as He.
  - destruct e as [|e']; [lia|].
    replace (Z.of_nat (S e') - 1)%Z with (Z.of_nat e') by lia.
    unfold exists_. rewrite bool_decide_eq_true_2.
    2:{ apply (elem_of_names_with is_checkpoint_file).
        rewrite Hck3, Hck1, Hck. apply elem_of_union_r, elem_of_singleton. done. }
    split; simpl.
    + rewrite names_with_delete, Hck3, Hck1, Hck.
      apply set_eq. intros x.
      rewrite elem_of_difference, elem_of_union, !elem_of_singleton.
      split; [tauto|]. intros ->. split; [by left|].
      intros Heq%(inj checkpoint_name). lia.
    + rewrite names_with_delete_other by apply checkpoint_name_not_best. done.
    + constructor; [|done]. unfold one_best; simpl.
      rewrite names_with_delete_other by apply checkpoint_name_not_best.
      rewrite Hbest3. destruct f; [rewrite size_singleton; lia | apply size_opt_best].
    + done.
  - assert (e = 0%nat) as -> by lia. split; try done.
    rewrite Hck3, Hck1, Hck. apply (right_id_L ∅ (∪)).
Qed.

End Disk.

Section Disk.
Context {M Opt : Type} `{Listing}.
Implicit Types d : gmap string (file M Opt).
Implicit Types s : fs M Opt.
Implicit Types calls : list (checkpoint M Opt * bool).

Lemma save_all_inv_any calls e b s :
  inv e b s → ∃ b', inv (e + length calls) b' (save_all calls (Z.of_nat e) s).
Proof.
  revert e b s. induction calls as [|[st f] calls IH]; intros e b s Hinv.
  - exists b. simpl. by rewrite Nat.add_0_r.
  - simpl. replace (Z.of_nat e + 1)%Z with (Z.of_nat (S e)) by lia.
    replace (e + S (length calls))%nat with (S e + length calls)%nat by lia.
    eapply IH, save_checkpoint_inv, Hinv.
Qed.

Lemma save_all_inv_none calls e b s :
  best_calls calls = [] → inv e b s →
  inv (e + length calls) b (save_all calls (Z.of_nat e) s).
Proof.
  revert e b s. induction calls as [|[st f] calls IH]; intros e b s Hnone Hinv.
  - simpl. by rewrite Nat.add_0_r.
  - unfold best_calls in Hnone. rewrite filter_cons in Hnone. simpl in Hnone.
    destruct f; [by rewrite decide_True in Hnone|].
    rewrite decide_False in Hnone by done.
    simpl. replace (Z.of_nat e + 1)%Z with (Z.of_nat (S e)) by lia.
    replace (e + S (length calls))%nat with (S e + length calls)%nat by lia.
    apply IH; [done|]. by apply (save_checkpoint_inv e b s st false).
Qed.

Lemma save_all_inv_one calls e b s :
  length (best_calls calls) = 1%nat → inv e b s →
  ∃ k st, calls !! k = Some (st, true) ∧
          inv (e + length calls) (Some (e + k)%nat)
              (save_all calls (Z.of_nat e) s).
Proof.
  revert e b s. induction calls as [|[st f] calls IH]; intros e b s Hone Hinv.
  - done.
  - unfold best_calls in Hone. rewrite filter_cons in Hone. simpl in Hone.
    simpl. replace (Z.of_nat e + 1)%Z with (Z.of_nat (S e)) by lia.
    replace (e + S (length calls))%nat with (S e + length calls)%nat by lia.
    destruct f.
    + rewrite decide_True in Hone by done. simpl in Hone.
      exists 0%nat, st. split; [done|]. rewrite Nat.add_0_r.
      apply save_all_inv_none.
      * apply nil_length_inv. unfold best_calls. lia.
      * by apply (save_checkpoint_inv e b s st true).
    + rewrite decide_False in Hone by done.
      destruct (IH (S e) b (save_checkpoint st false (Z.of_nat e) s) Hone)
        as (k & st' & Hk & Hinv').
      { by apply (save_checkpoint_inv e b s st false). }
      exists (S k), st'. split; [done|].
      by replace (e + S k)%nat with (S e + k)%nat by lia.
Qed.

(** C1.  Checkpoint retention: after the successive [save_checkpoint] calls
    of the epochs 0, ..., N-1 in a directory that held no checkpoint and no
    best file, exactly one of the calls passing [is_best = True], the
    directory holds exactly one epoch checkpoint, the one of epoch N-1, and
    exactly one best file, the one of the epoch that passed the flag; and
    none of the contents the directory went through, file operation after
    file operation, held more than one best file: the previous best is
    removed before the new one is written. *)
Theorem retention_invariant calls d0 :
  names_with is_checkpoint_file d0 = ∅ →
  names_with is_best_file d0 = ∅ →
  length (filter (λ c, c.2 = true) calls) = 1%nat →
  let s := save_all calls 0 (fs_init d0) in
  names_with is_checkpoint_file (cur s)
  = {[checkpoint_name (Z.of_nat (length calls) - 1)]} ∧
  (∃ k state,
     calls !! k = Some (state, true) ∧
     names_with is_best_file (cur s) = {[best_name (Z.of_nat k)]}) ∧
  Forall (λ d, size (names_with is_best_file d) ≤ 1) (history s).
Proof.
  intros Hck Hbest Hone s.
  assert (Hinv0 : inv 0 None (fs_init d0)).
  { split; [done | done | | done].
    constructor; [|constructor].
    unfold one_best. simpl. rewrite Hbest, size_empty. lia. }
  destruct (save_all_inv_one calls 0 None (fs_init d0) Hone Hinv0)
    as (k & st & Hk & [Hck' Hbest' Hhist' _]).
  change (Z.of_nat 0) with 0%Z in *. fold s in Hck', Hbest', Hhist'.
  pose proof (lookup_lt_Some _ _ _ Hk) as Hlen.
  split_and!; [|by exists k, st|done].
  rewrite Hck'. destruct (length calls) as [|n]; [lia|]. simpl.
  do 2 f_equal. lia.
Qed.

(** Whatever the flags, no two best files ever coexist. *)
Lemma at_most_one_best calls d0 :
  names_with is_checkpoint_file d0 = ∅ →
  names_with is_best_file d0 = ∅ →
  Forall (λ d, size (names_with is_best_file d) ≤ 1)
    (history (save_all calls 0 (fs_init d0))).
Proof.
  intros Hck Hbest.
  assert (Hinv0 : inv 0 None (fs_init d0)).
  { split; [done | done | | done].
    constructor; [|constructor].
    unfold one_best. simpl. rewrite Hbest, size_empty. lia. }
  destruct (save_all_inv_any calls 0 None (fs_init d0) Hinv0) as (b & Hinv).
  apply Hinv.
Qed.

End Disk.
End FilesFacts.

(** ** The training driver *)

Module TrainerFacts.
Import FilesFacts.

Lemma bind_Return {A B : Type} (m : result A) (f : A → result B) (y : B) :
  m ≫= f = Return y → ∃ x, m = Return x ∧ f x = Return y.
Proof. destruct m as [e|x]; [done|]. intros Hf. by exists x. Qed.

Lemma of_option_Return {A : Type} (e : exn) (o : option A) (x : A) :
  of_option e o = Return x → o = Some x.
Proof. destruct o; [|done]. by intros [= ->]. Qed.

Section Trainer.
Context {Par Opt Sch : Type} `{Listing}.
Implicit Types w : world Par Opt Sch.
Implicit Types r : run Par Opt Sch.
Implicit Types m : gmap string Par.

(** What one training batch logs. *)
Lemma train_batch_Return a w epoch m o evs i b st' :
  train_batch a w epoch (m, o, evs) (i, b) = Return st' →
  ∃ seg0 loss_smoothedge,
    select_c 0 (segGt b) = Some seg0 ∧
    SmoothEdgeLoss.forward (depth (net w m (input b) epoch))
      (tmap (λ x, smul x (of_Z 255)) (c_from 2 (input b))) (segGt b)
    = Some loss_smoothedge ∧
    st' = (optimize w a m o b epoch,
           evs ++ [TrainLoss epoch i
                     (train_loss a
                        (criterion w (coarse_depth (net w m (input b) epoch)) (lidarGt b) None)
                        (criterion w (depth_cls (net w m (input b) epoch)) (lidarGt b) None)
                        (criterion w (depth (net w m (input b) epoch)) (lidarGt b) None)
                        (CrossEntropyLoss2d w (segmap (net w m (input b) epoch)) seg0)
                        loss_smoothedge)]).
Proof.
  unfold train_batch. intros Hst.
  apply bind_Return in Hst as (seg0 & Hseg%of_option_Return & Hst).
  apply bind_Return in Hst as (le & Hle%of_option_Return & Hst).
  exists seg0, le. split_and!; [done..|].
  destruct (optimize w a m o b epoch) as [m' o']. by injection Hst as <-.
Qed.

Lemma validate_batch_Return a w m epoch v i b v' :
  validate_batch a w m epoch v (i, b) = Return v' →
  ∃ seg0,
    select_c 0 (segGt b) = Some seg0 ∧
    v_log v' =
    v_log v ++ [ValidLoss epoch i
                  (valid_loss a
                     (criterion w (coarse_depth (net w m (input b) epoch)) (lidarGt b) (Some epoch))
                     (criterion w (depth_cls (net w m (input b) epoch)) (lidarGt b) (Some epoch))
                     (criterion w (depth (net w m (input b) epoch)) (lidarGt b) (Some epoch))
                     (CrossEntropyLoss2d w (segmap (net w m (input b) epoch)) seg0))].
Proof.
  unfold validate_batch. intros Hst.
  apply bind_Return in Hst as (seg0 & Hseg%of_option_Return & Hst).
  exists seg0. split; [done|].
  destruct (calculate w _ _) as [get_metric num]. by injection Hst as <-.
Qed.

(** The training loop only appends [TrainLoss] events. *)
Lemma train_loop_log a w epoch l st st' :
  foldM (train_batch a w epoch) st l = Return st' →
  ∃ tl, st'.2 = st.2 ++ tl ∧ Forall (λ e, is_train_loss e = true) tl.
Proof.
  revert st. induction l as [|[i b] l IH]; intros st Hst; simpl in Hst.
  - injection Hst as <-. exists []. by rewrite app_nil_r.
  - apply bind_Return in Hst as (st1 & H1 & Hst).
    destruct st as [[m o] evs].
    apply train_batch_Return in H1 as (seg0 & le & _ & _ & ->).
    apply IH in Hst as (tl & -> & Htl). simpl.
    eexists (_ :: tl). rewrite <- app_assoc. split; [done|].
    by constructor.
Qed.

(** [validate] only logs [ValidLoss] events. *)
Lemma validate_loop_log a w m epoch l v v' :
  foldM (validate_batch a w m epoch) v l = Return v' →
  ∃ vl, v_log v' = v_log v ++ vl ∧ Forall (λ e, is_valid_loss e = true) vl.
Proof.
  revert v. induction l as [|[i b] l IH]; intros v Hv; simpl in Hv.
  - injection Hv as <-. exists []. by rewrite app_nil_r.
  - apply bind_Return in Hv as (v1 & H1 & Hv).
    apply validate_batch_Return in H1 as (seg0 & _ & Hlog).
    apply IH in Hv as (vl & -> & Hvl). rewrite Hlog.
    eexists (_ :: vl). rewrite <- app_assoc. split; [done|].
    by constructor.
Qed.

Lemma validate_log a w loader m epoch score score_1 losses vevs :
  validate a w loader m epoch = Return (score, score_1, losses, vevs) →
  Forall (λ e, is_valid_loss e = true) vevs.
Proof.
  unfold validate. intros Hv.
  apply bind_Return in Hv as (v & Hv & Hret).
  apply validate_loop_log in Hv as (vl & Hlog & Hvl). simpl in Hlog.
  injection Hret as _ _ _ <-. by rewrite Hlog.
Qed.

End Trainer.

Section Trainer.
Context {Par Opt Sch : Type} `{Listing}.
Implicit Types w : world Par Opt Sch.
Implicit Types r : run Par Opt Sch.
Implicit Types m : gmap string Par.

(** C3.  Loss combination: the loss of every training batch is
    [wcoarse * L_coarse + wcls * L_cls + wdepth * L_depth + wseg * L_seg
     + wedge * L_edge], that of every validation batch is the same sum
    without the edge term, and with the weights 0.07, 0.07, 0.1, 5, 5 and
    all sub-losses equal to 1 the two sums are 10.24 and 5.24. *)
Theorem loss_combination :
  (∀ a w epoch m o evs i b st',
     train_batch a w epoch (m, o, evs) (i, b) = Return st' →
     ∃ seg0 L_coarse L_cls L_depth L_seg L_edge,
       select_c 0 (segGt b) = Some seg0 ∧
       L_coarse = criterion w (coarse_depth (net w m (input b) epoch)) (lidarGt b) None ∧
       L_cls = criterion w (depth_cls (net w m (input b) epoch)) (lidarGt b) None ∧
       L_depth = criterion w (depth (net w m (input b) epoch)) (lidarGt b) None ∧
       L_seg = CrossEntropyLoss2d w (segmap (net w m (input b) epoch)) seg0 ∧
       SmoothEdgeLoss.forward (depth (net w m (input b) epoch))
         (tmap (λ x, smul x (of_Z 255)) (c_from 2 (input b))) (segGt b)
       = Some L_edge ∧
       st'.2 = evs ++ [TrainLoss epoch i
                 (sadd (sadd (sadd (sadd (smul (wcoarse a) L_coarse)
                                         (smul (wcls a) L_cls))
                                   (smul (wdepth a) L_depth))
                             (smul (wseg a) L_seg))
                       (smul (wedge a) L_edge))]) ∧
  (∀ a w m epoch v i b v',
     validate_batch a w m epoch v (i, b) = Return v' →
     ∃ seg0 L_coarse L_cls L_depth L_seg,
       select_c 0 (segGt b) = Some seg0 ∧
       L_coarse = criterion w (coarse_depth (net w m (input b) epoch)) (lidarGt b) (Some epoch) ∧
       L_cls = criterion w (depth_cls (net w m (input b) epoch)) (lidarGt b) (Some epoch) ∧
       L_depth = criterion w (depth (net w m (input b) epoch)) (lidarGt b) (Some epoch) ∧
       L_seg = CrossEntropyLoss2d w (segmap (net w m (input b) epoch)) seg0 ∧
       v_log v' = v_log v ++ [ValidLoss epoch i
                    (sadd (sadd (sadd (smul (wcoarse a) L_coarse)
                                      (smul (wcls a) L_cls))
                                (smul (wdepth a) L_depth))
                          (smul (wseg a) L_seg))]) ∧
  (∀ a,
     wcoarse a = Fin (Q2Qc (7 # 100)) → wcls a = Fin (Q2Qc (7 # 100)) →
     wdepth a = Fin (Q2Qc (1 # 10)) → wseg a = of_Z 5 → wedge a = of_Z 5 →
     train_loss a (Fin 1%Qc) (Fin 1%Qc) (Fin 1%Qc) (Fin 1%Qc) (Fin 1%Qc)
     = Fin (Q2Qc (1024 # 100)) ∧
     valid_loss a (Fin 1%Qc) (Fin 1%Qc) (Fin 1%Qc) (Fin 1%Qc)
     = Fin (Q2Qc (524 # 100))).
Proof.
  split_and!.
  - intros a w epoch m o evs i b st' Hst.
    apply train_batch_Return in Hst as (seg0 & le & Hseg & Hle & ->).
    by eexists seg0, _, _, _, _, le.
  - intros a w m epoch v i b v' Hv.
    apply validate_batch_Return in Hv as (seg0 & Hseg & ->).
    by eexists seg0, _, _, _, _.
  - intros a Hc Hcl Hd Hs He. unfold train_loss, valid_loss.
    rewrite Hc, Hcl, Hd, Hs, He. simpl.
    split; f_equal; by apply Qc_is_canon.
Qed.

(** C9.  Scheduler stepping: in an epoch under the 'plateau' policy the
    scheduler is stepped exactly once, after the training and the validation
    batches, with the score that [validate] returned; under any other
    policy it is stepped exactly once, without a score, right after the
    epoch banner and before every training batch; with no policy it is not
    stepped. *)
Theorem scheduler_stepping a w r epoch r' :
  epoch_body a w r epoch = Return r' →
  ∃ evs, log r' = log r ++ evs ∧
    match lr_policy a with
    | None => Forall (λ e, is_scheduler_step e = false) evs
    | Some p =>
        if bool_decide (p = "plateau") then
          ∃ pre o score score_1 losses vevs,
            validate a w (valid_loader w) (model r') epoch
            = Return (score, score_1, losses, vevs) ∧
            evs = pre ++ vevs ++ [SchedulerStep (Some score)] ∧
            Forall (λ e, is_scheduler_step e = false) (pre ++ vevs) ∧
            (scheduler r', optimizer r')
            = scheduler_step w (scheduler r) o (Some score)
        else
          ∃ post,
            evs = Printed (StartEpoch (epoch + 1)) :: SchedulerStep None :: post ∧
            Forall (λ e, is_scheduler_step e = false) post ∧
            scheduler r' = (scheduler_step w (scheduler r) (optimizer r) None).1
    end.
Proof.
  unfold epoch_body. intros Hr.
  destruct (lr_policy a) as [p|] eqn:Hp.
  - destruct (decide (p = "plateau")) as [-> | Hne].
    + rewrite bool_decide_eq_false_2 in Hr by (by intros []).
      rewrite bool_decide_eq_true_2 by done.
      apply bind_Return in Hr as ([[m o] evs] & Htr & Hr).
      apply train_loop_log in Htr as (tl & Hevs & Htl). simpl in Hevs. subst evs.
      apply bind_Return in Hr as ([[[score score_1] losses] vevs] & Hv & Hr).
      pose proof (validate_log _ _ _ _ _ _ _ _ _ Hv) as Hvl.
      rewrite bool_decide_eq_true_2 in Hr by done.
      destruct (scheduler_step w (scheduler r) o (Some score)) as [sch' o'] eqn:Hs.
      injection Hr as <-. simpl.
      eexists. split; [done|].
      exists ([Printed (StartEpoch (epoch + 1))] ++ tl), o, score, score_1, losses, vevs.
      split_and!; [done | by rewrite <- ?app_assoc | | done].
      apply Forall_app. split; [|by eapply Forall_impl; [done|]; intros []].
      constructor; [done|]. by eapply Forall_impl; [done|]; intros [].
    + rewrite bool_decide_eq_true_2 in Hr by done.
      rewrite bool_decide_eq_false_2 by done.
      destruct (scheduler_step w (scheduler r) (optimizer r) None) as [sch o] eqn:Hs.
      apply bind_Return in Hr as ([[m o1] evs] & Htr & Hr).
      apply train_loop_log in Htr as (tl & Hevs & Htl). simpl in Hevs. subst evs.
      apply bind_Return in Hr as ([[[score score_1] losses] vevs] & Hv & Hr).
      pose proof (validate_log _ _ _ _ _ _ _ _ _ Hv) as Hvl.
      rewrite bool_decide_eq_false_2 in Hr by congruence.
      injection Hr as <-. simpl.
      eexists. split; [done|]. exists (tl ++ vevs).
      split_and!; [by rewrite <- ?app_assoc | | done].
      apply Forall_app. split; by eapply Forall_impl; [done|]; intros [].
  - apply bind_Return in Hr as ([[m o] evs] & Htr & Hr).
    apply train_loop_log in Htr as (tl & Hevs & Htl). simpl in Hevs. subst evs.
    apply bind_Return in Hr as ([[[score score_1] losses] vevs] & Hv & Hr).
    pose proof (validate_log _ _ _ _ _ _ _ _ _ Hv) as Hvl.
    rewrite bool_decide_eq_false_2 in Hr by done.
    injection Hr as <-. simpl.
    eexists. split; [done|]. constructor; [done|].
    apply Forall_app. split; by eapply Forall_impl; [done|]; intros [].
Qed.

End Trainer.

Lemma str_nonempty z : str z ≠ EmptyString.
Proof. intros Hz. pose proof (int_str z) as Hi. by rewrite Hz in Hi. Qed.

Section Disk.
Context {M Opt : Type} `{Listing}.
Implicit Types d : gmap string (file M Opt).
Implicit Types s : fs M Opt.

Lemma glob_best_is_best d n l : glob_best d = n :: l → is_best_file n = true.
Proof.
  intros Hg. assert (Hin : n ∈ glob_best d) by (rewrite Hg; by left).
  unfold glob_best in Hin. by apply list_elem_of_filter in Hin as [? _].
Qed.

(** Files that [save_checkpoint] leaves alone. *)
Lemma save_checkpoint_lookup_other st f e s n :
  is_best_file n = false → is_checkpoint_file n = false →
  cur (save_checkpoint st f e s) !! n = cur s !! n.
Proof.
  intros Hb Hc. unfold save_checkpoint.
  assert (Hne : ∀ e', n ≠ checkpoint_name e').
  { intros e' ->. by rewrite checkpoint_name_is_checkpoint in Hc. }
  assert (Hnb : ∀ e', n ≠ best_name e').
  { intros e' ->. by rewrite best_name_is_best in Hb. }
  set (s1 := fs_write _ _ s).
  assert (H1 : cur s1 !! n = cur s !! n) by by apply lookup_insert_ne.
  clearbody s1.
  set (s3 := if f then _ else s1).
  assert (H3 : cur s3 !! n = cur s !! n).
  { subst s3. destruct f; [|done].
    set (s2 := if bool_decide _ then _ else s1).
    assert (H2 : cur s2 !! n = cur s !! n).
    { subst s2. case_bool_decide; [|done].
      destruct (glob_best (cur s1)) as [|g l] eqn:Hg; [exact H1|]. simpl.
      rewrite lookup_delete_ne; [done|]. intros ->.
      apply glob_best_is_best in Hg. congruence. }
    clearbody s2. unfold fs_copy.
    destruct (cur s2 !! checkpoint_name e); [|done]. simpl.
    by rewrite lookup_insert_ne. }
  clearbody s3. case_bool_decide; [|done].
  destruct (exists_ _ _); [|done]. simpl. by rewrite lookup_delete_ne.
Qed.

(** The checkpoint of the epoch is on disk when [save_checkpoint] returns. *)
Lemma save_checkpoint_lookup st f e s :
  cur (save_checkpoint st f e s) !! checkpoint_name e = Some (Pickle st).
Proof.
  unfold save_checkpoint.
  set (s1 := fs_write _ _ s).
  assert (H1 : cur s1 !! checkpoint_name e = Some (Pickle st))
    by apply lookup_insert_eq.
  clearbody s1.
  set (s3 := if f then _ else s1).
  assert (H3 : cur s3 !! checkpoint_name e = Some (Pickle st)).
  { subst s3. destruct f; [|done].
    set (s2 := if bool_decide _ then _ else s1).
    assert (H2 : cur s2 !! checkpoint_name e = Some (Pickle st)).
    { subst s2. case_bool_decide; [|done].
      destruct (glob_best (cur s1)) as [|g l] eqn:Hg; [done|]. simpl.
      rewrite lookup_delete_ne; [done|]. intros ->.
      apply glob_best_is_best in Hg.
      by rewrite checkpoint_name_not_best in Hg. }
    clearbody s2. unfold fs_copy. rewrite H2. simpl.
    rewrite lookup_insert_ne; [done|]. intros Heq.
    apply (f_equal is_best_file) in Heq.
    by rewrite best_name_is_best, checkpoint_name_not_best in Heq. }
  clearbody s3. case_bool_decide; [|done].
  destruct (exists_ _ _); [|done]. simpl.
  rewrite lookup_delete_ne; [done|]. intros Heq%(inj checkpoint_name). lia.
Qed.

End Disk.

Section Trainer.
Context {Par Opt Sch : Type} `{Listing}.
Implicit Types w : world Par Opt Sch.
Implicit Types r : run Par Opt Sch.
Implicit Types d : gmap string (file (gmap string Par) Opt).

Lemma range_head start stop :
  (start < stop)%Z → head (range start stop) = Some start.
Proof.
  intros Hlt. unfold range, seqZ.
  destruct (Z.to_nat (stop - start)) as [|n] eqn:Hn; [lia|].
  simpl; f_equal; lia.
Qed.

(** What an epoch leaves in the save directory. *)
Lemma epoch_body_files a w r epoch r' :
  epoch_body a w r epoch = Return r' →
  first_run (cur (files r')) = str epoch ∧
  ∃ c, cur (files r') !! checkpoint_name epoch = Some (Pickle c) ∧
       ck_epoch c = (epoch + 1)%Z ∧ ck_best_epoch c = best_epoch r' ∧
       ck_loss c = lowest_loss r' ∧ ck_state_dict c = model r' ∧
       ck_optimizer c = optimizer r'.
Proof.
  unfold epoch_body. intros Hr.
  destruct (match lr_policy a with Some _ => _ | None => _ end)
    as [[sch0 o0] evs0].
  apply bind_Return in Hr as ([[m o] evs] & Htr & Hr).
  apply bind_Return in Hr as ([[[score score_1] losses] vevs] & Hv & Hr).
  destruct (if bool_decide (lr_policy a = Some "plateau") then _ else _)
    as [[sch1 o1] evs1].
  injection Hr as <-. simpl. split.
  - unfold first_run. rewrite save_checkpoint_lookup_other by done.
    simpl. by rewrite lookup_insert_eq.
  - eexists. split; [apply save_checkpoint_lookup|]. done.
Qed.

(** With a marker naming an epoch whose checkpoint is on disk, [main] starts
    from what the checkpoint stores. *)
Lemma startup_loads_checkpoint a w d E c :
  first_run d = str E →
  test_mode a = false → evaluate a = false →
  no_cuda a || cuda_available w = true →
  d !! checkpoint_name E = Some (Pickle c) →
  startup a w d
  = Return (Run (ck_state_dict c) (ck_optimizer c)
              (define_scheduler w (define_optim w (define_model w))).1
              (ck_best_epoch c) (ck_loss c) (fs_init d)
              [Printed (LoadingCheckpoint (str E));
               Printed (LoadedCheckpoint (str E) (ck_epoch c))],
            ck_epoch c).
Proof.
  intros Hmark Htest Heval Hcuda Hfile. unfold startup.
  replace (negb (no_cuda a) && negb (cuda_available w)) with false
    by (destruct (no_cuda a), (cuda_available w); done).
  destruct (define_scheduler w _) as [sch o].
  unfold resume_block. rewrite Hmark, Htest, Heval.
  rewrite bool_decide_eq_true_2 by apply str_nonempty. simpl.
  rewrite int_str. simpl.
  unfold exists_. rewrite bool_decide_eq_true_2 by by rewrite Hfile.
  unfold torch_load. rewrite Hfile. simpl.
  unfold load_pretrained.
  rewrite (bool_decide_eq_false_2 (str E = EmptyString)) by apply str_nonempty.
  rewrite andb_false_r. done.
Qed.

(** C2, amended.  Resume selection: with a marker that records epoch E,
    outside test and evaluate mode, when the checkpoint file of epoch E is
    on disk, [main] takes model, optimizer, best epoch and lowest loss from
    that checkpoint and starts its loop at the epoch the checkpoint stores,
    which is the first epoch executed when it is below [nepochs]; in the
    checkpoint that the trainer itself wrote at the end of epoch E, the
    stored epoch is E + 1: the run continues after the recorded epoch. *)
Theorem resume_selection a w d E c :
  first_run d = str E →
  test_mode a = false → evaluate a = false →
  no_cuda a || cuda_available w = true →
  d !! checkpoint_name E = Some (Pickle c) →
  (∃ r, startup a w d = Return (r, ck_epoch c) ∧
        model r = ck_state_dict c ∧ optimizer r = ck_optimizer c ∧
        best_epoch r = ck_best_epoch c ∧ lowest_loss r = ck_loss c) ∧
  ((ck_epoch c < nepochs a)%Z →
   head (range (ck_epoch c) (nepochs a)) = Some (ck_epoch c)) ∧
  (∀ r0 r1,
     epoch_body a w r0 E = Return r1 → d = cur (files r1) →
     ck_epoch c = (E + 1)%Z).
Proof.
  intros Hmark Htest Heval Hcuda Hfile. split_and!.
  - eexists. split; [by apply startup_loads_checkpoint|]. done.
  - apply range_head.
  - intros r0 r1 Hr ->.
    apply epoch_body_files in Hr as (_ & c' & Hc' & He & _).
    rewrite Hc' in Hfile. by simplify_eq.
Qed.

(** C6, amended.  Resume gating and degradation: the resume block loads a
    checkpoint or reports a missing one only when the marker is not empty
    and the run is neither in test nor in evaluate mode; and when the marker
    holds an epoch number whose checkpoint file is absent, [main] does not
    raise: it logs that no checkpoint was found and starts afresh, with the
    initial model, at the configured [start_epoch] (0 unless the command
    line says otherwise). *)
Theorem resume_gating_degrade a w d :
  (∀ m o rs,
     resume_block a (first_run d) d m o = Return rs →
     r_loaded rs = true ∨ r_log rs ≠ [] →
     first_run d ≠ EmptyString ∧ test_mode a = false ∧ evaluate a = false) ∧
  (∀ n,
     int (first_run d) = Some n →
     test_mode a = false → evaluate a = false →
     d !! checkpoint_name n = None →
     no_cuda a || cuda_available w = true →
     ∃ r, startup a w d = Return (r, start_epoch a) ∧
          log r = [Printed (NoCheckpointFound (checkpoint_name n))] ∧
          model r = define_model w ∧
          best_epoch r = 0%Z ∧ lowest_loss r = PInf ∧
          files r = fs_init d).
Proof.
  split.
  - intros m o rs Hrs Hpath. unfold resume_block in Hrs.
    destruct (bool_decide (first_run d ≠ EmptyString)) eqn:Hne;
      [apply bool_decide_eq_true in Hne|];
      destruct (test_mode a), (evaluate a); simpl in Hrs;
      try (injection Hrs as <-; simpl in Hpath; by destruct Hpath).
    done.
  - intros n Hint Htest Heval Hfile Hcuda. unfold startup.
    replace (negb (no_cuda a) && negb (cuda_available w)) with false
      by (destruct (no_cuda a), (cuda_available w); done).
    destruct (define_scheduler w _) as [sch o].
    assert (Hne : first_run d ≠ EmptyString) by (intros Hz; by rewrite Hz in Hint).
    unfold resume_block. rewrite Htest, Heval, Hint.
    rewrite bool_decide_eq_true_2 by done. simpl.
    unfold exists_. rewrite bool_decide_eq_false_2
      by (rewrite Hfile; by intros [? ?]).
    simpl. unfold load_pretrained.
    rewrite (bool_decide_eq_false_2 (first_run d = EmptyString)) by done.
    rewrite andb_false_r. simpl. by eexists.
Qed.

Lemma transplant_entry_skipped w (m : gmap string Par) key val :
  skipped w m key val → transplant_entry w m key val = m.
Proof.
  unfold transplant_entry. intros [Hm | (target & Hm & Hc)]; rewrite Hm; [done|].
  by rewrite Hc.
Qed.

Lemma transplant_app w key_of (m : gmap string Par) l1 l2 :
  transplant w key_of m (l1 ++ l2)
  = transplant w key_of (transplant w key_of m l1) l2.
Proof. unfold transplant. apply foldl_app. Qed.

(** C7.  Partial pretrained-load tolerance: when pretrained weights are to
    be loaded and their file is read, [load_pretrained] returns, whatever
    the entries, with the transplanted state and its summary line, for the
    encoder file as for the external checkpoint; an entry whose name is
    absent from the target, or whose copy raises, leaves the target as it
    is, and the loop goes on with the remaining entries as if the entry had
    not been there. *)
Theorem partial_load_tolerance a w m :
  pretrained a = true →
  (load_external_mod a = false →
   ∀ check, pretrained_encoder w = Some check →
     load_pretrained a w EmptyString m
     = Return (transplant w (encoder_key a) m check, [Printed LoadedPretrained])) ∧
  (load_external_mod a = true →
   ∀ best sd, external_mod w = Some (best, sd) →
     load_pretrained a w EmptyString m
     = Return (transplant w id m sd, [Printed (LoadedExternal best)])) ∧
  (∀ key val, skipped w m key val → transplant_entry w m key val = m) ∧
  (∀ key_of before name val after,
     skipped w (transplant w key_of m before) (key_of name) val →
     transplant w key_of m (before ++ (name, val) :: after)
     = transplant w key_of m (before ++ after)).
Proof.
  intros Hpre. split_and!.
  - intros Hext check Hcheck. unfold load_pretrained.
    rewrite Hpre, Hext, Hcheck. done.
  - intros Hext best sd Hsd. unfold load_pretrained.
    rewrite Hpre, Hext, Hsd. done.
  - intros key val. apply transplant_entry_skipped.
  - intros key_of before name val after Hskip.
    rewrite !transplant_app. unfold transplant at 1. simpl.
    by rewrite transplant_entry_skipped.
Qed.

End Trainer.

Section Disk.
Context {M Opt : Type} `{Listing}.
Implicit Types s : fs M Opt.

(** The directory that [save_checkpoint] leaves depends on the directory it
    finds, not on its earlier contents. *)
Lemma save_checkpoint_cur st f e s s' :
  cur s = cur s' →
  cur (save_checkpoint st f e s) = cur (save_checkpoint st f e s').
Proof.
  intros Hc. unfold save_checkpoint.
  set (s1 := fs_write _ _ s). set (s1' := fs_write _ _ s').
  assert (H1 : cur s1 = cur s1') by (subst s1 s1'; simpl; by rewrite Hc).
  clearbody s1 s1'.
  set (s3 := if f then _ else s1). set (s3' := if f then _ else s1').
  assert (H3 : cur s3 = cur s3').
  { subst s3 s3'. destruct f; [|done].
    set (s2 := if bool_decide _ then _ else s1).
    set (s2' := if bool_decide _ then _ else s1').
    assert (H2 : cur s2 = cur s2').
    { subst s2 s2'. case_bool_decide; [|done]. rewrite <- H1.
      destruct (glob_best (cur s1)); [done|]. simpl. by rewrite H1. }
    clearbody s2 s2'. unfold fs_copy. rewrite <- H2.
    destruct (cur s2 !! checkpoint_name e); [|done]. simpl. by rewrite H2. }
  clearbody s3 s3'. case_bool_decide; [|done]. rewrite <- H3.
  destruct (exists_ _ (cur s3)); [|done]. simpl. by rewrite H3.
Qed.

End Disk.

Section Trainer.
Context {Par Opt Sch : Type} `{Listing}.
Implicit Types w : world Par Opt Sch.
Implicit Types r : run Par Opt Sch.

Lemma epoch_body_same a w rA rB epoch rA' :
  memoryless_scheduler w → same_training rA rB →
  epoch_body a w rA epoch = Return rA' →
  ∃ rB' evs,
    epoch_body a w rB epoch = Return rB' ∧ same_training rA' rB' ∧
    log rA' = log rA ++ evs ∧ log rB' = log rB ++ evs.
Proof.
  intros Hmem (Hm & Ho & Hb & Hl & Hf) HA.
  destruct rA as [mA oA sA bA lA fA gA], rB as [mB oB sB bB lB fB gB].
  simpl in *. subst mB oB bB lB.
  unfold epoch_body in *. simpl in *.
  set (pre := match lr_policy a with Some _ => _ | None => _ end) in HA.
  set (pre' := match lr_policy a with Some _ => _ | None => _ end).
  assert (Hpre : pre.1.2 = pre'.1.2 ∧ pre.2 = pre'.2).
  { subst pre pre'. destruct (lr_policy a) as [p|]; [|done].
    case_bool_decide; [|done].
    pose proof (Hmem sA sB oA None) as Hs.
    destruct (scheduler_step w sA oA None), (scheduler_step w sB oA None).
    simpl in *. by subst. }
  destruct pre as [[schA o0] evs0], pre' as [[schB o0'] evs0'].
  simpl in Hpre. destruct Hpre as [<- <-].
  apply bind_Return in HA as ([[m o] evs] & Htr & HA). rewrite Htr. simpl.
  apply bind_Return in HA as ([[[score score_1] losses] vevs] & Hv & HA).
  rewrite Hv. simpl.
  set (post := if bool_decide (lr_policy a = Some "plateau") then _ else _) in HA.
  set (post' := if bool_decide (lr_policy a = Some "plateau") then _ else _).
  assert (Hpost : post.1.2 = post'.1.2 ∧ post.2 = post'.2).
  { subst post post'. case_bool_decide; [|done].
    pose proof (Hmem schA schB o (Some score)) as Hs.
    destruct (scheduler_step w schA o _), (scheduler_step w schB o _).
    simpl in *. by subst. }
  destruct post as [[schA1 o1] evs1], post' as [[schB1 o1'] evs1'].
  simpl in Hpost. destruct Hpost as [<- <-].
  injection HA as <-.
  eexists _, evs1. split; [done|]. unfold same_training, save_state. simpl.
  split_and!; try done.
  apply save_checkpoint_cur. simpl. by rewrite Hf.
Qed.

Lemma epochs_same a w epochs rA rB rA' :
  memoryless_scheduler w → same_training rA rB →
  foldM (epoch_body a w) rA epochs = Return rA' →
  ∃ rB' evs,
    foldM (epoch_body a w) rB epochs = Return rB' ∧ same_training rA' rB' ∧
    log rA' = log rA ++ evs ∧ log rB' = log rB ++ evs.
Proof.
  intros Hmem. revert rA rB.
  induction epochs as [|e epochs IH]; intros rA rB Hsame HA; simpl in *.
  - injection HA as <-. exists rB, []. by rewrite !app_nil_r.
  - apply bind_Return in HA as (rA1 & H1 & HA).
    destruct (epoch_body_same a w rA rB e rA1 Hmem Hsame H1)
      as (rB1 & evs1 & -> & Hsame1 & HlA & HlB). simpl.
    destruct (IH rA1 rB1 Hsame1 HA) as (rB' & evs & -> & Hsame' & HlA' & HlB').
    exists rB', (evs1 ++ evs). split_and!; [done..| |].
    + by rewrite HlA', HlA, app_assoc.
    + by rewrite HlB', HlB, app_assoc.
Qed.

(** C5, amended.  Checkpoint round trip: the checkpoint that the trainer
    writes at the end of epoch E loads back with the epoch E + 1, the best
    epoch, the lowest score, the model state and the optimizer state it was
    written with, and a resumed [main] starts at epoch E + 1 from exactly
    these; its scheduler, however, is the freshly built one.  When the
    effect of the scheduler on the optimizer does not depend on what the
    scheduler remembers, the resumed run logs, epoch after epoch, the same
    events, hence the same loss values, as the run that was not
    interrupted. *)
Theorem checkpoint_round_trip a w r0 E r1 :
  epoch_body a w r0 E = Return r1 →
  test_mode a = false → evaluate a = false →
  no_cuda a || cuda_available w = true →
  (∃ c, torch_load (checkpoint_name E) (cur (files r1)) = Return c ∧
        ck_epoch c = (E + 1)%Z ∧ ck_best_epoch c = best_epoch r1 ∧
        ck_loss c = lowest_loss r1 ∧ ck_state_dict c = model r1 ∧
        ck_optimizer c = optimizer r1) ∧
  ∃ r2,
    startup a w (cur (files r1)) = Return (r2, (E + 1)%Z) ∧
    model r2 = model r1 ∧ optimizer r2 = optimizer r1 ∧
    best_epoch r2 = best_epoch r1 ∧ lowest_loss r2 = lowest_loss r1 ∧
    scheduler r2 = (define_scheduler w (define_optim w (define_model w))).1 ∧
    (memoryless_scheduler w →
     ∀ epochs rU,
       foldM (epoch_body a w) r1 epochs = Return rU →
       ∃ rR evs,
         foldM (epoch_body a w) r2 epochs = Return rR ∧
         log rU = log r1 ++ evs ∧ log rR = log r2 ++ evs).
Proof.
  intros Hr Htest Heval Hcuda.
  destruct (epoch_body_files a w r0 E r1 Hr)
    as (Hmark & c & Hc & He & Hb & Hl & Hm & Ho).
  split.
  - exists c. unfold torch_load. rewrite Hc. done.
  - pose proof (startup_loads_checkpoint a w (cur (files r1)) E c Hmark Htest
                  Heval Hcuda Hc) as Hstart.
    rewrite He in Hstart. eexists. split; [exact Hstart|]. simpl.
    split_and!; try done.
    intros Hmem epochs rU HU.
    edestruct (epochs_same a w epochs r1) as (rR & evs & HR & _ & HlU & HlR);
      [done| |done|].
    2:{ exists rR, evs. split_and!; [exact HR | done | exact HlR]. }
    unfold same_training. simpl. by split_and!.
Qed.

End Trainer.

Lemma foldM_app {A B : Type} (f : A → B → result A) (a : A) (l1 l2 : list B) :
  foldM f a (l1 ++ l2) = (foldM f a l1 ≫= λ a', foldM f a' l2).
Proof.
  revert a. induction l1 as [|x l1 IH]; intros a; simpl; [done|].
  destruct (f a x) as [e|a']; simpl; [done|]. apply IH.
Qed.

Lemma range_split (start k stop : Z) :
  (start ≤ k)%Z → (k ≤ stop)%Z →
  range start stop = range start k ++ range k stop.
Proof.
  intros H1 H2. unfold range.
  replace (stop - start)%Z with ((k - start) + (stop - k))%Z by lia.
  rewrite seqZ_app by lia. do 2 f_equal. lia.
Qed.

Lemma range_snoc (start k : Z) :
  (start ≤ k)%Z → range start (k + 1) = range start k ++ [k].
Proof.
  intros Hk. rewrite (range_split start k (k + 1)) by lia. f_equal.
  unfold range. replace (k + 1 - k)%Z with 1%Z by lia. done.
Qed.

Section Disk.
Context {M Opt : Type} `{Listing}.
Implicit Types s : fs M Opt.

(** The copy of a best epoch is on disk when [save_checkpoint] returns. *)
Lemma save_checkpoint_lookup_best st e s :
  cur (save_checkpoint st true e s) !! best_name e = Some (Pickle st).
Proof.
  unfold save_checkpoint.
  set (s1 := fs_write _ _ s).
  assert (H1 : cur s1 !! checkpoint_name e = Some (Pickle st))
    by apply lookup_insert_eq.
  clearbody s1.
  set (s2 := if bool_decide _ then _ else s1).
  assert (H2 : cur s2 !! checkpoint_name e = Some (Pickle st)).
  { subst s2. case_bool_decide; [|done].
    destruct (glob_best (cur s1)) as [|g l] eqn:Hg; [done|]. simpl.
    rewrite lookup_delete_ne; [done|]. intros ->.
    apply glob_best_is_best in Hg.
    by rewrite checkpoint_name_not_best in Hg. }
  clearbody s2. unfold fs_copy. rewrite H2.
  set (s3 := fs_write _ _ s2).
  assert (H3 : cur s3 !! best_name e = Some (Pickle st))
    by apply lookup_insert_eq.
  clearbody s3. case_bool_decide; [|done].
  destruct (exists_ _ _); [|done]. simpl.
  rewrite lookup_delete_ne; [done|]. intros Heq.
  apply (f_equal is_best_file) in Heq.
  by rewrite best_name_is_best, checkpoint_name_not_best in Heq.
Qed.

End Disk.

Section Trainer.
Context {Par Opt Sch : Type} `{Listing}.
Implicit Types w : world Par Opt Sch.
Implicit Types r : run Par Opt Sch.

(** [main] interrupted after the checkpoint of epoch [E] and started again,
    against [main] left to run: the two log the same events from epoch
    [E + 1] on. *)
Lemma main_resumed a w d0 rS start E rU :
  memoryless_scheduler w →
  test_mode a = false → evaluate a = false →
  startup a w d0 = Return (rS, start) →
  (start ≤ E)%Z → (E < nepochs a)%Z →
  main a w d0 = Return rU →
  ∃ r1 rR evs,
    foldM (epoch_body a w) rS (range start (E + 1)) = Return r1 ∧
    main a w (cur (files r1)) = Return rR ∧
    log rU = log r1 ++ evs ∧
    log rR = [Printed (LoadingCheckpoint (str E));
              Printed (LoadedCheckpoint (str E) (E + 1))] ++ evs.
Proof.
  intros Hmem Htest Heval Hstart HsE HEn Hmain.
  assert (Hcuda : no_cuda a || cuda_available w = true).
  { unfold startup in Hstart.
    destruct (no_cuda a), (cuda_available w); done. }
  unfold main in Hmain. rewrite Hstart in Hmain. simpl in Hmain.
  apply bind_Return in Hmain as (rF & Hloop & Htb).
  destruct (no_tb a) eqn:Hnotb; [|done]. simpl in Htb. injection Htb as ->.
  rewrite (range_split start (E + 1) (nepochs a)) in Hloop by lia.
  rewrite foldM_app in Hloop.
  apply bind_Return in Hloop as (r1 & Hfirst & Hrest).
  pose proof Hfirst as Hlast.
  rewrite range_snoc, foldM_app in Hlast by done.
  apply bind_Return in Hlast as (r0 & _ & Hlast). simpl in Hlast.
  apply bind_Return in Hlast as (r1' & Hlast & [= ->]).
  destruct (epoch_body_files a w r0 E r1 Hlast)
    as (Hmark & c & Hc & He & Hb & Hl & Hm & Ho).
  pose proof (startup_loads_checkpoint a w (cur (files r1)) E c Hmark Htest
                Heval Hcuda Hc) as Hstart2.
  rewrite He in Hstart2.
  set (r2 := Run (ck_state_dict c) (ck_optimizer c)
               (define_scheduler w (define_optim w (define_model w))).1
               (ck_best_epoch c) (ck_loss c) (fs_init (cur (files r1)))
               [Printed (LoadingCheckpoint (str E));
                Printed (LoadedCheckpoint (str E) (E + 1))]) in Hstart2.
  assert (Hsame : same_training r1 r2).
  { unfold same_training. simpl. by split_and!. }
  destruct (epochs_same a w (range (E + 1) (nepochs a)) r1 r2 rU Hmem Hsame
              Hrest) as (rR & evs & HR & _ & HlU & HlR).
  exists r1, rR, evs. split_and!; [done| |done|exact HlR].
  unfold main. rewrite Hstart2. simpl. rewrite HR. simpl.
  by rewrite Hnotb.
Qed.

End Trainer.
End TrainerFacts.

(** ** More about SmoothEdgeLoss *)

Module LossMore.
Import SmoothEdgeLoss LossOps TensorFacts ScalarFacts LossFacts.
Local Open Scope Qc_scope.

(** *** Tensors that agree inside their shape *)

Lemma teq_dims t t' :
  teq t t' →
  dimB t = dimB t' ∧ dimC t = dimC t' ∧ dimH t = dimH t' ∧ dimW t = dimW t'.
Proof. intros [Hs _]. unfold shape in Hs. by simplify_eq. Qed.

Lemma teq_intro t t' :
  dimB t = dimB t' → dimC t = dimC t' → dimH t = dimH t' → dimW t = dimW t' →
  (∀ b c h w, (b < dimB t)%nat → (c < dimC t)%nat → (h < dimH t)%nat →
              (w < dimW t)%nat → at_ t b c h w = at_ t' b c h w) →
  teq t t'.
Proof. intros HB HC HH HW Hat. split; [|done]. unfold shape. congruence. Qed.

Lemma teq_refl t : teq t t.
Proof. by split. Qed.

Lemma teq_sym t t' : teq t t' → teq t' t.
Proof.
  intros Ht. destruct (teq_dims _ _ Ht) as (HB & HC & HH & HW).
  destruct Ht as [_ Hat]. apply teq_intro; try done.
  intros b c h w ? ? ? ?. symmetry. apply Hat; lia.
Qed.

Lemma teq_trans t1 t2 t3 : teq t1 t2 → teq t2 t3 → teq t1 t3.
Proof.
  intros H12 H23. destruct (teq_dims _ _ H12) as (HB & HC & HH & HW).
  destruct (teq_dims _ _ H23) as (HB' & HC' & HH' & HW').
  destruct H12 as [_ H12], H23 as [_ H23]. apply teq_intro; try congruence.
  intros b c h w ? ? ? ?. rewrite H12 by done. apply H23; lia.
Qed.

Lemma teq_telems t t' : teq t t' → telems t = telems t'.
Proof.
  intros Ht. destruct (teq_dims _ _ Ht) as (HB & HC & HH & HW).
  destruct Ht as [_ Hat]. unfold telems, tindices.
  rewrite <- HB, <- HC, <- HH, <- HW.
  apply list_fmap_ext. intros i [[[b c] h] w] Hi%list_elem_of_lookup_2.
  apply elem_of_indices in Hi. simpl. apply Hat; lia.
Qed.

Lemma teq_tmean t t' : teq t t' → tmean t = tmean t'.
Proof. intros Ht. unfold tmean. by rewrite (teq_telems t t'). Qed.

Lemma teq_tmin t t' : teq t t' → tmin t = tmin t'.
Proof. intros Ht. unfold tmin. by rewrite (teq_telems t t'). Qed.

Lemma teq_tmax t t' : teq t t' → tmax t = tmax t'.
Proof. intros Ht. unfold tmax. by rewrite (teq_telems t t'). Qed.

Lemma teq_tmap f t t' : teq t t' → teq (tmap f t) (tmap f t').
Proof.
  intros Ht. destruct (teq_dims _ _ Ht) as (HB & HC & HH & HW).
  destruct Ht as [_ Hat]. apply teq_intro; try done.
  intros b c h w ? ? ? ?. simpl in *. by rewrite Hat.
Qed.

Lemma teq_tzip f x x' y y' :
  teq x x' → teq y y' → oteq (tzip f x y) (tzip f x' y').
Proof.
  intros Hx Hy.
  destruct (teq_dims _ _ Hx) as (HB & HC & HH & HW).
  destruct (teq_dims _ _ Hy) as (HB' & HC' & HH' & HW').
  destruct Hx as [_ Hx], Hy as [_ Hy].
  unfold tzip. rewrite <- HB, <- HC, <- HH, <- HW, <- HB', <- HC', <- HH', <- HW'.
  destruct (bdim (dimB x) (dimB y)) as [B|] eqn:EB; [|constructor].
  destruct (bdim (dimC x) (dimC y)) as [C|] eqn:EC; [|constructor].
  destruct (bdim (dimH x) (dimH y)) as [H|] eqn:EH; [|constructor].
  destruct (bdim (dimW x) (dimW y)) as [W|] eqn:EW; [|constructor].
  simpl. constructor. apply teq_intro; try done.
  intros b c h w Hb Hc Hh Hw. simpl in *.
  destruct (bdim_idx _ _ _ b EB Hb), (bdim_idx _ _ _ c EC Hc),
    (bdim_idx _ _ _ h EH Hh), (bdim_idx _ _ _ w EW Hw).
  by rewrite Hx, Hy.
Qed.

Lemma teq_mean_c t t' : teq t t' → teq (mean_c t) (mean_c t').
Proof.
  intros Ht. destruct (teq_dims _ _ Ht) as (HB & HC & HH & HW).
  destruct Ht as [_ Hat]. apply teq_intro; try done.
  intros b c h w ? ? ? ?. simpl in *. rewrite <- HC. f_equal.
  apply list_fmap_ext. intros i c' Hc'%list_elem_of_lookup_2.
  apply elem_of_seq in Hc'. apply Hat; lia.
Qed.

Lemma oteq_fmap (f : tensor → tensor) o o' :
  (∀ t t', teq t t' → teq (f t) (f t')) → oteq o o' → oteq (f <$> o) (f <$> o').
Proof. intros Hf [t t' Ht|]; simpl; constructor. by apply Hf. Qed.

Lemma oteq_bind (f : tensor → option tensor) o o' :
  (∀ t t', teq t t' → oteq (f t) (f t')) → oteq o o' → oteq (o ≫= f) (o' ≫= f).
Proof. intros Hf [t t' Ht|]; simpl; [by apply Hf | constructor]. Qed.

Lemma teq_minmax g g' : teq g g' → oteq (minmax g) (minmax g').
Proof.
  intros Hg. unfold minmax. rewrite (teq_tmin g g'), (teq_tmax g g') by done.
  destruct (tmin g') as [mn|]; [|constructor].
  destruct (tmax g') as [mx|]; [|constructor]. simpl. constructor.
  by apply teq_tmap.
Qed.

Lemma teq_smooth_map gd gd' gi gi' :
  teq gd gd' → teq gi gi' → oteq (smooth_map gd gi) (smooth_map gd' gi').
Proof.
  intros Hd Hi. unfold smooth_map.
  pose proof (teq_tzip smax _ _ _ _ (teq_tmap (λ _, Fin 0) _ _ Hd)
                (teq_tmap (λ g, ssub g alpha) _ _ Hd)) as Hf.
  destruct Hf as [f f' Hf|]; simpl; [|constructor].
  apply teq_tzip; [done | by apply teq_tmap].
Qed.

Lemma teq_edge_map gd gd' gs gs' :
  teq gd gd' → teq gs gs' → oteq (edge_map gd gs) (edge_map gd' gs').
Proof.
  intros Hd Hs. unfold edge_map.
  pose proof (teq_tzip smax _ _ _ _ (teq_tmap (λ _, Fin 0) _ _ Hd)
                (teq_tmap (λ g, ssub beta g) _ _ Hd)) as Hf.
  destruct Hf as [f f' Hf|]; simpl; [|constructor].
  by apply teq_tzip.
Qed.

(** The loss is a function of the six gradient maps, read inside their
    shapes only. *)
Lemma forward_congr d d' img img' seg seg' :
  oteq (abs_grad_x d) (abs_grad_x d') → oteq (abs_grad_y d) (abs_grad_y d') →
  oteq (grad_seg_x seg) (grad_seg_x seg') → oteq (grad_seg_y seg) (grad_seg_y seg') →
  oteq (grad_img_x img) (grad_img_x img') → oteq (grad_img_y img) (grad_img_y img') →
  forward d img seg = forward d' img' seg'.
Proof.
  intros Hdx Hdy Hsx Hsy Hix Hiy. unfold forward, forward_maps.
  destruct Hdx as [gdx gdx' Hdx|]; [|done].
  destruct Hdy as [gdy gdy' Hdy|]; [|done].
  destruct Hsx as [gsx gsx' Hsx|]; [|done].
  destruct Hsy as [gsy gsy' Hsy|]; [|done].
  destruct Hix as [gix gix' Hix|]; [|done].
  destruct Hiy as [giy giy' Hiy|]; [|done]. simpl.
  destruct (teq_smooth_map _ _ _ _ Hdx Hix) as [sx sx' Hsmx|]; [|done].
  destruct (teq_smooth_map _ _ _ _ Hdy Hiy) as [sy sy' Hsmy|]; [|done].
  destruct (teq_edge_map _ _ _ _ Hdx Hsx) as [ex ex' Hex|]; [|done].
  destruct (teq_edge_map _ _ _ _ Hdy Hsy) as [ey ey' Hey|]; [|done]. simpl.
  by rewrite (teq_tmean sx sx'), (teq_tmean sy sy'), (teq_tmean ex ex'),
    (teq_tmean ey ey').
Qed.

Lemma oteq_refl o : oteq o o.
Proof. destruct o; constructor. apply teq_refl. Qed.

(** *** Scaling and shifting *)

Ltac qc_nra :=
  repeat match goal with
         | H : @eq Qc _ _ |- _ => apply Qc_eq_Qeq in H
         | H : ¬ @eq Qc _ _ |- _ => rewrite Qc_eq_Qeq in H
         | |- @eq Qc _ _ => apply Qc_eq_Qeq
         | |- ¬ @eq Qc _ _ => rewrite Qc_eq_Qeq
         end;
  unfold Qclt, Qcle, Qcminus, Qcplus, Qcopp, Qcmult, Q2Qc in *; simpl in *;
  rewrite ?Qred_correct in *; nra.

Lemma Qc_scale_le (a b k : Qc) : 0 < k → a * k ≤ b * k ↔ a ≤ b.
Proof. intros Hk. split; intros H; qc_nra. Qed.

Lemma Qc_scale_nonneg (a k : Qc) : 0 < k → 0 ≤ a * k ↔ 0 ≤ a.
Proof. intros Hk. split; intros H; qc_nra. Qed.

Lemma Qc_scale_pos (a k : Qc) : 0 < k → 0 < a * k ↔ 0 < a.
Proof. intros Hk. split; intros H; qc_nra. Qed.

Lemma Qc_scale_eq0 (a k : Qc) : 0 < k → a * k = 0 ↔ a = 0.
Proof. intros Hk. split; intros H; qc_nra. Qed.

Lemma sabs_ssub_scale a b k :
  0 < k →
  sabs (ssub (smul (Fin a) (Fin k)) (smul (Fin b) (Fin k)))
  = smul (sabs (ssub (Fin a) (Fin b))) (Fin k).
Proof.
  intros Hk. simpl. f_equal.
  assert (E : a * k + - (b * k) = (a + - b) * k) by ring. rewrite E.
  destruct (decide (0 ≤ a + - b)) as [Hs|Hs].
  - rewrite decide_True; [done|]. by apply Qc_scale_nonneg.
  - rewrite decide_False; [ring|]. by rewrite Qc_scale_nonneg.
Qed.

Lemma norm_scale q m M k :
  0 < k →
  sdiv (ssub (Fin (q * k)) (Fin (m * k))) (ssub (Fin (M * k)) (Fin (m * k)))
  = sdiv (ssub (Fin q) (Fin m)) (ssub (Fin M) (Fin m)).
Proof.
  intros Hk. simpl.
  assert (E1 : q * k + - (m * k) = (q + - m) * k) by ring.
  assert (E2 : M * k + - (m * k) = (M + - m) * k) by ring.
  rewrite E1, E2.
  destruct (decide (M + - m = 0)) as [Hz|Hz].
  - rewrite (decide_True (P := (M + - m) * k = 0)) by by apply Qc_scale_eq0.
    destruct (decide (q + - m = 0)) as [Hq|Hq].
    + rewrite decide_True; [done|]. by apply Qc_scale_eq0.
    + rewrite decide_False by by rewrite Qc_scale_eq0.
      destruct (decide (0 < q + - m)) as [Hp|Hp].
      * rewrite decide_True; [done|]. by apply Qc_scale_pos.
      * rewrite decide_False; [done|]. by rewrite Qc_scale_pos.
  - rewrite (decide_False (P := (M + - m) * k = 0)) by by rewrite Qc_scale_eq0.
    f_equal. field. split; [done|]. intros ->. by apply Qclt_not_eq in Hk.
Qed.

Lemma telems_tmap f t : telems (tmap f t) = f <$> telems t.
Proof.
  unfold telems, tindices. simpl. rewrite <- list_fmap_compose.
  apply list_fmap_ext. by intros i [[[b c] h] w] _.
Qed.

Lemma oteq_trans o1 o2 o3 : oteq o1 o2 → oteq o2 o3 → oteq o1 o3.
Proof.
  intros [t1 t2 H12|] H23; inversion H23; subst; constructor.
  by eapply teq_trans.
Qed.

Lemma teq_abs_grad_x t t' : teq t t' → oteq (abs_grad_x t) (abs_grad_x t').
Proof.
  intros Ht. unfold abs_grad_x. apply oteq_fmap; [apply teq_tmap|].
  destruct (teq_dims _ _ Ht) as (HB & HC & HH & HW). destruct Ht as [_ Hat].
  apply teq_tzip; apply teq_intro; simpl; try congruence;
    intros b c h w ? ? ? ?; apply Hat; lia.
Qed.

Lemma teq_abs_grad_y t t' : teq t t' → oteq (abs_grad_y t) (abs_grad_y t').
Proof.
  intros Ht. unfold abs_grad_y. apply oteq_fmap; [apply teq_tmap|].
  destruct (teq_dims _ _ Ht) as (HB & HC & HH & HW). destruct Ht as [_ Hat].
  apply teq_tzip; apply teq_intro; simpl; try congruence;
    intros b c h w ? ? ? ?; apply Hat; lia.
Qed.

Lemma teq_grad_x t t' :
  teq t t' → oteq (raw_grad_x t ≫= minmax) (raw_grad_x t' ≫= minmax).
Proof.
  intros Ht. apply oteq_bind; [apply teq_minmax|].
  apply oteq_fmap; [apply teq_mean_c | by apply teq_abs_grad_x].
Qed.

Lemma teq_grad_y t t' :
  teq t t' → oteq (raw_grad_y t ≫= minmax) (raw_grad_y t' ≫= minmax).
Proof.
  intros Ht. apply oteq_bind; [apply teq_minmax|].
  apply oteq_fmap; [apply teq_mean_c | by apply teq_abs_grad_y].
Qed.

(** Differences do not see a shift. *)
Lemma sabs_ssub_shift x y c :
  sabs (ssub (shift c x) (shift c y)) = sabs (ssub x y).
Proof.
  destruct x as [a| | |], y as [b| | |]; try done. simpl.
  assert (E : a + c + - (b + c) = a + - b) by ring. by rewrite E.
Qed.

Lemma abs_grad_x_shift c d : oteq (abs_grad_x (tmap (shift c) d)) (abs_grad_x d).
Proof.
  destruct (abs_grad_x_spec (tmap (shift c) d)) as (g' & -> & ? & ? & ? & ? & Hg').
  destruct (abs_grad_x_spec d) as (g & -> & ? & ? & ? & ? & Hg).
  constructor. apply teq_intro; simpl in *; try congruence.
  intros b c0 h w _ _ _ _. rewrite Hg', Hg. apply sabs_ssub_shift.
Qed.

Lemma abs_grad_y_shift c d : oteq (abs_grad_y (tmap (shift c) d)) (abs_grad_y d).
Proof.
  destruct (abs_grad_y_spec (tmap (shift c) d)) as (g' & -> & ? & ? & ? & ? & Hg').
  destruct (abs_grad_y_spec d) as (g & -> & ? & ? & ? & ? & Hg).
  constructor. apply teq_intro; simpl in *; try congruence.
  intros b c0 h w _ _ _ _. rewrite Hg', Hg. apply sabs_ssub_shift.
Qed.

Lemma fmap_eq_elem {A B : Type} (f g : A → B) (l : list A) x :
  f <$> l = g <$> l → x ∈ l → f x = g x.
Proof.
  induction l as [|i l IH]; [by intros _ ?%elem_of_nil|].
  rewrite !fmap_cons. intros [= Hi Hl] [-> | Hin]%elem_of_cons; [done|].
  by apply IH.
Qed.

(** Tensors of the same shape with the same entries, in order. *)
Lemma teq_of_telems t t' :
  shape t = shape t' → telems t = telems t' → teq t t'.
Proof.
  intros Hs He. split; [done|]. intros b c h w Hb Hc Hh Hw.
  unfold telems, tindices in He. unfold shape in Hs.
  replace (indices (dimB t') (dimC t') (dimH t') (dimW t'))
    with (indices (dimB t) (dimC t) (dimH t) (dimW t)) in He by congruence.
  apply (fmap_eq_elem _ _ _ (b, c, h, w) He). by apply elem_of_indices.
Qed.

(** X4.  Only the classes 5 and 7 count: two segmentations of the same shape
    whose foregrounds ([segGt] where it is 5 or 7, else 0) hold the same
    entries give the same result of [forward], so every other label can be
    replaced by any label other than 5 and 7. *)
Theorem background_labels_irrelevant depthPred img segGt segGt' :
  shape segGt = shape segGt' →
  telems (tmap foreground segGt) = telems (tmap foreground segGt') →
  forward depthPred img segGt = forward depthPred img segGt'.
Proof.
  intros Hs Hfg.
  assert (Ht : teq (tmap foreground segGt) (tmap foreground segGt')).
  { apply teq_of_telems; [|done]. unfold shape in *. simpl. done. }
  apply forward_congr; try apply oteq_refl.
  - by apply teq_grad_x.
  - by apply teq_grad_y.
Qed.

Lemma foldl_sadd_scale k l a :
  Forall (λ x, is_fin x = true) l →
  foldl sadd (Fin (a * k)) (scale k <$> l) = scale k (foldl sadd (Fin a) l).
Proof.
  intros Hl. revert a. induction Hl as [|x l Hx _ IH]; intros a; [done|].
  destruct x as [q| | |]; try done. simpl.
  rewrite <- IH. do 2 f_equal. ring.
Qed.

Lemma smean_scale k l :
  l ≠ [] → Forall (λ x, is_fin x = true) l →
  smean (scale k <$> l) = scale k (smean l).
Proof.
  intros Hne Hl. unfold smean, ssum.
  assert (E : (0 : Qc) = 0 * k) by ring. rewrite E at 1.
  rewrite foldl_sadd_scale by done. rewrite length_fmap.
  destruct (foldl_sadd_fin l 0 Hl) as [s ->]. unfold of_nat, of_Z. simpl.
  assert (Hn : Qc_of_Z (Z.of_nat (length l)) ≠ 0).
  { apply Qc_of_nat_ne_0. destruct l; [done | simpl; lia]. }
  rewrite !decide_False by done. simpl. f_equal. by field.
Qed.

Lemma foldl_smin_scale k l a :
  0 < k → Forall (λ x, is_fin x = true) l →
  foldl smin (Fin (a * k)) (scale k <$> l) = scale k (foldl smin (Fin a) l).
Proof.
  intros Hk Hl. revert a. induction Hl as [|x l Hx _ IH]; intros a; [done|].
  destruct x as [q| | |]; try done. simpl.
  rewrite <- IH. do 2 f_equal.
  destruct (decide (a ≤ q)) as [Hle|Hle].
  - rewrite decide_True; [done|]. by apply Qc_scale_le.
  - rewrite decide_False; [done|]. by rewrite Qc_scale_le.
Qed.

Lemma foldl_smax_scale k l a :
  0 < k → Forall (λ x, is_fin x = true) l →
  foldl smax (Fin (a * k)) (scale k <$> l) = scale k (foldl smax (Fin a) l).
Proof.
  intros Hk Hl. revert a. induction Hl as [|x l Hx _ IH]; intros a; [done|].
  destruct x as [q| | |]; try done. simpl.
  rewrite <- IH. do 2 f_equal.
  destruct (decide (a ≤ q)) as [Hle|Hle].
  - rewrite decide_True; [done|]. by apply Qc_scale_le.
  - rewrite decide_False; [done|]. by rewrite Qc_scale_le.
Qed.

Lemma tall_Forall p t : tall p t = true ↔ Forall (λ x, p x = true) (telems t).
Proof.
  unfold tall. rewrite forallb_forall, Forall_forall.
  split; intros Hall x Hx; apply Hall; by apply list_elem_of_In.
Qed.

Lemma minmax_scale k g :
  0 < k → tall is_fin g = true → oteq (minmax (tmap (scale k) g)) (minmax g).
Proof.
  intros Hk Hfin. unfold minmax, tmin, tmax. rewrite telems_tmap.
  apply tall_Forall in Hfin as Hall.
  destruct (telems g) as [|x l] eqn:El; [constructor|].
  apply Forall_cons in Hall as [Hx Hl].
  destruct x as [a| | |]; try done. rewrite fmap_cons.
  change (scale k (Fin a)) with (Fin (a * k)). cbn [mbind option_bind].
  rewrite !(foldl_smin_scale k l a), !(foldl_smax_scale k l a) by done.
  destruct (foldl_smin_fin l a Hl) as (m & -> & _).
  destruct (foldl_smax_fin l a Hl) as (M & -> & _). simpl.
  constructor. apply teq_intro; try done.
  intros b c h w Hb Hc Hh Hw. simpl in *.
  rewrite tall_spec in Hfin. specialize (Hfin b c h w Hb Hc Hh Hw).
  destruct (at_ g b c h w) as [q| | |]; try done.
  unfold scale at 1. cbn [smul]. by apply norm_scale.
Qed.

Lemma mean_c_scale k g :
  (0 < dimC g)%nat → tall is_fin g = true →
  teq (mean_c (tmap (scale k) g)) (tmap (scale k) (mean_c g)).
Proof.
  intros HC Hfin. apply teq_intro; try done.
  intros b c h w Hb _ Hh Hw. simpl in *.
  rewrite (list_fmap_compose (λ c0, at_ g b c0 h w) (scale k)).
  apply smean_scale.
  - destruct (dimC g); [lia | done].
  - apply Forall_fmap, Forall_forall. intros c' Hc'%elem_of_seq. simpl.
    rewrite tall_spec in Hfin. apply Hfin; lia.
Qed.

Lemma abs_grad_x_scale k t :
  0 < k → tall is_fin t = true →
  ∃ g g', abs_grad_x t = Some g ∧ abs_grad_x (tmap (scale k) t) = Some g' ∧
          teq g' (tmap (scale k) g) ∧ tall is_fin g = true.
Proof.
  intros Hk Hfin.
  destruct (abs_grad_x_spec (tmap (scale k) t)) as (g' & Hg' & ? & ? & ? & ? & Hat').
  destruct (abs_grad_x_spec t) as (g & Hg & ? & ? & ? & ? & Hat).
  exists g, g'. split_and!; try done.
  - apply teq_intro; simpl in *; try congruence.
    intros b c h w Hb Hc Hh Hw. rewrite Hat', Hat. simpl.
    rewrite tall_spec in Hfin.
    pose proof (Hfin b c h w) as Hp. pose proof (Hfin b c h (S w)) as Hn.
    destruct (at_ t b c h w) as [x| | |]; [|by discriminate Hp; lia..].
    destruct (at_ t b c h (S w)) as [y| | |]; [|by discriminate Hn; lia..].
    by apply sabs_ssub_scale.
  - rewrite tall_spec in Hfin. apply tall_spec. intros b c h w ? ? ? ?.
    rewrite Hat. apply sabs_ssub_fin; apply Hfin; lia.
Qed.

Lemma abs_grad_y_scale k t :
  0 < k → tall is_fin t = true →
  ∃ g g', abs_grad_y t = Some g ∧ abs_grad_y (tmap (scale k) t) = Some g' ∧
          teq g' (tmap (scale k) g) ∧ tall is_fin g = true.
Proof.
  intros Hk Hfin.
  destruct (abs_grad_y_spec (tmap (scale k) t)) as (g' & Hg' & ? & ? & ? & ? & Hat').
  destruct (abs_grad_y_spec t) as (g & Hg & ? & ? & ? & ? & Hat).
  exists g, g'. split_and!; try done.
  - apply teq_intro; simpl in *; try congruence.
    intros b c h w Hb Hc Hh Hw. rewrite Hat', Hat. simpl.
    rewrite tall_spec in Hfin.
    pose proof (Hfin b c h w) as Hp. pose proof (Hfin b c (S h) w) as Hn.
    destruct (at_ t b c h w) as [x| | |]; [|by discriminate Hp; lia..].
    destruct (at_ t b c (S h) w) as [y| | |]; [|by discriminate Hn; lia..].
    by apply sabs_ssub_scale.
  - rewrite tall_spec in Hfin. apply tall_spec. intros b c h w ? ? ? ?.
    rewrite Hat. apply sabs_ssub_fin; apply Hfin; lia.
Qed.

Lemma grad_img_x_scale k img :
  0 < k → (0 < dimC img)%nat → tall is_fin img = true →
  oteq (grad_img_x (tmap (scale k) img)) (grad_img_x img).
Proof.
  intros Hk HC Hfin. unfold grad_img_x, raw_grad_x.
  destruct (abs_grad_x_scale k img Hk Hfin) as (g & g' & Hg & -> & Hgg & Hgfin).
  rewrite Hg. simpl.
  destruct (abs_grad_x_spec img) as (g0 & Hg0 & _ & HC0 & _). simplify_eq.
  eapply oteq_trans; [apply teq_minmax, teq_mean_c, Hgg|].
  eapply oteq_trans; [apply teq_minmax, mean_c_scale; [lia | done]|].
  apply minmax_scale; [done|]. apply mean_c_fin; [lia | done].
Qed.

Lemma grad_img_y_scale k img :
  0 < k → (0 < dimC img)%nat → tall is_fin img = true →
  oteq (grad_img_y (tmap (scale k) img)) (grad_img_y img).
Proof.
  intros Hk HC Hfin. unfold grad_img_y, raw_grad_y.
  destruct (abs_grad_y_scale k img Hk Hfin) as (g & g' & Hg & -> & Hgg & Hgfin).
  rewrite Hg. simpl.
  destruct (abs_grad_y_spec img) as (g0 & Hg0 & _ & HC0 & _). simplify_eq.
  eapply oteq_trans; [apply teq_minmax, teq_mean_c, Hgg|].
  eapply oteq_trans; [apply teq_minmax, mean_c_scale; [lia | done]|].
  apply minmax_scale; [done|]. apply mean_c_fin; [lia | done].
Qed.

(** X3.  Scale invariance in the image: for a finite image with at least
    one channel, multiplying every entry by a positive constant does not
    change what [forward] returns, the min-max normalisation cancelling the
    factor; so the factor 255 that the training loop applies to
    [input[:, 2:]] has no effect on the loss (rounding apart). *)
Theorem image_scale_invariance depthPred img segGt k :
  0 < k → (0 < dimC img)%nat → tall is_fin img = true →
  forward depthPred (tmap (scale k) img) segGt = forward depthPred img segGt.
Proof.
  intros Hk HC Hfin. apply forward_congr; try apply oteq_refl.
  - by apply grad_img_x_scale.
  - by apply grad_img_y_scale.
Qed.

(** *** When [forward] returns *)

Lemma bdim_1_r n : bdim n 1 = Some n.
Proof. unfold bdim. repeat case_decide; congruence. Qed.

Lemma tzip_is_Some f x y :
  is_Some (tzip f x y) ↔
  is_Some (bdim (dimB x) (dimB y)) ∧ is_Some (bdim (dimC x) (dimC y)) ∧
  is_Some (bdim (dimH x) (dimH y)) ∧ is_Some (bdim (dimW x) (dimW y)).
Proof.
  unfold tzip.
  destruct (bdim (dimB x) (dimB y)); simpl; [|split; [intros [? ?]; done | intros ([? ?] & _); done]].
  destruct (bdim (dimC x) (dimC y)); simpl; [|split; [intros [? ?]; done | intros (_ & [? ?] & _); done]].
  destruct (bdim (dimH x) (dimH y)); simpl; [|split; [intros [? ?]; done | intros (_ & _ & [? ?] & _); done]].
  destruct (bdim (dimW x) (dimW y)); simpl; [|split; [intros [? ?]; done | intros (_ & _ & _ & [? ?]); done]].
  split; [by intros _; split_and!; eexists | by intros _; eexists].
Qed.

Lemma minmax_is_Some g : is_Some (minmax g) ↔ (0 < numel g)%nat.
Proof.
  rewrite <- telems_nonempty. unfold minmax, tmin, tmax.
  destruct (telems g); simpl; split; done.
Qed.

Lemma raw_grad_x_spec t :
  ∃ g, raw_grad_x t = Some g ∧ dimB g = dimB t ∧ dimC g = 1%nat ∧
       dimH g = dimH t ∧ dimW g = pred (dimW t).
Proof.
  unfold raw_grad_x.
  destruct (abs_grad_x_spec t) as (a & -> & ? & ? & ? & ? & _). simpl.
  by eexists.
Qed.

Lemma raw_grad_y_spec t :
  ∃ g, raw_grad_y t = Some g ∧ dimB g = dimB t ∧ dimC g = 1%nat ∧
       dimH g = pred (dimH t) ∧ dimW g = dimW t.
Proof.
  unfold raw_grad_y.
  destruct (abs_grad_y_spec t) as (a & -> & ? & ? & ? & ? & _). simpl.
  by eexists.
Qed.

Lemma grad_x_is_Some t :
  is_Some (raw_grad_x t ≫= minmax) ↔ (0 < dimB t ∧ 0 < dimH t ∧ 1 < dimW t)%nat.
Proof.
  destruct (raw_grad_x_spec t) as (g & -> & HB & HC & HH & HW). simpl.
  rewrite minmax_is_Some, numel_pos. lia.
Qed.

Lemma grad_y_is_Some t :
  is_Some (raw_grad_y t ≫= minmax) ↔ (0 < dimB t ∧ 1 < dimH t ∧ 0 < dimW t)%nat.
Proof.
  destruct (raw_grad_y_spec t) as (g & -> & HB & HC & HH & HW). simpl.
  rewrite minmax_is_Some, numel_pos. lia.
Qed.

Lemma grad_x_dims t g :
  raw_grad_x t ≫= minmax = Some g →
  dimB g = dimB t ∧ dimC g = 1%nat ∧ dimH g = dimH t ∧ dimW g = pred (dimW t).
Proof.
  destruct (raw_grad_x_spec t) as (r & -> & HB & HC & HH & HW). simpl.
  intros (? & ? & ? & ? & _)%minmax_dims. split_and!; congruence.
Qed.

Lemma grad_y_dims t g :
  raw_grad_y t ≫= minmax = Some g →
  dimB g = dimB t ∧ dimC g = 1%nat ∧ dimH g = pred (dimH t) ∧ dimW g = dimW t.
Proof.
  destruct (raw_grad_y_spec t) as (r & -> & HB & HC & HH & HW). simpl.
  intros (? & ? & ? & ? & _)%minmax_dims. split_and!; congruence.
Qed.

Lemma smooth_map_is_Some gd gi :
  dimC gi = 1%nat →
  is_Some (smooth_map gd gi) ↔
  is_Some (bdim (dimB gd) (dimB gi)) ∧ is_Some (bdim (dimH gd) (dimH gi)) ∧
  is_Some (bdim (dimW gd) (dimW gi)).
Proof.
  intros HC. unfold smooth_map.
  destruct (tzip smax _ _) as [f|] eqn:Hf.
  - apply tzip_Some in Hf as (HB & HC' & HH & HW & _). simpl in *.
    rewrite bdim_same in HB, HC', HH, HW. simplify_eq.
    rewrite tzip_is_Some. simpl. rewrite <- HB, <- HC', <- HH, <- HW, HC, bdim_1_r.
    split; [intros (? & _ & ? & ?); done | intros (? & ? & ?); split_and!; by eauto].
  - exfalso. assert (Hs : is_Some (tzip smax (tmap (λ _, Fin 0) gd) (tmap (λ g, ssub g alpha) gd))).
    { apply tzip_is_Some. simpl. rewrite !bdim_same. split_and!; by eexists. }
    rewrite Hf in Hs. by destruct Hs.
Qed.

Lemma edge_map_is_Some gd gs :
  dimC gs = 1%nat →
  is_Some (edge_map gd gs) ↔
  is_Some (bdim (dimB gd) (dimB gs)) ∧ is_Some (bdim (dimH gd) (dimH gs)) ∧
  is_Some (bdim (dimW gd) (dimW gs)).
Proof.
  intros HC. unfold edge_map.
  destruct (tzip smax _ _) as [f|] eqn:Hf.
  - apply tzip_Some in Hf as (HB & HC' & HH & HW & _). simpl in *.
    rewrite bdim_same in HB, HC', HH, HW. simplify_eq.
    rewrite tzip_is_Some. simpl. rewrite <- HB, <- HC', <- HH, <- HW, HC, bdim_1_r.
    split; [intros (? & _ & ? & ?); done | intros (? & ? & ?); split_and!; by eauto].
  - exfalso. assert (Hs : is_Some (tzip smax (tmap (λ _, Fin 0) gd) (tmap (λ g, ssub beta g) gd))).
    { apply tzip_is_Some. simpl. rewrite !bdim_same. split_and!; by eexists. }
    rewrite Hf in Hs. by destruct Hs.
Qed.

Lemma forward_is_Some_maps d img seg :
  is_Some (forward d img seg) ↔ is_Some (forward_maps d img seg).
Proof.
  unfold forward. destruct (forward_maps d img seg); simpl; split; done.
Qed.


(** *** NaN and sign of the loss *)

Lemma foldl_sadd_NaN l : foldl sadd NaN l = NaN.
Proof. induction l as [|x l IH]; [done|]. simpl. done. Qed.

Lemma foldl_sadd_has_NaN l a : NaN ∈ l → foldl sadd a l = NaN.
Proof.
  revert a. induction l as [|x l IH]; intros a; [by intros ?%elem_of_nil|].
  intros [<- | Hin]%elem_of_cons; simpl.
  - destruct a; simpl; apply foldl_sadd_NaN.
  - by apply IH.
Qed.

Lemma smean_all_NaN l : Forall (λ x, x = NaN) l → smean l = NaN.
Proof.
  intros Hl. unfold smean, ssum. destruct Hl as [|x l -> Hl]; [done|].
  rewrite foldl_sadd_has_NaN by by left. done.
Qed.

Lemma tmean_all_NaN t : tall is_nan t = true → tmean t = NaN.
Proof.
  intros Ht. apply smean_all_NaN. apply tall_Forall in Ht.
  eapply Forall_impl; [done|]. by intros [].
Qed.

Lemma foldl_sadd_nonneg l a :
  0 ≤ a → Forall (λ x, nonneg x = true) l →
  ∃ s, foldl sadd (Fin a) l = Fin s ∧ 0 ≤ s.
Proof.
  intros Ha Hl. revert a Ha. induction Hl as [|x l Hx _ IH]; intros a Ha.
  - by exists a.
  - destruct x as [q| | |]; try done. simpl.
    apply IH. unfold nonneg in Hx. simpl in Hx.
    apply andb_true_iff in Hx as [Hq%bool_decide_eq_true_1 _]. qc_lra.
Qed.

Lemma smean_nonneg l :
  Forall (λ x, nonneg x = true) l → nan_or_nonneg (smean l).
Proof.
  intros Hl. unfold smean, ssum. destruct l as [|x l]; [by left|].
  destruct (foldl_sadd_nonneg (x :: l) 0 (Qcle_refl 0) Hl) as (s & -> & Hs).
  unfold of_nat, of_Z. cbn [sdiv].
  - right. rewrite decide_False by (apply Qc_of_nat_ne_0; simpl; lia).
    eexists. split; [done|]. unfold Qcdiv.
    apply Qcmult_nonneg_nonneg; [done|].
    apply Qclt_le_weak, Qcinv_pos.
    assert (0 < Z.of_nat (length (x :: l)))%Z by (simpl; lia).
    unfold Qclt. simpl. unfold Qlt. simpl. lia.
Qed.

Lemma tmean_nonneg t : tall nonneg t = true → nan_or_nonneg (tmean t).
Proof. intros Ht. apply smean_nonneg. by apply tall_Forall. Qed.

Lemma sadd_nan_or_nonneg x y :
  nan_or_nonneg x → nan_or_nonneg y → nan_or_nonneg (sadd x y).
Proof.
  intros [-> | (a & -> & Ha)] [-> | (b & -> & Hb)]; try by left.
  right. eexists. split; [done|]. qc_lra.
Qed.

Lemma smooth_factor_nonneg g : is_fin g = true → nonneg (smooth_factor g) = true.
Proof.
  destruct g as [q| | |]; try done. intros _.
  unfold smooth_factor, alpha, nonneg. simpl. rewrite andb_true_r.
  apply bool_decide_eq_true. case_decide; [done | apply Qcle_refl].
Qed.

Lemma edge_factor_nonneg g : is_fin g = true → nonneg (edge_factor g) = true.
Proof.
  destruct g as [q| | |]; try done. intros _.
  unfold edge_factor, beta, nonneg. simpl. rewrite andb_true_r.
  apply bool_decide_eq_true. case_decide; [done | apply Qcle_refl].
Qed.

Lemma smul_nonneg x y : nonneg x = true → nonneg y = true → nonneg (smul x y) = true.
Proof.
  destruct x as [a| | |], y as [b| | |]; try done. unfold nonneg. simpl.
  rewrite !andb_true_r. intros Ha%bool_decide_eq_true_1 Hb%bool_decide_eq_true_1.
  apply bool_decide_eq_true. by apply Qcmult_nonneg_nonneg.
Qed.

Lemma one_minus_unit x :
  in_unit x = true → is_fin x = true → nonneg (ssub (Fin 1) x) = true.
Proof.
  destruct x as [a| | |]; try done. unfold in_unit, nonneg. simpl.
  intros [_ H1%bool_decide_eq_true_1]%andb_true_iff _. rewrite andb_true_r.
  apply bool_decide_eq_true. qc_lra.
Qed.

Lemma unit_nonneg x : in_unit x = true → is_fin x = true → nonneg x = true.
Proof.
  unfold in_unit, nonneg. intros [H0 _]%andb_true_iff ->. by rewrite H0.
Qed.

(** The entries of a smoothness or edge map: NaN everywhere when the
    normalised map is, non-negative numbers when the normalised map lies in
    the unit interval. *)
Lemma smooth_map_NaN gd gi s :
  smooth_map gd gi = Some s → tall is_nan gi = true → tall is_nan s = true.
Proof.
  intros (HB & HC & HH & HW & Hat)%smooth_map_spec Hgi.
  rewrite tall_spec in Hgi. apply tall_spec. intros b c h w Hb Hc Hh Hw.
  rewrite Hat.
  destruct (bdim_idx _ _ _ b HB Hb), (bdim_idx _ _ _ c HC Hc),
    (bdim_idx _ _ _ h HH Hh), (bdim_idx _ _ _ w HW Hw).
  specialize (Hgi _ _ _ _ ltac:(done) ltac:(done) ltac:(done) ltac:(done)).
  destruct (at_ gi _ _ _ _); try done. simpl. by destruct (smooth_factor _).
Qed.

Lemma edge_map_NaN gd gs s :
  edge_map gd gs = Some s → tall is_nan gs = true → tall is_nan s = true.
Proof.
  intros (HB & HC & HH & HW & Hat)%edge_map_spec Hgs.
  rewrite tall_spec in Hgs. apply tall_spec. intros b c h w Hb Hc Hh Hw.
  rewrite Hat.
  destruct (bdim_idx _ _ _ b HB Hb), (bdim_idx _ _ _ c HC Hc),
    (bdim_idx _ _ _ h HH Hh), (bdim_idx _ _ _ w HW Hw).
  specialize (Hgs _ _ _ _ ltac:(done) ltac:(done) ltac:(done) ltac:(done)).
  destruct (at_ gs _ _ _ _); try done. simpl. by destruct (edge_factor _).
Qed.

Lemma smooth_map_nonneg gd gi s :
  smooth_map gd gi = Some s → tall is_fin gd = true →
  tall in_unit gi = true → tall is_fin gi = true → tall nonneg s = true.
Proof.
  intros (HB & HC & HH & HW & Hat)%smooth_map_spec Hgd Hu Hf.
  rewrite tall_spec in Hgd, Hu, Hf. apply tall_spec. intros b c h w Hb Hc Hh Hw.
  rewrite Hat.
  destruct (bdim_idx _ _ _ b HB Hb), (bdim_idx _ _ _ c HC Hc),
    (bdim_idx _ _ _ h HH Hh), (bdim_idx _ _ _ w HW Hw).
  apply smul_nonneg; [apply smooth_factor_nonneg | apply one_minus_unit]; auto.
Qed.

Lemma edge_map_nonneg gd gs s :
  edge_map gd gs = Some s → tall is_fin gd = true →
  tall in_unit gs = true → tall is_fin gs = true → tall nonneg s = true.
Proof.
  intros (HB & HC & HH & HW & Hat)%edge_map_spec Hgd Hu Hf.
  rewrite tall_spec in Hgd, Hu, Hf. apply tall_spec. intros b c h w Hb Hc Hh Hw.
  rewrite Hat.
  destruct (bdim_idx _ _ _ b HB Hb), (bdim_idx _ _ _ c HC Hc),
    (bdim_idx _ _ _ h HH Hh), (bdim_idx _ _ _ w HW Hw).
  apply smul_nonneg; [apply edge_factor_nonneg | apply unit_nonneg]; auto.
Qed.

Lemma abs_grad_x_fin t g :
  tall is_fin t = true → abs_grad_x t = Some g → tall is_fin g = true.
Proof.
  intros Ht Hg. destruct (abs_grad_x_spec t) as (a & ? & HB & HC & HH & HW & Hat).
  simplify_eq. rewrite tall_spec in Ht. apply tall_spec.
  intros b c h w ? ? ? ?. rewrite Hat. apply sabs_ssub_fin; apply Ht; lia.
Qed.

Lemma abs_grad_y_fin t g :
  tall is_fin t = true → abs_grad_y t = Some g → tall is_fin g = true.
Proof.
  intros Ht Hg. destruct (abs_grad_y_spec t) as (a & ? & HB & HC & HH & HW & Hat).
  simplify_eq. rewrite tall_spec in Ht. apply tall_spec.
  intros b c h w ? ? ? ?. rewrite Hat. apply sabs_ssub_fin; apply Ht; lia.
Qed.

Lemma sadd_NaN_r x : sadd x NaN = NaN.
Proof. by destruct x. Qed.

(** The loss as soon as one of the four maps is NaN everywhere. *)
Lemma forward_NaN d img seg m r :
  forward_maps d img seg = Some m → forward d img seg = Some r →
  tall is_nan (smoothX m) = true ∨ tall is_nan (smoothY m) = true ∨
  tall is_nan (edgeX m) = true ∨ tall is_nan (edgeY m) = true →
  r = NaN.
Proof.
  unfold forward. intros -> [= <-] [H | [H | [H | H]]];
    rewrite (tmean_all_NaN _ H); by rewrite ?sadd_NaN_r.
Qed.

(** A normalised map of a finite tensor: NaN everywhere, or finite in the
    unit interval. *)
Lemma grad_x_cases t g :
  (0 < dimC t)%nat → tall is_fin t = true → raw_grad_x t ≫= minmax = Some g →
  tall is_nan g = true ∨ (tall in_unit g = true ∧ tall is_fin g = true).
Proof.
  intros HC Ht Hg. destruct (raw_grad_x t) as [raw|] eqn:Hraw; [|done].
  simpl in Hg. pose proof (raw_grad_x_fin t raw HC Ht Hraw) as Hfin.
  pose proof (minmax_fin raw g Hfin Hg) as H.
  destruct (uniform raw); [by left | by right].
Qed.

Lemma grad_y_cases t g :
  (0 < dimC t)%nat → tall is_fin t = true → raw_grad_y t ≫= minmax = Some g →
  tall is_nan g = true ∨ (tall in_unit g = true ∧ tall is_fin g = true).
Proof.
  intros HC Ht Hg. destruct (raw_grad_y t) as [raw|] eqn:Hraw; [|done].
  simpl in Hg. pose proof (raw_grad_y_fin t raw HC Ht Hraw) as Hfin.
  pose proof (minmax_fin raw g Hfin Hg) as H.
  destruct (uniform raw); [by left | by right].
Qed.


(** X6.  A uniform gradient map poisons the loss: for a finite image, when
    one of the four gradient maps that [forward] normalises (image or
    foreground, horizontal or vertical) has its maximum equal to its
    minimum, the value that [forward] returns is NaN, whatever the depth
    prediction. *)
Theorem uniform_map_poisons_loss depthPred img segGt raw r :
  tall is_fin img = true → (0 < dimC img)%nat → (0 < dimC segGt)%nat →
  raw_grad_x (tmap foreground segGt) = Some raw ∨
  raw_grad_y (tmap foreground segGt) = Some raw ∨
  raw_grad_x img = Some raw ∨
  raw_grad_y img = Some raw →
  uniform raw = true →
  forward depthPred img segGt = Some r →
  r = NaN.
Proof.
  intros Himg HCi HCs Hraw Hu Hr.
  destruct (forward_maps depthPred img segGt) as [m|] eqn:Hm;
    [|by unfold forward in Hr; rewrite Hm in Hr].
  pose proof Hm as Hinv. apply forward_maps_inv in Hinv
    as (gdx & gdy & gsx & gsy & gix & giy & Hgdx & Hgdy & Hgsx & Hgsy &
        Hgix & Hgiy & Hsx & Hsy & Hex & Hey).
  unfold grad_seg_x, grad_seg_y, grad_img_x, grad_img_y in *.
  assert (Hnan : ∀ t g, (0 < dimC t)%nat → tall is_fin t = true →
            (raw_grad_x t = Some raw ∧ raw_grad_x t ≫= minmax = Some g) ∨
            (raw_grad_y t = Some raw ∧ raw_grad_y t ≫= minmax = Some g) →
            tall is_nan g = true).
  { intros t g HC Ht [[Hr1 Hg] | [Hr1 Hg]]; rewrite Hr1 in Hg; simpl in Hg.
    - pose proof (minmax_fin raw g (raw_grad_x_fin t raw HC Ht Hr1) Hg) as H.
      by rewrite Hu in H.
    - pose proof (minmax_fin raw g (raw_grad_y_fin t raw HC Ht Hr1) Hg) as H.
      by rewrite Hu in H. }
  eapply forward_NaN; [done..|].
  destruct Hraw as [H | [H | [H | H]]].
  - right; right; left. eapply edge_map_NaN; [done|].
    apply (Hnan (tmap foreground segGt)); [done | apply foreground_fin | by left].
  - right; right; right. eapply edge_map_NaN; [done|].
    apply (Hnan (tmap foreground segGt)); [done | apply foreground_fin | by right].
  - left. eapply smooth_map_NaN; [done|]. apply (Hnan img); [done.. | by left].
  - right; left. eapply smooth_map_NaN; [done|]. apply (Hnan img); [done.. | by right].
Qed.

Lemma smean_zeros l : l ≠ [] → Forall (λ x, x = Fin 0) l → smean l = Fin 0.
Proof.
  intros Hne Hl. unfold smean. rewrite ssum_zeros by done.
  unfold of_nat, of_Z. simpl.
  rewrite decide_False by (apply Qc_of_nat_ne_0; destruct l; [done | simpl; lia]).
  f_equal. unfold Qcdiv. apply Qcmult_0_l.
Qed.

Lemma sabs_ssub_same v : is_fin v = true → sabs (ssub v v) = Fin 0.
Proof. destruct v; try done. intros _. apply sabs_self. Qed.

Lemma zeros_uniform g :
  (∀ b c h w, (b < dimB g)%nat → (c < dimC g)%nat → (h < dimH g)%nat →
              (w < dimW g)%nat → at_ g b c h w = Fin 0) →
  tall is_fin g = true ∧ uniform g = true.
Proof.
  intros Hz.
  assert (Hfin : tall is_fin g = true).
  { apply tall_spec. intros b c h w ? ? ? ?. by rewrite Hz. }
  split; [done|]. unfold uniform. apply bool_decide_eq_true.
  destruct (decide (telems g = [])) as [Hnil | Hne].
  { unfold tmin, tmax. by rewrite Hnil. }
  destruct (tmin_tmax_fin g Hfin Hne) as (m & M & -> & -> & Hm & HM & _).
  apply elem_of_telems in Hm as (b & c & h & w & (? & ? & ? & ?) & Hm).
  apply elem_of_telems in HM as (b' & c' & h' & w' & (? & ? & ? & ?) & HM).
  rewrite Hz in Hm, HM by done. congruence.
Qed.

(** The gradient maps of a segmentation whose foreground is the same
    everywhere are zero. *)
Lemma flat_foreground_grad_x seg v raw :
  (0 < dimC seg)%nat →
  (∀ b c h w, (b < dimB seg)%nat → (c < dimC seg)%nat → (h < dimH seg)%nat →
              (w < dimW seg)%nat → foreground (at_ seg b c h w) = v) →
  raw_grad_x (tmap foreground seg) = Some raw →
  tall is_fin raw = true ∧ uniform raw = true.
Proof.
  intros HC Hv Hraw. apply zeros_uniform. unfold raw_grad_x in Hraw.
  destruct (abs_grad_x_spec (tmap foreground seg))
    as (g & Hg & HB & HC' & HH & HW & Hat).
  rewrite Hg in Hraw. injection Hraw as <-. simpl in *.
  intros b c h w Hb _ Hh Hw. apply smean_zeros.
  - rewrite HC'. destruct (dimC seg); [lia | done].
  - apply Forall_fmap, Forall_forall. intros c' Hc'%elem_of_seq. simpl.
    rewrite Hat, !Hv by lia. apply sabs_ssub_same.
    rewrite <- (Hv b c' h w) by lia. unfold foreground.
    destruct (_ || _) eqn:E; [|done].
    destruct (at_ seg b c' h w); try done.
Qed.

Lemma flat_foreground_grad_y seg v raw :
  (0 < dimC seg)%nat →
  (∀ b c h w, (b < dimB seg)%nat → (c < dimC seg)%nat → (h < dimH seg)%nat →
              (w < dimW seg)%nat → foreground (at_ seg b c h w) = v) →
  raw_grad_y (tmap foreground seg) = Some raw →
  tall is_fin raw = true ∧ uniform raw = true.
Proof.
  intros HC Hv Hraw. apply zeros_uniform. unfold raw_grad_y in Hraw.
  destruct (abs_grad_y_spec (tmap foreground seg))
    as (g & Hg & HB & HC' & HH & HW & Hat).
  rewrite Hg in Hraw. injection Hraw as <-. simpl in *.
  intros b c h w Hb _ Hh Hw. apply smean_zeros.
  - rewrite HC'. destruct (dimC seg); [lia | done].
  - apply Forall_fmap, Forall_forall. intros c' Hc'%elem_of_seq. simpl.
    rewrite Hat, !Hv by lia. apply sabs_ssub_same.
    rewrite <- (Hv b c' h w) by lia. unfold foreground.
    destruct (_ || _) eqn:E; [|done].
    destruct (at_ seg b c' h w); try done.
Qed.

Lemma flat_foreground_nan depthPred img segGt v r :
  (0 < dimC segGt)%nat →
  (∀ b c h w, (b < dimB segGt)%nat → (c < dimC segGt)%nat →
              (h < dimH segGt)%nat → (w < dimW segGt)%nat →
              foreground (at_ segGt b c h w) = v) →
  forward depthPred img segGt = Some r →
  r = NaN.
Proof.
  intros HC Hv Hr.
  destruct (forward_maps depthPred img segGt) as [m|] eqn:Hm;
    [|by unfold forward in Hr; rewrite Hm in Hr].
  pose proof Hm as Hinv. apply forward_maps_inv in Hinv
    as (gdx & gdy & gsx & gsy & gix & giy & Hgdx & Hgdy & Hgsx & Hgsy &
        Hgix & Hgiy & Hsx & Hsy & Hex & Hey).
  unfold grad_seg_x in Hgsx.
  destruct (raw_grad_x (tmap foreground segGt)) as [raw|] eqn:Hraw; [|done].
  simpl in Hgsx.
  destruct (flat_foreground_grad_x segGt v raw HC Hv Hraw) as [Hfin Hu].
  pose proof (minmax_fin raw gsx Hfin Hgsx) as Hn. rewrite Hu in Hn.
  eapply forward_NaN; [done..|]. right; right; left.
  by eapply edge_map_NaN.
Qed.

(** Without foreground, the foreground is 0 everywhere. *)
Lemma background_foreground segGt b c h w :
  tall is_background segGt = true →
  (b < dimB segGt)%nat → (c < dimC segGt)%nat → (h < dimH segGt)%nat →
  (w < dimW segGt)%nat → foreground (at_ segGt b c h w) = Fin 0.
Proof.
  intros Hno Hb Hc Hh Hw. rewrite tall_spec in Hno.
  specialize (Hno b c h w Hb Hc Hh Hw). unfold is_background in Hno.
  unfold foreground. by destruct (_ || _).
Qed.

(** X7.  A segmentation without foreground: when no entry of [segGt] is 5 or
    7 (and [segGt] has a channel), the value that [forward] returns is NaN,
    whatever the depth prediction and the image. *)
Theorem no_foreground_loss_nan depthPred img segGt r :
  (0 < dimC segGt)%nat → tall is_background segGt = true →
  forward depthPred img segGt = Some r →
  r = NaN.
Proof.
  intros HC Hno Hr.
  destruct (forward_maps depthPred img segGt) as [m|] eqn:Hm;
    [|by unfold forward in Hr; rewrite Hm in Hr].
  pose proof Hm as Hinv. apply forward_maps_inv in Hinv
    as (gdx & gdy & gsx & gsy & gix & giy & Hgdx & Hgdy & Hgsx & Hgsy &
        Hgix & Hgiy & Hsx & Hsy & Hex & Hey).
  unfold grad_seg_y in Hgsy.
  destruct (raw_grad_y (tmap foreground segGt)) as [raw|] eqn:Hraw; [|done].
  simpl in Hgsy.
  destruct (flat_foreground_grad_y segGt (Fin 0) raw HC) as [Hfin Hu];
    [intros; by apply background_foreground | done |].
  pose proof (minmax_fin raw gsy Hfin Hgsy) as Hn. rewrite Hu in Hn.
  eapply forward_NaN; [done..|]. right; right; right.
  by eapply edge_map_NaN.
Qed.

Lemma sadd_nan_or_pos_l x y :
  nan_or_pos x → nan_or_nonneg y → nan_or_pos (sadd x y).
Proof.
  intros [-> | (a & -> & Ha)] [-> | (b & -> & Hb)]; try by left.
  right. eexists. split; [done|]. qc_lra.
Qed.

Lemma sadd_nan_or_pos_r x y :
  nan_or_nonneg x → nan_or_pos y → nan_or_pos (sadd x y).
Proof.
  intros [-> | (a & -> & Ha)] [-> | (b & -> & Hb)]; try by left.
  right. eexists. split; [done|]. qc_lra.
Qed.

Lemma foldl_sadd_lower l a :
  Forall (λ x, nonneg x = true) l →
  ∃ s, foldl sadd (Fin a) l = Fin s ∧ a ≤ s ∧ ∀ e, Fin e ∈ l → a + e ≤ s.
Proof.
  intros Hl. revert a. induction Hl as [|x l Hx _ IH]; intros a.
  - exists a. split_and!; [done | apply Qcle_refl | by intros e ?%elem_of_nil].
  - destruct x as [q| | |]; try done. simpl.
    unfold nonneg in Hx. simpl in Hx.
    apply andb_true_iff in Hx as [Hq%bool_decide_eq_true_1 _].
    destruct (IH (a + q)) as (s & -> & Hs & Hin).
    exists s. split_and!; [done | qc_lra |].
    intros e [He | He]%elem_of_cons.
    + simplify_eq. done.
    + specialize (Hin e He). qc_lra.
Qed.

Lemma smean_pos l e :
  Forall (λ x, nonneg x = true) l → Fin e ∈ l → 0 < e → nan_or_pos (smean l).
Proof.
  intros Hl He Hpos. unfold smean, ssum.
  destruct (foldl_sadd_lower l 0 Hl) as (s & -> & _ & Hin).
  specialize (Hin e He). unfold of_nat, of_Z. cbn [sdiv].
  assert (Hlen : (0 < length l)%nat).
  { destruct l; [by apply elem_of_nil in He | simpl; lia]. }
  rewrite (decide_False (P := Qc_of_Z _ = _)) by by apply Qc_of_nat_ne_0.
  right. eexists. split; [done|]. unfold Qcdiv.
  apply Qcmult_pos_pos; [qc_lra|]. apply Qcinv_pos.
  unfold Qclt. simpl. unfold Qlt. simpl. lia.
Qed.

Lemma bidx_onto n m r i :
  bdim n m = Some r → (0 < n)%nat → (i < m)%nat →
  ∃ j, (j < r)%nat ∧ bidx m r j = i.
Proof.
  unfold bdim. intros Hb Hn Hi.
  destruct (decide (m = r)) as [-> | Hne].
  - exists i. split; [done|]. apply bidx_same.
  - exists 0%nat. unfold bidx. rewrite decide_False by done.
    repeat case_decide; simplify_eq; lia.
Qed.

(** A map that is not uniform is normalised to 1 where it is largest. *)
Lemma minmax_attains_1 g n :
  tall is_fin g = true → minmax g = Some n → uniform g = false →
  ∃ b c h w, (b < dimB n ∧ c < dimC n ∧ h < dimH n ∧ w < dimW n)%nat ∧
             at_ n b c h w = Fin 1.
Proof.
  intros Hfin Hn Hu. unfold minmax in Hn.
  assert (Hne : telems g ≠ []).
  { intros Hnil. unfold tmin in Hn. by rewrite Hnil in Hn. }
  destruct (tmin_tmax_fin g Hfin Hne) as (m & M & Hm & HM & Hmin & HMin & Hb).
  rewrite Hm, HM in Hn. simpl in Hn. injection Hn as <-.
  unfold uniform in Hu. rewrite Hm, HM in Hu.
  apply bool_decide_eq_false in Hu.
  apply elem_of_telems in HMin as (b & c & h & w & Hr & HMat).
  exists b, c, h, w. split; [done|]. simpl. rewrite <- HMat. simpl.
  rewrite decide_False.
  2:{ intros Hz. apply Hu. do 2 f_equal. qc_lra. }
  f_equal. unfold Qcdiv. apply Qcmult_inv_r.
  intros Hz. apply Hu. do 2 f_equal. qc_lra.
Qed.

Lemma edge_map_pos gd gs s :
  edge_map gd gs = Some s →
  (0 < numel gd)%nat →
  (∀ b c h w, (b < dimB gd)%nat → (c < dimC gd)%nat → (h < dimH gd)%nat →
              (w < dimW gd)%nat → at_ gd b c h w = Fin 0) →
  tall in_unit gs = true → tall is_fin gs = true →
  (∃ b c h w, (b < dimB gs ∧ c < dimC gs ∧ h < dimH gs ∧ w < dimW gs)%nat ∧
              at_ gs b c h w = Fin 1) →
  nan_or_pos (tmean s).
Proof.
  intros Hs Hnum Hz Hu Hf (b & c & h & w & (Hb & Hc & Hh & Hw) & H1).
  assert (Hgdfin : tall is_fin gd = true).
  { apply tall_spec. intros ? ? ? ? ? ? ? ?. by rewrite Hz. }
  pose proof (edge_map_nonneg gd gs s Hs Hgdfin Hu Hf) as Hnn.
  apply edge_map_spec in Hs as (HB & HC & HH & HW & Hat).
  apply numel_pos in Hnum as (NB & NC & NH & NW).
  destruct (bidx_onto _ _ _ b HB NB Hb) as (b' & Hb' & Eb).
  destruct (bidx_onto _ _ _ c HC NC Hc) as (c' & Hc' & Ec).
  destruct (bidx_onto _ _ _ h HH NH Hh) as (h' & Hh' & Eh).
  destruct (bidx_onto _ _ _ w HW NW Hw) as (w' & Hw' & Ew).
  apply (smean_pos _ (Q2Qc (1 # 2))); [by apply tall_Forall | | done].
  apply elem_of_telems. exists b', c', h', w'. split; [done|].
  rewrite Hat, Eb, Ec, Eh, Ew, H1.
  destruct (bdim_idx _ _ _ b' HB Hb'), (bdim_idx _ _ _ c' HC Hc'),
    (bdim_idx _ _ _ h' HH Hh'), (bdim_idx _ _ _ w' HW Hw').
  rewrite Hz by done. rewrite edge_factor_0. unfold beta. simpl. by f_equal.
Qed.

Lemma grad_x_cases_1 t g :
  (0 < dimC t)%nat → tall is_fin t = true → raw_grad_x t ≫= minmax = Some g →
  tall is_nan g = true ∨
  (tall in_unit g = true ∧ tall is_fin g = true ∧
   ∃ b c h w, (b < dimB g ∧ c < dimC g ∧ h < dimH g ∧ w < dimW g)%nat ∧
              at_ g b c h w = Fin 1).
Proof.
  intros HC Ht Hg. destruct (raw_grad_x t) as [raw|] eqn:Hraw; [|done].
  simpl in Hg. pose proof (raw_grad_x_fin t raw HC Ht Hraw) as Hfin.
  pose proof (minmax_fin raw g Hfin Hg) as H.
  pose proof (minmax_attains_1 raw g Hfin Hg) as H1.
  destruct (uniform raw); [by left | right].
  destruct H. split_and!; [done..|]. by apply H1.
Qed.

(** X8.  A constant depth is never a zero of the loss: when every entry of
    the depth prediction is the same finite value (at least two rows and
    two columns) and the image is finite, what [forward] returns is NaN or a
    positive number: where the normalised segmentation gradient is 1 the
    edge penalty is [beta]. *)
Theorem constant_depth_loss_positive depthPred img segGt c r :
  tall (is_const c) depthPred = true →
  (0 < dimB depthPred)%nat → (0 < dimC depthPred)%nat →
  (1 < dimH depthPred)%nat → (1 < dimW depthPred)%nat →
  tall is_fin img = true → (0 < dimC img)%nat → (0 < dimC segGt)%nat →
  forward depthPred img segGt = Some r →
  nan_or_pos r.
Proof.
  intros Hconst HB HC HH HW Himg HCi HCs Hr.
  destruct (forward_maps depthPred img segGt) as [m|] eqn:Hm;
    [|by unfold forward in Hr; rewrite Hm in Hr].
  pose proof Hm as Hinv. apply forward_maps_inv in Hinv
    as (gdx & gdy & gsx & gsy & gix & giy & Hgdx & Hgdy & Hgsx & Hgsy &
        Hgix & Hgiy & Hsx & Hsy & Hex & Hey).
  rewrite tall_spec in Hconst.
  assert (Hd : ∀ b c0 h w, (b < dimB depthPred)%nat → (c0 < dimC depthPred)%nat →
            (h < dimH depthPred)%nat → (w < dimW depthPred)%nat →
            at_ depthPred b c0 h w = Fin c).
  { intros b c0 h w ? ? ? ?. by eapply bool_decide_eq_true_1, Hconst. }
  assert (Hdfin : tall is_fin depthPred = true).
  { apply tall_spec. intros ? ? ? ? ? ? ? ?. by rewrite Hd. }
  pose proof (abs_grad_x_fin _ _ Hdfin Hgdx) as Fx.
  pose proof (abs_grad_y_fin _ _ Hdfin Hgdy) as Fy.
  destruct (abs_grad_x_spec depthPred)
    as (gdx0 & Hgdx0 & HxB & HxC & HxH & HxW & Hxat).
  simplify_eq.
  assert (Hgx : ∀ b c0 h w, (b < dimB gdx)%nat → (c0 < dimC gdx)%nat →
            (h < dimH gdx)%nat → (w < dimW gdx)%nat → at_ gdx b c0 h w = Fin 0).
  { intros b c0 h w ? ? ? ?. rewrite Hxat, !Hd by lia. apply sabs_self. }
  assert (Hnum : (0 < numel gdx)%nat) by (apply numel_pos; lia).
  destruct (grad_x_cases img gix HCi Himg Hgix) as [Nix | [Uix Fix]];
    [left; eapply forward_NaN; eauto using smooth_map_NaN|].
  destruct (grad_y_cases img giy HCi Himg Hgiy) as [Niy | [Uiy Fiy]];
    [left; eapply forward_NaN; eauto using smooth_map_NaN|].
  destruct (grad_x_cases_1 (tmap foreground segGt) gsx HCs (foreground_fin _) Hgsx)
    as [Nsx | (Usx & Fsx & H1)];
    [left; eapply forward_NaN; eauto 6 using edge_map_NaN|].
  destruct (grad_y_cases (tmap foreground segGt) gsy HCs (foreground_fin _) Hgsy)
    as [Nsy | [Usy Fsy]];
    [left; eapply forward_NaN; eauto 6 using edge_map_NaN|].
  unfold forward in Hr. rewrite Hm in Hr. injection Hr as <-.
  apply sadd_nan_or_pos_l; [apply sadd_nan_or_pos_r|].
  - apply sadd_nan_or_nonneg; apply tmean_nonneg; by eapply smooth_map_nonneg.
  - by eapply edge_map_pos.
  - apply tmean_nonneg. by eapply edge_map_nonneg.
Qed.

(** An image without channels. *)
Lemma foldl_smin_NaN l : foldl smin NaN l = NaN.
Proof. by induction l. Qed.

Lemma minmax_NaN g n :
  tall is_nan g = true → minmax g = Some n → tall is_nan n = true.
Proof.
  intros Hg Hn. unfold minmax, tmin, tmax in Hn.
  apply tall_Forall in Hg as Hall.
  destruct (telems g) as [|x l]; [done|].
  apply Forall_cons in Hall as [Hx _]. destruct x; try done.
  simpl in Hn. injection Hn as <-. apply tall_spec.
  intros b c h w Hb Hc Hh Hw. simpl. rewrite foldl_smin_NaN.
  by destruct (at_ g b c h w).
Qed.

Lemma mean_c_no_channel t : dimC t = 0%nat → tall is_nan (mean_c t) = true.
Proof. intros HC. apply tall_spec. intros b c h w _ _ _ _. simpl. by rewrite HC. Qed.

Lemma no_channel_image_nan depthPred img segGt r :
  dimC img = 0%nat → forward depthPred img segGt = Some r → r = NaN.
Proof.
  intros HC Hr.
  destruct (forward_maps depthPred img segGt) as [m|] eqn:Hm;
    [|by unfold forward in Hr; rewrite Hm in Hr].
  pose proof Hm as Hinv. apply forward_maps_inv in Hinv
    as (gdx & gdy & gsx & gsy & gix & giy & Hgdx & Hgdy & Hgsx & Hgsy &
        Hgix & Hgiy & Hsx & Hsy & Hex & Hey).
  unfold grad_img_x, raw_grad_x in Hgix.
  destruct (abs_grad_x_spec img) as (g & Hg & _ & HCg & _).
  rewrite Hg in Hgix. simpl in Hgix.
  eapply forward_NaN; [done..|]. left. eapply smooth_map_NaN; [done|].
  eapply minmax_NaN; [|done]. apply mean_c_no_channel. congruence.
Qed.

Lemma grad_img_x_shift c img : oteq (grad_img_x (tmap (shift c) img)) (grad_img_x img).
Proof.
  unfold grad_img_x, raw_grad_x. apply oteq_bind; [apply teq_minmax|].
  apply oteq_fmap; [apply teq_mean_c | apply abs_grad_x_shift].
Qed.

Lemma grad_img_y_shift c img : oteq (grad_img_y (tmap (shift c) img)) (grad_img_y img).
Proof.
  unfold grad_img_y, raw_grad_y. apply oteq_bind; [apply teq_minmax|].
  apply oteq_fmap; [apply teq_mean_c | apply abs_grad_y_shift].
Qed.

(** X2.  Shift invariance: adding one constant to every entry of the depth
    prediction, and another to every entry of the image, does not change
    what [forward] returns (value or RuntimeError), whatever the entries,
    infinities and NaN included: both enter through differences of
    neighbours only (rounding apart). *)
Theorem shift_invariance depthPred img segGt c c' :
  forward (tmap (shift c) depthPred) (tmap (shift c') img) segGt
  = forward depthPred img segGt.
Proof.
  apply forward_congr; try apply oteq_refl.
  - apply abs_grad_x_shift.
  - apply abs_grad_y_shift.
  - apply grad_img_x_shift.
  - apply grad_img_y_shift.
Qed.

(** *** NaN in the depth prediction *)

Lemma tmean_has_NaN t : NaN ∈ telems t → tmean t = NaN.
Proof.
  intros Hin. unfold tmean, smean, ssum. by rewrite foldl_sadd_has_NaN.
Qed.

Lemma tmean_empty t : numel t = 0%nat → tmean t = NaN.
Proof.
  intros Hn. rewrite <- length_telems in Hn. unfold tmean.
  by destruct (telems t).
Qed.

Lemma bidx_onto_l n m r i :
  bdim n m = Some r → (0 < m)%nat → (i < n)%nat →
  ∃ j, (j < r)%nat ∧ bidx n r j = i.
Proof.
  unfold bdim. intros Hb Hm Hi.
  destruct (decide (n = r)) as [-> | Hne].
  - exists i. split; [done|]. apply bidx_same.
  - exists 0%nat. unfold bidx. rewrite decide_False by done.
    repeat case_decide; simplify_eq; lia.
Qed.

Lemma bdim_0_l m r : bdim 0 m = Some r → r = 0%nat.
Proof. unfold bdim. intros Hb. repeat case_decide; simplify_eq; lia. Qed.

(** A NaN in the depth gradient reaches the smoothness map. *)
Lemma smooth_map_has_NaN gd gi s b c h w :
  smooth_map gd gi = Some s → (0 < numel gi)%nat →
  (b < dimB gd)%nat → (c < dimC gd)%nat → (h < dimH gd)%nat →
  (w < dimW gd)%nat → at_ gd b c h w = NaN →
  tmean s = NaN.
Proof.
  intros (HB & HC & HH & HW & Hat)%smooth_map_spec
         (NB & NC & NH & NW)%numel_pos Hb Hc Hh Hw Hnan.
  destruct (bidx_onto_l _ _ _ b HB NB Hb) as (b' & Hb' & Eb).
  destruct (bidx_onto_l _ _ _ c HC NC Hc) as (c' & Hc' & Ec).
  destruct (bidx_onto_l _ _ _ h HH NH Hh) as (h' & Hh' & Eh).
  destruct (bidx_onto_l _ _ _ w HW NW Hw) as (w' & Hw' & Ew).
  apply tmean_has_NaN, elem_of_telems. exists b', c', h', w'.
  split; [done|]. by rewrite Hat, Eb, Ec, Eh, Ew, Hnan.
Qed.

(** X23.  NaN in the depth prediction: when one entry of [depthPred] is NaN,
    the value that [forward] returns is NaN, whatever the image and the
    segmentation: the entry reaches a difference of neighbours, hence the
    mean of [smoothX] (which is NaN as well when the map is empty). *)
Theorem nan_depth_poisons_loss depthPred img segGt b c h w r :
  (b < dimB depthPred)%nat → (c < dimC depthPred)%nat →
  (h < dimH depthPred)%nat → (w < dimW depthPred)%nat →
  at_ depthPred b c h w = NaN →
  forward depthPred img segGt = Some r →
  r = NaN.
Proof.
  intros Hb Hc Hh Hw Hnan Hr.
  destruct (forward_maps depthPred img segGt) as [m|] eqn:Hm;
    [|by unfold forward in Hr; rewrite Hm in Hr].
  pose proof Hm as Hinv. apply forward_maps_inv in Hinv
    as (gdx & gdy & gsx & gsy & gix & giy & Hgdx & Hgdy & Hgsx & Hgsy &
        Hgix & Hgiy & Hsx & Hsy & Hex & Hey).
  assert (Hmean : tmean (smoothX m) = NaN).
  { destruct (abs_grad_x_spec depthPred)
      as (g & Hg & HxB & HxC & HxH & HxW & Hxat).
    simplify_eq.
    assert (Hnum : (0 < numel gix)%nat).
    { unfold grad_img_x in Hgix.
      destruct (raw_grad_x img) as [raw|]; [|done]. simpl in Hgix.
      apply minmax_dims in Hgix as (HB & HC & HH & HW & Hn).
      unfold numel in *. by rewrite HB, HC, HH, HW. }
    destruct (decide (1 < dimW depthPred)%nat) as [HW1 | HW1].
    - destruct (decide (w < pred (dimW depthPred))%nat) as [Hlt | Hge].
      + apply (smooth_map_has_NaN gdx gix _ b c h w); try done; try lia.
        by rewrite Hxat, Hnan.
      + apply (smooth_map_has_NaN gdx gix _ b c h (pred w)); try done; try lia.
        rewrite Hxat. replace (S (pred w)) with w by lia. rewrite Hnan.
        by destruct (at_ depthPred b c h (pred w)).
    - apply tmean_empty.
      apply smooth_map_spec in Hsx as (_ & _ & _ & HW & _).
      replace (dimW gdx) with 0%nat in HW by lia.
      apply bdim_0_l in HW. unfold numel. rewrite HW. lia. }
  unfold forward in Hr. rewrite Hm in Hr. injection Hr as <-.
  by rewrite Hmean.
Qed.

End LossMore.

(** ** More about save_checkpoint *)

Module FilesMore.
Import FilesFacts TrainerFacts.

Section Disk.
Context {M Opt : Type} `{Listing}.
Implicit Types d : gmap string (file M Opt).
Implicit Types s : fs M Opt.

(** The best files when the flag is not passed. *)
Lemma save_checkpoint_lookup_best_other st e s n :
  is_best_file n = true →
  cur (save_checkpoint st false e s) !! n = cur s !! n.
Proof.
  intros Hb. unfold save_checkpoint.
  assert (Hne : ∀ e', n ≠ checkpoint_name e').
  { intros e' ->. by rewrite checkpoint_name_not_best in Hb. }
  simpl. case_bool_decide.
  - destruct (exists_ _ _); simpl.
    + by rewrite lookup_delete_ne, lookup_insert_ne.
    + by rewrite lookup_insert_ne.
  - simpl. by rewrite lookup_insert_ne.
Qed.

(** The previous checkpoint is gone when [save_checkpoint] returns. *)
Lemma save_checkpoint_lookup_prev st f e s :
  (0 < e)%Z → cur (save_checkpoint st f e s) !! checkpoint_name (e - 1) = None.
Proof.
  intros He. unfold save_checkpoint.
  set (s3 := if f then _ else _). clearbody s3.
  rewrite bool_decide_eq_true_2 by done. unfold exists_.
  case_bool_decide as Hex; simpl.
  - apply lookup_delete_eq.
  - by apply eq_None_not_Some.
Qed.

(** A checkpoint file other than the two that [save_checkpoint] names. *)
Lemma save_checkpoint_lookup_old st f e s n :
  is_best_file n = false → n ≠ checkpoint_name e → n ≠ checkpoint_name (e - 1) →
  cur (save_checkpoint st f e s) !! n = cur s !! n.
Proof.
  intros Hb Hne Hne'. unfold save_checkpoint.
  assert (Hnb : ∀ e', n ≠ best_name e').
  { intros e' ->. by rewrite best_name_is_best in Hb. }
  set (s1 := fs_write _ _ s).
  assert (H1 : cur s1 !! n = cur s !! n) by by apply lookup_insert_ne.
  clearbody s1.
  set (s3 := if f then _ else s1).
  assert (H3 : cur s3 !! n = cur s !! n).
  { subst s3. destruct f; [|done].
    set (s2 := if bool_decide _ then _ else s1).
    assert (H2 : cur s2 !! n = cur s !! n).
    { subst s2. case_bool_decide; [|done].
      destruct (glob_best (cur s1)) as [|g l] eqn:Hg; [exact H1|]. simpl.
      rewrite lookup_delete_ne; [done|]. intros ->.
      apply glob_best_is_best in Hg. congruence. }
    clearbody s2. unfold fs_copy.
    destruct (cur s2 !! checkpoint_name e); [|done]. simpl.
    by rewrite lookup_insert_ne. }
  clearbody s3. case_bool_decide; [|done].
  destruct (exists_ _ _); [|done]. simpl. by rewrite lookup_delete_ne.
Qed.

(** X18.  What [save_checkpoint] does to the files that are not best files:
    the checkpoint of the epoch holds the state passed; for an epoch above
    0 the checkpoint of the previous epoch is absent; every other such file
    (the marker, logs, older checkpoints) is as it was. *)
Theorem save_checkpoint_non_best_files st f e s n :
  is_best_file n = false →
  cur (save_checkpoint st f e s) !! n
  = if decide (n = checkpoint_name e) then Some (Pickle st)
    else if decide ((0 < e)%Z ∧ n = checkpoint_name (e - 1)) then None
    else cur s !! n.
Proof.
  intros Hb. destruct (decide (n = checkpoint_name e)) as [-> | Hne].
  { apply save_checkpoint_lookup. }
  destruct (decide ((0 < e)%Z ∧ n = checkpoint_name (e - 1))) as [[He ->] | Hne'].
  { by apply save_checkpoint_lookup_prev. }
  destruct (decide (n = checkpoint_name (e - 1))) as [-> | Hne''].
  - assert (He : ¬ (0 < e)%Z) by tauto.
    unfold save_checkpoint. rewrite !bool_decide_eq_false_2 by done.
    destruct f; simpl.
    + unfold fs_copy. simpl. rewrite lookup_insert_eq. simpl.
      rewrite lookup_insert_ne.
      2:{ intros Heq. apply (f_equal is_best_file) in Heq.
          by rewrite best_name_is_best, checkpoint_name_not_best in Heq. }
      by rewrite lookup_insert_ne.
    + by rewrite lookup_insert_ne.
  - by apply save_checkpoint_lookup_old.
Qed.

(** X19.  What [save_checkpoint] does to the best files: without the
    [is_best] flag none of them is touched; with it, the best file of the
    epoch holds the state passed, the same content as the checkpoint of the
    epoch. *)
Theorem save_checkpoint_best_files st e s :
  (∀ n, is_best_file n = true →
        cur (save_checkpoint st false e s) !! n = cur s !! n) ∧
  cur (save_checkpoint st true e s) !! best_name e = Some (Pickle st) ∧
  cur (save_checkpoint st true e s) !! best_name e
  = cur (save_checkpoint st true e s) !! checkpoint_name e.
Proof.
  split_and!.
  - intros n Hn. by apply save_checkpoint_lookup_best_other.
  - apply save_checkpoint_lookup_best.
  - by rewrite save_checkpoint_lookup_best, save_checkpoint_lookup.
Qed.

(** At epoch 0 nothing is removed. *)
Lemma save_checkpoint_0_keeps st f s n :
  is_Some (cur s !! n) → is_Some (cur (save_checkpoint st f 0 s) !! n).
Proof.
  intros Hn. unfold save_checkpoint. rewrite !bool_decide_eq_false_2 by lia.
  assert (H1 : is_Some (cur (fs_write (checkpoint_name 0) (Pickle st) s) !! n)).
  { simpl. apply lookup_insert_is_Some'. by right. }
  destruct f; [|done]. unfold fs_copy. simpl. rewrite lookup_insert_eq. simpl.
  apply lookup_insert_is_Some'. by right.
Qed.

(** X20.  The guard [epoch > 0]: at epoch 0 an [is_best] save removes no
    earlier best file, so a best file left in the directory by an earlier
    run stays beside the new one: two files match [model_best*]. *)
Theorem epoch_0_keeps_stale_best st s n :
  is_best_file n = true → n ≠ best_name 0 → is_Some (cur s !! n) →
  {[n; best_name 0]} ⊆ names_with is_best_file (cur (save_checkpoint st true 0 s)) ∧
  ¬ one_best (cur (save_checkpoint st true 0 s)).
Proof.
  intros Hb Hne Hn.
  assert (Hsub : {[n; best_name 0]}
                 ⊆ names_with is_best_file (cur (save_checkpoint st true 0 s))).
  { intros x Hx. apply elem_of_union in Hx as [Hx | Hx];
      apply elem_of_singleton in Hx as ->.
    - apply elem_of_names_with. split; [done|]. by apply save_checkpoint_0_keeps.
    - apply elem_of_names_with. split; [apply best_name_is_best|].
      by rewrite save_checkpoint_lookup_best. }
  split; [done|]. unfold one_best. apply subseteq_size in Hsub.
  rewrite size_union, !size_singleton in Hsub; [lia|].
  by apply disjoint_singleton_l, not_elem_of_singleton.
Qed.

Lemma size_le_1_cases (X : gset string) :
  size X ≤ 1 → X = ∅ ∨ ∃ x, X = {[x]}.
Proof.
  intros HX. destruct (size X) as [|[|k]] eqn:Hs; [| |lia].
  - left. by apply size_empty_inv, leibniz_equiv in Hs.
  - right. apply size_1_elem_of in Hs as [x Hx]. exists x.
    by apply leibniz_equiv.
Qed.

(** For the epochs after the first, [save_checkpoint] never leaves two best
    files, whatever their names. *)
Lemma save_checkpoint_one_best st f e s :
  (0 < e)%Z → Forall one_best (history s) →
  Forall one_best (history (save_checkpoint st f e s)).
Proof.
  intros He Hhist. unfold save_checkpoint.
  assert (Hcur : one_best (cur s)) by by apply Forall_cons in Hhist as [? _].
  set (s1 := fs_write (checkpoint_name e) (Pickle st) s).
  assert (Hbest1 : names_with is_best_file (cur s1)
                   = names_with is_best_file (cur s)).
  { apply names_with_insert_other, checkpoint_name_not_best. }
  assert (Hhist1 : Forall one_best (history s1)).
  { constructor; [|done]. unfold one_best. by rewrite Hbest1. }
  assert (Hlook1 : cur s1 !! checkpoint_name e = Some (Pickle st)).
  { apply lookup_insert_eq. }
  clearbody s1.
  set (s3 := if f then _ else s1).
  assert (H3 : Forall one_best (history s3)).
  { subst s3. destruct f; [|done].
    rewrite bool_decide_eq_true_2 by done.
    set (s2 := match glob_best (cur s1) with [] => s1 | g :: _ => _ end).
    assert (H2 : names_with is_best_file (cur s2) = ∅ ∧
                 Forall one_best (history s2) ∧
                 cur s2 !! checkpoint_name e = Some (Pickle st)).
    { subst s2. unfold one_best in Hcur. rewrite <- Hbest1 in Hcur.
      destruct (size_le_1_cases _ Hcur) as [Hemp | [x Hx]].
      - rewrite glob_best_empty by done. done.
      - rewrite (glob_best_singleton _ x) by done. simpl. split_and!.
        + rewrite names_with_delete, Hx. apply difference_diag_L.
        + constructor; [|done]. unfold one_best. simpl.
          rewrite names_with_delete, Hx, difference_diag_L, size_empty. lia.
        + rewrite lookup_delete_ne; [done|]. intros ->.
          assert (Hin : checkpoint_name e ∈ names_with is_best_file (cur s1))
            by (rewrite Hx; by apply elem_of_singleton).
          apply elem_of_names_with in Hin as [Hin _].
          by rewrite checkpoint_name_not_best in Hin. }
    clearbody s2. destruct H2 as (Hbest2 & Hhist2 & Hlook2).
    unfold fs_copy. rewrite Hlook2. constructor; [|done].
    unfold one_best. simpl.
    rewrite names_with_insert_match by apply best_name_is_best.
    rewrite Hbest2, (right_id_L ∅ (∪)), size_singleton. lia. }
  clearbody s3. rewrite bool_decide_eq_true_2 by done.
  destruct (exists_ _ _); [|done].
  constructor; [|done]. unfold one_best. simpl.
  rewrite names_with_delete_other by apply checkpoint_name_not_best.
  by apply Forall_cons in H3 as [? _].
Qed.

End Disk.

End FilesMore.

(** ** More about the training driver *)

Module TrainerMore.
Import SmoothEdgeLoss LossOps TensorFacts ScalarFacts LossFacts LossMore.
Import FilesFacts TrainerFacts FilesMore.

Lemma slt_trans x y z : slt x y = true → slt y z = true → slt x z = true.
Proof.
  destruct x as [a| | |], y as [b| | |], z as [c| | |]; try done. simpl.
  intros H1%bool_decide_eq_true_1 H2%bool_decide_eq_true_1.
  apply bool_decide_eq_true. by eapply Qclt_trans.
Qed.

Lemma slt_not_nan x y : slt x y = true → is_nan x = false ∧ is_nan y = false.
Proof. by destruct x, y. Qed.

Lemma train_loss_NaN a lc lcl ld ls : train_loss a lc lcl ld ls NaN = NaN.
Proof. unfold train_loss. destruct (wedge a); simpl; apply sadd_NaN_r. Qed.

Section Trainer.
Context {Par Opt Sch : Type} `{Listing}.
Implicit Types w : world Par Opt Sch.
Implicit Types r : run Par Opt Sch.
Implicit Types m : gmap string Par.
Implicit Types d : gmap string (file (gmap string Par) Opt).

(** What an epoch does with the validation score. *)
Lemma epoch_body_score a w r epoch r' :
  epoch_body a w r epoch = Return r' →
  ∃ score fls,
    fls = fs_write marker_name (Text (str epoch)) (files r) ∧
    lowest_loss r' = (if slt score (lowest_loss r) then score else lowest_loss r) ∧
    best_epoch r' = (if slt score (lowest_loss r) then (epoch + 1)%Z else best_epoch r) ∧
    files r' = save_checkpoint
                 (Checkpoint (epoch + 1) (best_epoch r') (mod_ a) (model r')
                    (lowest_loss r') (optimizer r'))
                 (slt score (lowest_loss r)) epoch fls.
Proof.
  unfold epoch_body. intros Hr.
  destruct (match lr_policy a with Some _ => _ | None => _ end)
    as [[sch0 o0] evs0].
  apply bind_Return in Hr as ([[m o] evs] & Htr & Hr).
  apply bind_Return in Hr as ([[[score score_1] losses] vevs] & Hv & Hr).
  destruct (if bool_decide (lr_policy a = Some "plateau") then _ else _)
    as [[sch1 o1] evs1].
  injection Hr as <-. simpl.
  exists score, (fs_write marker_name (Text (str epoch)) (files r)).
  by split_and!.
Qed.

(** X11.  Best-score bookkeeping of one epoch: either the recorded lowest
    score strictly decreases, the best epoch becomes [epoch + 1], and the
    best file of the epoch holds the very checkpoint written for the epoch,
    whose 'epoch' and 'best epoch' are [epoch + 1] and whose 'loss' is the
    new lowest score; or lowest score and best epoch stay as they were and
    no best file is touched. *)
Theorem epoch_best_bookkeeping a w r epoch r' :
  epoch_body a w r epoch = Return r' →
  (slt (lowest_loss r') (lowest_loss r) = true ∧
   best_epoch r' = (epoch + 1)%Z ∧
   ∃ c, cur (files r') !! best_name epoch = Some (Pickle c) ∧
        cur (files r') !! checkpoint_name epoch = Some (Pickle c) ∧
        ck_epoch c = (epoch + 1)%Z ∧ ck_best_epoch c = (epoch + 1)%Z ∧
        ck_loss c = lowest_loss r' ∧ ck_state_dict c = model r') ∨
  (lowest_loss r' = lowest_loss r ∧ best_epoch r' = best_epoch r ∧
   ∀ n, is_best_file n = true → cur (files r') !! n = cur (files r) !! n).
Proof.
  intros (score & fls & Hfls & Hl & Hb & Hf)%epoch_body_score.
  destruct (slt score (lowest_loss r)) eqn:Hs.
  - left. rewrite Hl. split_and!; [done..|]. rewrite Hf.
    eexists. rewrite save_checkpoint_lookup_best, save_checkpoint_lookup.
    by split_and!.
  - right. split_and!; [done..|]. intros n Hn. rewrite Hf.
    rewrite save_checkpoint_lookup_best_other by done. rewrite Hfls. simpl.
    rewrite lookup_insert_ne; [done|]. intros <-.
    by rewrite marker_not_best in Hn.
Qed.

(** X12.  Over any number of epochs the recorded lowest score never rises:
    it stays the same together with the best epoch, or it is strictly below
    what it was and the best epoch is one of the epochs run, plus one.  A NaN
    validation score is never recorded: the lowest score is NaN after the
    epochs exactly when it was before. *)
Theorem lowest_loss_never_rises a w r epochs r' :
  foldM (epoch_body a w) r epochs = Return r' →
  is_nan (lowest_loss r') = is_nan (lowest_loss r) ∧
  ((lowest_loss r' = lowest_loss r ∧ best_epoch r' = best_epoch r) ∨
   (slt (lowest_loss r') (lowest_loss r) = true ∧
    ∃ e, e ∈ epochs ∧ best_epoch r' = (e + 1)%Z)).
Proof.
  revert r. induction epochs as [|e epochs IH]; intros r Hr; simpl in Hr.
  { injection Hr as <-. split; [done | by left]. }
  apply bind_Return in Hr as (r1 & H1 & Hr).
  apply IH in Hr as [Hnan Hr].
  apply epoch_body_score in H1 as (score & fls & _ & Hl & Hb & _).
  destruct (slt score (lowest_loss r)) eqn:Hs.
  - assert (Hlt : slt (lowest_loss r1) (lowest_loss r) = true) by by rewrite Hl.
    destruct (slt_not_nan _ _ Hlt) as [N1 N0]. split; [congruence|].
    right. destruct Hr as [[-> ->] | (Hlt' & e' & He' & ->)].
    + split; [done|]. exists e. split; [by left | done].
    + split; [by eapply slt_trans|]. exists e'. split; [by right | done].
  - rewrite Hl in Hnan, Hr. rewrite Hb in Hr. split; [done|].
    destruct Hr as [? | (Hlt' & e' & He' & ->)]; [by left|].
    right. split; [done|]. exists e'. split; [by right | done].
Qed.

(** X13.  [--no_tb false]: [main] then never returns normally; when startup
    and every epoch succeed it raises NameError at [writer.close()],
    [writer] being defined nowhere, after all the epochs have run. *)
Theorem main_needs_no_tb a w d :
  no_tb a = false →
  returns (main a w d) = false ∧
  ∀ r0 start rF,
    startup a w d = Return (r0, start) →
    foldM (epoch_body a w) r0 (range start (nepochs a)) = Return rF →
    main a w d = Raise NameError.
Proof.
  intros Htb. unfold main. split.
  - destruct (startup a w d) as [e | [r0 start]]; [done|]. simpl.
    destruct (foldM _ _ _); [done|]. simpl. by rewrite Htb.
  - intros r0 start rF -> Hloop. simpl. rewrite Hloop. simpl. by rewrite Htb.
Qed.

(** X14.  Test and evaluate mode with a marker: when [first_run] finds a
    marker and the run is in test or evaluate mode, startup loads neither
    the checkpoint nor the pretrained weights ([not args.resume] is false):
    the loop starts at [start_epoch] with the freshly defined model,
    optimizer and scheduler, best epoch 0 and lowest score infinity, and
    nothing is printed by the two loading phases. *)
Theorem test_mode_ignores_saved_state a w d :
  first_run d ≠ EmptyString →
  test_mode a || evaluate a = true →
  no_cuda a || cuda_available w = true →
  startup a w d
  = Return (Run (define_model w)
              (define_scheduler w (define_optim w (define_model w))).2
              (define_scheduler w (define_optim w (define_model w))).1
              0 PInf (fs_init d) [],
            start_epoch a).
Proof.
  intros Hmark Hmode Hcuda. unfold startup.
  replace (negb (no_cuda a) && negb (cuda_available w)) with false
    by (destruct (no_cuda a), (cuda_available w); done).
  destruct (define_scheduler w _) as [sch o].
  unfold resume_block.
  replace (bool_decide (first_run d ≠ EmptyString) && negb (test_mode a) && negb (evaluate a))
    with false by (destruct (test_mode a), (evaluate a);
                   rewrite ?andb_false_r; done).
  simpl. unfold load_pretrained.
  rewrite (bool_decide_eq_false_2 (first_run d = EmptyString)) by done.
  rewrite andb_false_r. done.
Qed.


(** X9.  Degenerate training batches: when the segmentation of a batch has
    no entry of class 5 or 7, or its input has at most two channels (so that
    [input[:, 2:]] has none), the loss of the training step, if the step
    returns, is NaN whatever the five weights, [wedge = 0] included. *)
Theorem degenerate_batch_logs_nan a w epoch m o evs i b st' :
  tall is_background (segGt b) = true ∨ (dimC (input b) ≤ 2)%nat →
  train_batch a w epoch (m, o, evs) (i, b) = Return st' →
  st'.2 = evs ++ [TrainLoss epoch i NaN].
Proof.
  intros Hdeg Hst.
  apply train_batch_Return in Hst as (seg0 & le & Hseg & Hle & ->).
  assert (HC : (0 < dimC (segGt b))%nat).
  { unfold select_c in Hseg. by case_decide. }
  assert (le = NaN) as ->.
  { destruct Hdeg as [Hbg | Hch].
    - eapply (flat_foreground_nan _ _ (segGt b) (Fin 0)); [done| |done].
      intros. by apply background_foreground.
    - eapply no_channel_image_nan; [|done]. simpl. lia. }
  simpl. by rewrite train_loss_NaN.
Qed.

Lemma transplant_entry_dom w m key val :
  dom (transplant_entry w m key val) = dom m.
Proof.
  unfold transplant_entry. destruct (m !! key) as [target|] eqn:Hk; [|done].
  destruct (copy_ w target val); [|done].
  apply set_eq. intros x. rewrite dom_insert, elem_of_union, elem_of_singleton.
  split; [|by right]. intros [-> | ?]; [|done]. by apply elem_of_dom.
Qed.

Lemma transplant_entry_other w m key val k :
  k ≠ key → transplant_entry w m key val !! k = m !! k.
Proof.
  intros Hne. unfold transplant_entry. destruct (m !! key) as [target|]; [|done].
  destruct (copy_ w target val); [|done]. by rewrite lookup_insert_ne.
Qed.

(** X16.  Transplanting pretrained entries keeps the parameter names of the
    model: none is added, none removed; and a parameter that no entry of the
    loaded file is looked up under keeps its value. *)
Theorem transplant_keeps_names w key_of m check :
  dom (transplant w key_of m check) = dom m ∧
  ∀ k, k ∉ (key_of <$> check.*1) →
       transplant w key_of m check !! k = m !! k.
Proof.
  unfold transplant. revert m.
  induction check as [|[name val] check IH]; intros m; [done|]. simpl.
  destruct (IH (transplant_entry w m (key_of name) val)) as [Hdom Hother].
  split.
  - by rewrite Hdom, transplant_entry_dom.
  - intros k Hk. apply not_elem_of_cons in Hk as [Hne Hk].
    rewrite Hother by done. by apply transplant_entry_other.
Qed.

Lemma prefix_app (p s : string) : String.prefix p (p +:+ s) = true.
Proof.
  induction p as [|c p IH]; simpl; [by destruct s|].
  by destruct (Ascii.ascii_dec c c).
Qed.

(** X17.  The pretrained encoder only reaches the backbone: a parameter
    whose name does not start with [backbone.] (with [module.backbone.]
    under [--multi]) keeps its value, whatever the loaded file holds. *)
Theorem encoder_only_touches_backbone a w m check k :
  String.prefix (if multi a then "module.backbone." else "backbone.") k = false →
  transplant w (encoder_key a) m check !! k = m !! k.
Proof.
  intros Hk. apply transplant_keeps_names.
  intros (name & -> & _)%list_elem_of_fmap.
  unfold encoder_key, backbone_view in Hk. by rewrite prefix_app in Hk.
Qed.

Lemma validate_batch_cases a w m epoch v i b :
  (0 < dimC (segGt b))%nat ∧
  (∃ v', validate_batch a w m epoch v (i, b) = Return v' ∧
         length (v_log v') = S (length (v_log v)))
  ∨ dimC (segGt b) = 0%nat ∧ validate_batch a w m epoch v (i, b) = Raise IndexError.
Proof.
  unfold validate_batch, select_c. case_decide as HC; simpl.
  - left. split; [done|]. destruct (calculate w _ _) as [g n].
    eexists. split; [done|]. simpl. rewrite length_app. simpl. lia.
  - right. split; [lia | done].
Qed.



End Trainer.

End TrainerMore.

(** ** Models/__init__.py *)

Module ModelsFacts.
Import Models.

Section Models.
Context {Net Kwargs : Type}.
Variables (model semantic_depth_net mono_depth_net : Kwargs → Net).

Lemma allowed_models_names :
  allowed_models model semantic_depth_net mono_depth_net
  = {["mod"; "sdn"; "monod"]}.
Proof.
  unfold allowed_models, model_dict. rewrite !dom_insert_L, dom_empty_L.
  by rewrite (right_id_L ∅ (∪)), (assoc_L (∪)).
Qed.


End Models.
End ModelsFacts.

(** ** The properties on the small inputs *)

Module Examples.
Import SmoothEdgeLoss Toy.
Import TensorFacts ScalarFacts LossFacts FilesFacts TrainerFacts.
Local Existing Instance sorted_listing.

(** *** C1 *)
Lemma retention_invariant_witness :
  names_with is_checkpoint_file (∅ : gmap string (file unit unit)) = ∅ ∧
  names_with is_best_file (∅ : gmap string (file unit unit)) = ∅ ∧
  length (filter (λ c, c.2 = true) three_saves) = 1%nat ∧
  names_with is_checkpoint_file (cur (save_all three_saves 0 (fs_init ∅)))
  = {[checkpoint_name 2]}.
Proof.
  assert (H1 : names_with is_checkpoint_file (∅ : gmap string (file unit unit)) = ∅)
    by reflexivity.
  assert (H2 : names_with is_best_file (∅ : gmap string (file unit unit)) = ∅)
    by reflexivity.
  assert (H3 : length (filter (λ c, c.2 = true) three_saves) = 1%nat)
    by reflexivity.
  split_and!; [exact H1 | exact H2 | exact H3 |].
  exact (proj1 (retention_invariant three_saves ∅ H1 H2 H3)).
Defined.

(** *** C2 *)
Lemma resume_continues_after_marker :
  let d := dir_of (main (toy_args 0 1) toy_world ∅) in
  first_run d = str 0 ∧
  exists_ (checkpoint_name 0) d = true ∧
  start_of (startup (toy_args 0 3) toy_world d) = Some 1%Z ∧
  start_of (startup (toy_args 0 3) toy_world d) ≠ Some 0%Z ∧
  head (range 1 (nepochs (toy_args 0 3))) = Some 1%Z.
Proof. vm_compute. by split_and!. Qed.

Lemma resume_selection_witness :
  first_run dir_after_epoch_0 = str 0 ∧
  dir_after_epoch_0 !! checkpoint_name 0 = Some (Pickle checkpoint_0) ∧
  start_of (startup (toy_args 0 3) toy_world dir_after_epoch_0)
  = Some (ck_epoch checkpoint_0).
Proof.
  assert (H1 : first_run dir_after_epoch_0 = str 0) by (vm_compute; reflexivity).
  assert (H2 : dir_after_epoch_0 !! checkpoint_name 0 = Some (Pickle checkpoint_0))
    by (vm_compute; reflexivity).
  split_and!; [exact H1 | exact H2 |].
  destruct (resume_selection (toy_args 0 3) toy_world dir_after_epoch_0 0
              checkpoint_0 H1 eq_refl eq_refl eq_refl H2)
    as ((r & -> & _) & _).
  reflexivity.
Defined.

(** *** C3 *)
Lemma loss_combination_witness :
  train_loss default_weights (Fin 1%Qc) (Fin 1%Qc) (Fin 1%Qc) (Fin 1%Qc) (Fin 1%Qc)
  = Fin (Q2Qc (1024 # 100)) ∧
  valid_loss default_weights (Fin 1%Qc) (Fin 1%Qc) (Fin 1%Qc) (Fin 1%Qc)
  = Fin (Q2Qc (524 # 100)).
Proof.
  exact (proj2 (proj2 (@loss_combination scalar scalar unit)) default_weights
           eq_refl eq_refl eq_refl eq_refl eq_refl).
Defined.

(** *** C4 *)
Lemma constant_depth_loss_nonzero :
  tall (is_const (Qc_of_Z 4)) depth_flat = true ∧
  (λ loss, seqb loss (Fin 0%Qc)) <$> forward depth_flat img_ramp seg_edges
  = Some false.
Proof. split; vm_compute; reflexivity. Qed.

Lemma constant_depth_loss_witness :
  tall (is_const (Qc_of_Z 4)) depth_flat = true ∧
  tall is_fin (the (grad_img_x img_ramp)) = true ∧
  tall is_fin (the (grad_img_y img_ramp)) = true ∧
  tmean (smoothX (the_maps (forward_maps depth_flat img_ramp seg_edges)))
  = Fin 0%Qc.
Proof.
  assert (H1 : tall (is_const (Qc_of_Z 4)) depth_flat = true)
    by (vm_compute; reflexivity).
  assert (H2 : tall is_fin (the (grad_img_x img_ramp)) = true)
    by (vm_compute; reflexivity).
  assert (H3 : tall is_fin (the (grad_img_y img_ramp)) = true)
    by (vm_compute; reflexivity).
  split_and!; [exact H1 | exact H2 | exact H3 |].
  refine (proj1 (constant_depth_loss depth_flat img_ramp seg_edges (Qc_of_Z 4)
                   (the_maps (forward_maps depth_flat img_ramp seg_edges))
                   (the (grad_img_x img_ramp)) (the (grad_img_y img_ramp))
                   (the (grad_seg_x seg_edges)) (the (grad_seg_y seg_edges))
                   H1 _ _ _ _ _ _ _ _ _ H2 H3));
    try (simpl; lia); reflexivity.
Defined.

(** *** C5 *)
Lemma resumed_losses_differ :
  let d := dir_of (main (toy_args 0 1) toy_world ∅) in
  start_of (startup (toy_args 0 3) toy_world d) = Some 1%Z ∧
  (x ← loss_of 2 1 (log_of (main (toy_args 0 3) toy_world ∅));
   y ← loss_of 2 1 (log_of (main (toy_args 0 3) toy_world d));
   Some (seqb x y)) = Some false.
Proof. vm_compute. by split. Qed.

Lemma checkpoint_round_trip_witness :
  epoch_body (toy_args 0 3) toy_world_memoryless toy_start_memoryless 0
  = Return after_epoch_0 ∧
  memoryless_scheduler toy_world_memoryless ∧
  foldM (epoch_body (toy_args 0 3) toy_world_memoryless) after_epoch_0 [1; 2]%Z
  = Return after_epoch_2 ∧
  ∃ r2 rR evs,
    startup (toy_args 0 3) toy_world_memoryless (cur (files after_epoch_0))
    = Return (r2, 1%Z) ∧
    foldM (epoch_body (toy_args 0 3) toy_world_memoryless) r2 [1; 2]%Z
    = Return rR ∧
    log after_epoch_2 = log after_epoch_0 ++ evs ∧ log rR = log r2 ++ evs.
Proof.
  assert (H1 : epoch_body (toy_args 0 3) toy_world_memoryless
                 toy_start_memoryless 0 = Return after_epoch_0)
    by (vm_compute; reflexivity).
  assert (H2 : memoryless_scheduler toy_world_memoryless)
    by (intros s s' o x; reflexivity).
  assert (H3 : foldM (epoch_body (toy_args 0 3) toy_world_memoryless)
                 after_epoch_0 [1; 2]%Z = Return after_epoch_2)
    by (vm_compute; reflexivity).
  split_and!; [exact H1 | exact H2 | exact H3 |].
  destruct (checkpoint_round_trip (toy_args 0 3) toy_world_memoryless
              toy_start_memoryless 0 after_epoch_0 H1 eq_refl eq_refl eq_refl)
    as (_ & r2 & Hstart & _ & _ & _ & _ & _ & Hsame).
  destruct (Hsame H2 [1; 2]%Z after_epoch_2 H3) as (rR & evs & HR & HU & HlR).
  exists r2, rR, evs. split_and!; [exact Hstart | exact HR | exact HU | exact HlR].
Defined.

(** *** C6 *)
Lemma fresh_start_not_at_zero :
  first_run stale_dir = "5" ∧
  exists_ (checkpoint_name 5) stale_dir = false ∧
  start_of (startup (toy_args 3 10) toy_world stale_dir) = Some 3%Z ∧
  start_of (startup (toy_args 3 10) toy_world stale_dir) ≠ Some 0%Z.
Proof. vm_compute. by split_and!. Qed.

Lemma resume_gating_degrade_witness :
  int (first_run stale_dir) = Some 5%Z ∧
  stale_dir !! checkpoint_name 5 = None ∧
  start_of (startup (toy_args 3 10) toy_world stale_dir)
  = Some (start_epoch (toy_args 3 10)).
Proof.
  assert (H1 : int (first_run stale_dir) = Some 5%Z) by (vm_compute; reflexivity).
  assert (H2 : stale_dir !! checkpoint_name 5 = None) by (vm_compute; reflexivity).
  split_and!; [exact H1 | exact H2 |].
  destruct (proj2 (resume_gating_degrade (toy_args 3 10) toy_world stale_dir)
              5%Z H1 eq_refl eq_refl H2 eq_refl) as (r & -> & _).
  reflexivity.
Defined.

(** *** C7 *)
Lemma partial_load_tolerance_witness :
  pretrained (toy_args 0 3) = true ∧
  skipped toy_world {["backbone.w" := of_Z 8]} "backbone.zz" (of_Z 4) ∧
  load_pretrained (toy_args 0 3) toy_world EmptyString {["backbone.w" := of_Z 8]}
  = Return (transplant toy_world (encoder_key (toy_args 0 3))
              {["backbone.w" := of_Z 8]}
              [("module.w", of_Z 3); ("module.zz", of_Z 4)],
            [Printed LoadedPretrained]).
Proof.
  split_and!; [reflexivity | by left |].
  exact (proj1 (partial_load_tolerance (toy_args 0 3) toy_world
                  {["backbone.w" := of_Z 8]} eq_refl)
           eq_refl _ eq_refl).
Defined.

(** *** C8 *)
Lemma uniform_gradient_is_nan :
  tall is_fin img_flat = true ∧
  uniform <$> raw_grad_x img_flat = Some true ∧
  tall is_nan <$> grad_img_x img_flat = Some true ∧
  tall in_unit <$> grad_img_x img_flat = Some false.
Proof. vm_compute. by split_and!. Qed.

Lemma minmax_unguarded_witness :
  tall is_fin img_ramp = true ∧
  raw_grad_x img_ramp = Some (the (raw_grad_x img_ramp)) ∧
  minmax (the (raw_grad_x img_ramp)) = Some (the (grad_img_x img_ramp)) ∧
  tall in_unit (the (grad_img_x img_ramp)) = true.
Proof.
  assert (H1 : tall is_fin img_ramp = true) by (vm_compute; reflexivity).
  assert (H2 : raw_grad_x img_ramp = Some (the (raw_grad_x img_ramp)))
    by reflexivity.
  assert (H3 : minmax (the (raw_grad_x img_ramp))
               = Some (the (grad_img_x img_ramp))) by reflexivity.
  split_and!; [exact H1 | exact H2 | exact H3 |].
  exact (minmax_unguarded img_ramp seg_edges (the (raw_grad_x img_ramp))
           (the (grad_img_x img_ramp)) H1 ltac:(simpl; lia) ltac:(simpl; lia)
           (or_intror (or_intror (or_introl H2))) H3).
Defined.

(** *** C9 *)
Lemma scheduler_stepping_witness :
  epoch_body (toy_args 0 3) toy_world toy_start 0 = Return plateau_epoch_0 ∧
  ∃ evs, log plateau_epoch_0 = log toy_start ++ evs ∧
         length (filter (λ e, is_scheduler_step e = true) evs) = 1%nat.
Proof.
  assert (H1 : epoch_body (toy_args 0 3) toy_world toy_start 0
               = Return plateau_epoch_0) by (vm_compute; reflexivity).
  split; [exact H1|].
  destruct (scheduler_stepping (toy_args 0 3) toy_world toy_start 0
              plateau_epoch_0 H1) as (evs & Hlog & Hplateau).
  exists evs. split; [exact Hlog|].
  simpl in Hplateau.
  destruct Hplateau as (pre & o & score & score_1 & losses & vevs & _ & -> & Hno & _).
  rewrite app_assoc, filter_app. simpl.
  rewrite length_app. simpl.
  assert (Hnil : filter (λ e, is_scheduler_step e = true) (pre ++ vevs) = []).
  { clear -Hno. induction Hno as [|e l He _ IH]; [done|].
    rewrite filter_cons, decide_False by congruence. exact IH. }
  rewrite Hnil. reflexivity.
Defined.

(** *** C10 *)
Lemma smooth_edge_exclusive_witness :
  forward_maps depth_step img_ramp seg_edges
  = Some (the_maps (forward_maps depth_step img_ramp seg_edges)) ∧
  nonzero (at_ (smoothX (the_maps (forward_maps depth_step img_ramp seg_edges))) 0 0 0 1)
  && nonzero (at_ (edgeX (the_maps (forward_maps depth_step img_ramp seg_edges))) 0 0 0 1)
  = false.
Proof.
  assert (H1 : forward_maps depth_step img_ramp seg_edges
               = Some (the_maps (forward_maps depth_step img_ramp seg_edges)))
    by reflexivity.
  split; [exact H1|].
  apply (proj1 (proj2 smooth_edge_exclusive depth_step img_ramp seg_edges _ H1));
    simpl; lia.
Defined.

End Examples.

(** ** The further properties on the small inputs *)

Module MoreExamples.
Import SmoothEdgeLoss LossOps Toy ToyMore.
Import TensorFacts ScalarFacts LossFacts LossMore.
Import FilesFacts TrainerFacts.
Import FilesMore TrainerMore.
Local Existing Instance sorted_listing.
Local Open Scope Qc_scope.

#[local] Instance one_best_dec {M Opt : Type} (d : gmap string (file M Opt)) :
  Decision (one_best d).
Proof. unfold one_best. apply _. Defined.

Lemma image_scale_invariance_witness :
  0 < Qc_of_Z 255 ∧ (0 < dimC img_ramp)%nat ∧ tall is_fin img_ramp = true ∧
  forward depth_step (tmap (scale (Qc_of_Z 255)) img_ramp) seg_edges
  = forward depth_step img_ramp seg_edges.
Proof.
  assert (H1 : 0 < Qc_of_Z 255) by reflexivity.
  assert (H2 : (0 < dimC img_ramp)%nat) by (simpl; lia).
  assert (H3 : tall is_fin img_ramp = true) by (vm_compute; reflexivity).
  split_and!; [exact H1 | exact H2 | exact H3 |].
  exact (image_scale_invariance depth_step img_ramp seg_edges (Qc_of_Z 255)
           H1 H2 H3).
Defined.

Lemma background_labels_irrelevant_witness :
  shape seg_edges = shape seg_relabelled ∧
  telems (tmap foreground seg_edges) = telems (tmap foreground seg_relabelled) ∧
  forward depth_step img_ramp seg_edges
  = forward depth_step img_ramp seg_relabelled.
Proof.
  assert (H1 : shape seg_edges = shape seg_relabelled) by reflexivity.
  assert (H2 : telems (tmap foreground seg_edges)
               = telems (tmap foreground seg_relabelled))
    by (vm_compute; reflexivity).
  split_and!; [exact H1 | exact H2 |].
  exact (background_labels_irrelevant depth_step img_ramp seg_edges
           seg_relabelled H1 H2).
Defined.


Lemma uniform_map_poisons_loss_witness :
  tall is_fin img_flat = true ∧
  raw_grad_x img_flat = Some (the (raw_grad_x img_flat)) ∧
  uniform (the (raw_grad_x img_flat)) = true ∧
  forward depth_step img_flat seg_edges
  = Some (default (Fin 0) (forward depth_step img_flat seg_edges)) ∧
  default (Fin 0) (forward depth_step img_flat seg_edges) = NaN.
Proof.
  assert (H1 : tall is_fin img_flat = true) by (vm_compute; reflexivity).
  assert (H2 : raw_grad_x img_flat = Some (the (raw_grad_x img_flat)))
    by reflexivity.
  assert (H3 : uniform (the (raw_grad_x img_flat)) = true)
    by (vm_compute; reflexivity).
  assert (H4 : forward depth_step img_flat seg_edges
               = Some (default (Fin 0) (forward depth_step img_flat seg_edges)))
    by (vm_compute; reflexivity).
  split_and!; [exact H1 | exact H2 | exact H3 | exact H4 |].
  exact (uniform_map_poisons_loss depth_step img_flat seg_edges _ _ H1
           ltac:(simpl; lia) ltac:(simpl; lia)
           (or_intror (or_intror (or_introl H2))) H3 H4).
Defined.

Lemma no_foreground_loss_nan_witness :
  tall is_background seg_background = true ∧
  forward depth_step img_ramp seg_background
  = Some (default (Fin 0) (forward depth_step img_ramp seg_background)) ∧
  default (Fin 0) (forward depth_step img_ramp seg_background) = NaN.
Proof.
  assert (H1 : tall is_background seg_background = true)
    by (vm_compute; reflexivity).
  assert (H2 : forward depth_step img_ramp seg_background
               = Some (default (Fin 0) (forward depth_step img_ramp seg_background)))
    by (vm_compute; reflexivity).
  split_and!; [exact H1 | exact H2 |].
  exact (no_foreground_loss_nan depth_step img_ramp seg_background _
           ltac:(simpl; lia) H1 H2).
Defined.

Lemma constant_depth_loss_positive_witness :
  tall (is_const (Qc_of_Z 4)) depth_flat = true ∧
  tall is_fin img_ramp = true ∧
  forward depth_flat img_ramp seg_edges
  = Some (default NaN (forward depth_flat img_ramp seg_edges)) ∧
  nan_or_pos (default NaN (forward depth_flat img_ramp seg_edges)).
Proof.
  assert (H1 : tall (is_const (Qc_of_Z 4)) depth_flat = true)
    by (vm_compute; reflexivity).
  assert (H2 : tall is_fin img_ramp = true) by (vm_compute; reflexivity).
  assert (H3 : forward depth_flat img_ramp seg_edges
               = Some (default NaN (forward depth_flat img_ramp seg_edges)))
    by (vm_compute; reflexivity).
  split_and!; [exact H1 | exact H2 | exact H3 |].
  exact (constant_depth_loss_positive depth_flat img_ramp seg_edges _ _ H1
           ltac:(simpl; lia) ltac:(simpl; lia) ltac:(simpl; lia)
           ltac:(simpl; lia) H2 ltac:(simpl; lia) ltac:(simpl; lia) H3).
Defined.

Lemma nan_depth_poisons_loss_witness :
  at_ depth_nan 0 0 0 2 = NaN ∧
  forward depth_nan img_ramp seg_edges
  = Some (default (Fin 0) (forward depth_nan img_ramp seg_edges)) ∧
  default (Fin 0) (forward depth_nan img_ramp seg_edges) = NaN.
Proof.
  assert (H1 : at_ depth_nan 0 0 0 2 = NaN) by reflexivity.
  assert (H2 : forward depth_nan img_ramp seg_edges
               = Some (default (Fin 0) (forward depth_nan img_ramp seg_edges)))
    by (vm_compute; reflexivity).
  split_and!; [exact H1 | exact H2 |].
  exact (nan_depth_poisons_loss depth_nan img_ramp seg_edges 0 0 0 2 _
           ltac:(simpl; lia) ltac:(simpl; lia) ltac:(simpl; lia)
           ltac:(simpl; lia) H1 H2).
Defined.

Lemma degenerate_batch_logs_nan_witness :
  tall is_background (segGt background_batch) = true ∧
  train_batch default_weights toy_world 0 ({["w" := of_Z 8]}, of_Z 1, [])
    (0%nat, background_batch)
  = Return background_step ∧
  background_step.2 = [TrainLoss 0 0 NaN].
Proof.
  assert (H1 : tall is_background (segGt background_batch) = true)
    by (vm_compute; reflexivity).
  assert (H2 : train_batch default_weights toy_world 0
                 ({["w" := of_Z 8]}, of_Z 1, []) (0%nat, background_batch)
               = Return background_step) by (vm_compute; reflexivity).
  split_and!; [exact H1 | exact H2 |].
  exact (degenerate_batch_logs_nan default_weights toy_world 0 _ _ [] 0%nat
           background_batch background_step (or_introl H1) H2).
Defined.

Lemma epoch_best_bookkeeping_witness :
  epoch_body (toy_args 0 3) toy_world toy_start 0 = Return plateau_epoch_0 ∧
  (best_epoch plateau_epoch_0 = 1%Z ∨
   best_epoch plateau_epoch_0 = best_epoch toy_start).
Proof.
  assert (H1 : epoch_body (toy_args 0 3) toy_world toy_start 0
               = Return plateau_epoch_0) by (vm_compute; reflexivity).
  split; [exact H1|].
  destruct (epoch_best_bookkeeping (toy_args 0 3) toy_world toy_start 0
              plateau_epoch_0 H1) as [(_ & Hb & _) | (_ & Hb & _)];
    [left | right]; exact Hb.
Defined.

Lemma lowest_loss_never_rises_witness :
  foldM (epoch_body (toy_args 0 3) toy_world_memoryless) after_epoch_0 [1; 2]%Z
  = Return after_epoch_2 ∧
  is_nan (lowest_loss after_epoch_2) = is_nan (lowest_loss after_epoch_0).
Proof.
  assert (H1 : foldM (epoch_body (toy_args 0 3) toy_world_memoryless)
                 after_epoch_0 [1; 2]%Z = Return after_epoch_2)
    by (vm_compute; reflexivity).
  split; [exact H1|].
  exact (proj1 (lowest_loss_never_rises (toy_args 0 3) toy_world_memoryless
                  after_epoch_0 [1; 2]%Z after_epoch_2 H1)).
Defined.

Lemma main_needs_no_tb_witness :
  no_tb (toy_args_tb 0 1) = false ∧
  returns (main (toy_args_tb 0 1) toy_world ∅) = false.
Proof.
  split; [reflexivity|].
  exact (proj1 (main_needs_no_tb (toy_args_tb 0 1) toy_world ∅ eq_refl)).
Defined.

Lemma test_mode_ignores_saved_state_witness :
  first_run stale_dir ≠ EmptyString ∧
  test_mode (toy_args_test 3 10) || evaluate (toy_args_test 3 10) = true ∧
  start_of (startup (toy_args_test 3 10) toy_world stale_dir) = Some 3%Z.
Proof.
  assert (H1 : first_run stale_dir ≠ EmptyString) by (vm_compute; discriminate).
  split_and!; [exact H1 | reflexivity |].
  rewrite (test_mode_ignores_saved_state (toy_args_test 3 10) toy_world
             stale_dir H1 eq_refl eq_refl).
  reflexivity.
Defined.


Lemma encoder_only_touches_backbone_witness :
  String.prefix "backbone." "head.w" = false ∧
  transplant toy_world (encoder_key (toy_args 0 3))
    {["backbone.w" := of_Z 8; "head.w" := of_Z 1]}
    [("module.w", of_Z 3); ("module.zz", of_Z 4)] !! "head.w"
  = Some (of_Z 1).
Proof.
  split; [reflexivity|].
  rewrite (encoder_only_touches_backbone (toy_args 0 3) toy_world
             {["backbone.w" := of_Z 8; "head.w" := of_Z 1]}
             [("module.w", of_Z 3); ("module.zz", of_Z 4)] "head.w" eq_refl).
  reflexivity.
Defined.

Lemma save_checkpoint_non_best_files_witness :
  is_best_file marker_name = false ∧
  cur (save_checkpoint (Checkpoint 3 2 "sdn" () (of_Z 3) ()) true 2
         (fs_init {[marker_name := Text "2"]})) !! marker_name
  = Some (Text "2").
Proof.
  split; [reflexivity|].
  rewrite (save_checkpoint_non_best_files (Checkpoint 3 2 "sdn" () (of_Z 3) ())
             true 2 (fs_init {[marker_name := Text "2"]}) marker_name eq_refl).
  reflexivity.
Defined.

Lemma epoch_0_keeps_stale_best_witness :
  is_best_file "model_best_epoch_7.pth.tar" = true ∧
  "model_best_epoch_7.pth.tar" ≠ best_name 0 ∧
  is_Some (dirty_dir !! "model_best_epoch_7.pth.tar") ∧
  ¬ one_best (cur (save_checkpoint (Checkpoint 1 1 "sdn" () (of_Z 3) ()) true 0
                     (fs_init dirty_dir))).
Proof.
  assert (H1 : is_best_file "model_best_epoch_7.pth.tar" = true) by reflexivity.
  assert (H2 : "model_best_epoch_7.pth.tar" ≠ best_name 0)
    by (vm_compute; discriminate).
  assert (H3 : is_Some (dirty_dir !! "model_best_epoch_7.pth.tar"))
    by (vm_compute; eexists; reflexivity).
  split_and!; [exact H1 | exact H2 | exact H3 |].
  exact (proj2 (epoch_0_keeps_stale_best (Checkpoint 1 1 "sdn" () (of_Z 3) ())
                  (fs_init dirty_dir) "model_best_epoch_7.pth.tar" H1 H2 H3)).
Defined.


End MoreExamples.
